(** * go-interval-tree: an augmented red-black interval tree

    A shallow embedding of package [itree] (interval.go, point.go, node.go,
    tree.go) and the proofs of its structural invariants and query laws.

    The Go program is a pointer structure: nodes are heap objects linked by
    [parent], [left] and [right] pointers and mutated in place.  The embedding
    keeps that: a store maps addresses to [Node] records, a pointer is an
    optional address ([None] is Go's nil), and every method is a computation
    in a small state-and-error monad over the store and the tree header.
    Loops and recursive methods take fuel; the exported operation supplies
    more fuel than there are allocated nodes, so that running out of fuel can
    only happen on a cyclic (ill-formed) pointer graph. *)

From Stdlib Require Import ZArith Lia.
From stdpp Require Import base option list gmap strings sorting.

Local Open Scope Z_scope.
Declare Scope go_scope.
Set Warnings "-clear-no-such-hyp".

(** ** Points (point.go) *)

(** The [Point] interface: one method [Less], which "must provide a total or
    a strict weak ordering". *)
Class Point (P : Type) := {
  Less : P -> P -> bool;
  Less_irrefl : forall x, Less x x = false;
  Less_trans : forall x y z, Less x y = true -> Less y z = true -> Less x z = true;
  Less_incomparable : forall x y z,
    Less x y = false -> Less y x = false ->
    Less y z = false -> Less z y = false ->
    Less x z = false /\ Less z x = false
}.

(** func equal(x, y Point) bool *)
Definition equal `{Point P} (x y : P) : bool := negb (Less x y || Less y x).

(** func lessOrEqual(x, y Point) bool *)
Definition lessOrEqual `{Point P} (x y : P) : bool := negb (Less y x).

(** type Int int, with [Less] the comparison of the integers. *)
Definition Int := Z.

#[export] Program Instance Int_Point : Point Int := {| Less := Z.ltb |}.
Next Obligation. intros x. apply Z.ltb_irrefl. Qed.
Next Obligation. intros x y z. rewrite !Z.ltb_lt. lia. Qed.
Next Obligation. intros x y z. rewrite !Z.ltb_ge. split; apply Z.ltb_ge; lia. Qed.

(** ** Intervals (interval.go) *)

Record Interval (P : Type) := mkInterval { Left : P; Right : P }.
Arguments mkInterval {P} _ _.
Arguments Left {P} _.
Arguments Right {P} _.

Section IntervalOps.
Context `{Point P}.

(** func (iv Interval) empty() bool *)
Definition Interval_empty (iv : Interval P) : bool :=
  lessOrEqual (Right iv) (Left iv).

(** func (iv Interval) Less(than Interval) bool *)
Definition Interval_Less (iv than : Interval P) : bool :=
  if Less (Left iv) (Left than) then true
  else if Less (Left than) (Left iv) then false
  else Less (Right iv) (Right than).

(** func (iv Interval) Equal(to Interval) bool *)
Definition Interval_Equal (iv to : Interval P) : bool :=
  equal (Left iv) (Left to) && equal (Right iv) (Right to).

(** func (iv Interval) ContainsPoint(x Point) bool *)
Definition ContainsPoint (iv : Interval P) (x : P) : bool :=
  Less x (Right iv) && lessOrEqual (Left iv) x.

(** func (iv Interval) ContainsInterval(other Interval) bool *)
Definition ContainsInterval (iv other : Interval P) : bool :=
  lessOrEqual (Left iv) (Left other) && lessOrEqual (Right other) (Right iv).

(** func (iv Interval) Overlaps(with Interval) bool *)
Definition Overlaps (iv with_ : Interval P) : bool :=
  negb (lessOrEqual (Right with_) (Left iv) || lessOrEqual (Right iv) (Left with_)).
End IntervalOps.

(** ** Strict weak orders

    What the proofs use of [Less] on points and of [Interval_Less] on
    intervals: irreflexivity, transitivity and negative transitivity. *)

Class StrictWeak {A : Type} (lt : A -> A -> bool) : Prop := {
  swo_irrefl : forall x, lt x x = false;
  swo_trans : forall x y z, lt x y = true -> lt y z = true -> lt x z = true;
  swo_ntrans : forall x y z, lt x z = true -> lt x y = true \/ lt y z = true
}.

Section StrictWeakFacts.
Context {A : Type} (lt : A -> A -> bool) `{!StrictWeak lt}.

Lemma swo_lt_le x y z : lt x y = true -> lt z y = false -> lt x z = true.
Proof. intros Hxy Hzy. destruct (swo_ntrans x z y Hxy); congruence. Qed.

Lemma swo_le_lt x y z : lt y x = false -> lt y z = true -> lt x z = true.
Proof. intros Hyx Hyz. destruct (swo_ntrans y x z Hyz); congruence. Qed.

Lemma swo_le_le x y z : lt y x = false -> lt z y = false -> lt z x = false.
Proof.
  intros Hyx Hzy. destruct (lt z x) eqn:E; [|done].
  destruct (swo_ntrans z y x E); congruence.
Qed.

Lemma swo_asym x y : lt x y = true -> lt y x = false.
Proof.
  intros Hxy. destruct (lt y x) eqn:E; [|done].
  pose proof (swo_trans x y x Hxy E) as Hxx. rewrite swo_irrefl in Hxx. done.
Qed.
End StrictWeakFacts.

(** Saturation of the comparisons in the context under the four
    transitivity rules, until two of them clash. *)
Ltac order_learn H :=
  let T := type of H in
  lazymatch goal with
  | _ : T |- _ => fail
  | _ => pose proof H
  end.

Ltac order_clash :=
  match goal with
  | H : ?lt ?a ?a = true |- _ => rewrite (swo_irrefl (lt:=lt)) in H; discriminate H
  | H1 : ?lt ?a ?b = true, H2 : ?lt ?a ?b = false |- _ => rewrite H1 in H2; discriminate H2
  end.

Ltac order_step :=
  match goal with
  | H1 : ?lt ?a ?b = true, H2 : ?lt ?b ?c = true |- _ =>
      order_learn (swo_trans (lt:=lt) a b c H1 H2)
  | H1 : ?lt ?a ?b = true, H2 : ?lt ?c ?b = false |- _ =>
      order_learn (swo_lt_le lt a b c H1 H2)
  | H1 : ?lt ?b ?a = false, H2 : ?lt ?b ?c = true |- _ =>
      order_learn (swo_le_lt lt a b c H1 H2)
  | H1 : ?lt ?b ?a = false, H2 : ?lt ?c ?b = false |- _ =>
      order_learn (swo_le_le lt a b c H1 H2)
  end.

Ltac order_false := first [order_clash | order_step; order_false].

Ltac order_goal :=
  lazymatch goal with
  | |- ?lt ?a ?b = true =>
      destruct (lt a b) eqn:?; [reflexivity | exfalso; first [done | order_false]]
  | |- ?lt ?a ?b = false =>
      destruct (lt a b) eqn:?; [exfalso; first [done | order_false] | reflexivity]
  | |- False => order_false
  | |- _ => exfalso; order_false
  end.

Ltac order := first [done | order_goal].

#[export] Instance Less_StrictWeak `{Point P} : StrictWeak (Less (P:=P)).
Proof.
  split; [apply Less_irrefl | apply Less_trans |].
  intros x y z Hxz.
  destruct (Less x y) eqn:Hxy; [by left|].
  destruct (Less y z) eqn:Hyz; [by right|]. exfalso.
  destruct (Less y x) eqn:Hyx.
  { rewrite (Less_trans y x z Hyx Hxz) in Hyz. done. }
  destruct (Less z y) eqn:Hzy.
  { rewrite (Less_trans x z y Hxz Hzy) in Hxy. done. }
  destruct (Less_incomparable x y z Hxy Hyx Hyz Hzy) as [E _]. congruence.
Qed.

Section IntervalOrder.
Context `{Point P}.
Implicit Types i j k : Interval P.

#[export] Instance Interval_Less_StrictWeak : StrictWeak (Interval_Less (P:=P)).
Proof.
  split.
  - intros i. unfold Interval_Less. rewrite !swo_irrefl. done.
  - intros i j k. unfold Interval_Less.
    destruct (Less (Left i) (Left j)) eqn:?, (Less (Left j) (Left i)) eqn:?,
      (Less (Left j) (Left k)) eqn:?, (Less (Left k) (Left j)) eqn:?,
      (Less (Left i) (Left k)) eqn:?, (Less (Left k) (Left i)) eqn:?;
      intros; try done; try order.
  - intros i j k. unfold Interval_Less.
    destruct (Less (Left i) (Left j)) eqn:?, (Less (Left j) (Left i)) eqn:?,
      (Less (Left j) (Left k)) eqn:?, (Less (Left k) (Left j)) eqn:?,
      (Less (Left i) (Left k)) eqn:?, (Less (Left k) (Left i)) eqn:?;
      intros; try (by left); try (by right); try order.
    destruct (Less (Right i) (Right j)) eqn:?; [by left | right; order].
Qed.

(** Two intervals neither of which is less than the other are [Equal]. *)
Lemma Interval_Equal_incomparable i j :
  Interval_Equal i j = true <->
  Interval_Less i j = false /\ Interval_Less j i = false.
Proof.
  unfold Interval_Equal, Interval_Less, equal.
  destruct (Less (Left i) (Left j)), (Less (Left j) (Left i)),
    (Less (Right i) (Right j)), (Less (Right j) (Right i)); simpl; intuition congruence.
Qed.

Lemma Interval_Less_Left i j :
  Interval_Less i j = true -> Less (Left j) (Left i) = false.
Proof.
  unfold Interval_Less.
  destruct (Less (Left i) (Left j)) eqn:?; [intros _; order|].
  destruct (Less (Left j) (Left i)); done.
Qed.
End IntervalOrder.

(** ** Nodes and the tree header (node.go, tree.go) *)

(** A pointer [*Node]: [None] is nil. *)
Abbreviation ptr := (option positive).

(** type Node struct.  [Value] is an [interface{}]: [None] is the nil
    interface value. *)
Record Node (P V : Type) := mkNode {
  Value : option V;
  interval : Interval P;
  maxRight : P;
  parent : ptr;
  left : ptr;
  right : ptr;
  red : bool
}.
Arguments mkNode {P V} _ _ _ _ _ _ _.
Arguments Value {P V} _.
Arguments interval {P V} _.
Arguments maxRight {P V} _.
Arguments parent {P V} _.
Arguments left {P V} _.
Arguments right {P V} _.
Arguments red {P V} _.

(** type T struct.  Go's [int] counter is an integer that is only ever
    incremented and decremented by one. *)
Record T := mkT { root : ptr; length : Z }.

(** The machine state a method runs in: the store of allocated nodes and the
    tree header [*t] the method was called on. *)
Record State (P V : Type) := mkState {
  heap : gmap positive (Node P V);
  hdr : T
}.
Arguments mkState {P V} _ _.
Arguments heap {P V} _.
Arguments hdr {P V} _.

(** ** The monad of Go computations *)

Inductive result (A : Type) : Type :=
| Ok (x : A)
| Panic (why : string)
| Timeout.
Arguments Ok {A} _.
Arguments Panic {A} _.
Arguments Timeout {A}.

Section Embedding.
Context `{Point P} {V : Type}.

Definition M (A : Type) : Type := State P V -> result (A * State P V).

Definition ret {A} (x : A) : M A := fun s => Ok (x, s).

Definition bind {A B} (m : M A) (k : A -> M B) : M B := fun s =>
  match m s with
  | Ok (x, s') => k x s'
  | Panic why => Panic why
  | Timeout => Timeout
  end.

Definition panic {A} (why : string) : M A := fun _ => Panic why.
Definition timeout {A} : M A := fun _ => Timeout.

(** Statement sequencing: [x ← m; k] runs [m], names its result and goes
    on with [k]; [m;; k] drops the result. *)
Notation "x ← y ; z" := (bind y (fun x => z))
  (at level 20, y at level 100, z at level 200, only parsing) : go_scope.
Notation "y ;; z" := (bind y (fun _ => z))
  (at level 100, z at level 200, only parsing, right associativity) : go_scope.
Local Open Scope go_scope.

(** Reading a node through a pointer; nil panics, as in Go. *)
Definition load (p : ptr) : M (Node P V) := fun s =>
  match p with
  | None => Panic "nil pointer dereference"
  | Some a =>
      match heap s !! a with
      | Some nd => Ok (nd, s)
      | None => Panic "invalid pointer"
      end
  end.

(** Field read [p.f]. *)
Definition get {X} (f : Node P V -> X) (p : ptr) : M X :=
  nd ← load p; ret (f nd).

(** Field write: [p] is overwritten with [g] of its current contents. *)
Definition store (g : Node P V -> Node P V) (p : ptr) : M unit := fun s =>
  match p with
  | None => Panic "nil pointer dereference"
  | Some a =>
      match heap s !! a with
      | Some nd => Ok (tt, mkState (<[a := g nd]> (heap s)) (hdr s))
      | None => Panic "invalid pointer"
      end
  end.

Definition with_Value (v : option V) (nd : Node P V) : Node P V :=
  mkNode v (interval nd) (maxRight nd) (parent nd) (left nd) (right nd) (red nd).
Definition with_maxRight (m : P) (nd : Node P V) : Node P V :=
  mkNode (Value nd) (interval nd) m (parent nd) (left nd) (right nd) (red nd).
Definition with_parent (q : ptr) (nd : Node P V) : Node P V :=
  mkNode (Value nd) (interval nd) (maxRight nd) q (left nd) (right nd) (red nd).
Definition with_left (q : ptr) (nd : Node P V) : Node P V :=
  mkNode (Value nd) (interval nd) (maxRight nd) (parent nd) q (right nd) (red nd).
Definition with_right (q : ptr) (nd : Node P V) : Node P V :=
  mkNode (Value nd) (interval nd) (maxRight nd) (parent nd) (left nd) q (red nd).
Definition with_red (b : bool) (nd : Node P V) : Node P V :=
  mkNode (Value nd) (interval nd) (maxRight nd) (parent nd) (left nd) (right nd) b.

Arguments with_Value _ !_ /.
Arguments with_maxRight _ !_ /.
Arguments with_parent _ !_ /.
Arguments with_left _ !_ /.
Arguments with_right _ !_ /.
Arguments with_red _ !_ /.

Definition set_Value (p : ptr) (v : option V) : M unit := store (with_Value v) p.
Definition set_maxRight (p : ptr) (m : P) : M unit := store (with_maxRight m) p.
Definition set_parent (p q : ptr) : M unit := store (with_parent q) p.
Definition set_left (p q : ptr) : M unit := store (with_left q) p.
Definition set_right (p q : ptr) : M unit := store (with_right q) p.
Definition set_red (p : ptr) (b : bool) : M unit := store (with_red b) p.

(** [&Node{...}]: a fresh object. *)
Definition new (nd : Node P V) : M ptr := fun s =>
  let a := fresh (dom (heap s)) in
  Ok (Some a, mkState (<[a := nd]> (heap s)) (hdr s)).

Definition get_root : M ptr := fun s => Ok (root (hdr s), s).
Definition set_root (p : ptr) : M unit := fun s =>
  Ok (tt, mkState (heap s) (mkT p (length (hdr s)))).
Definition get_length : M Z := fun s => Ok (length (hdr s), s).
Definition set_length (n : Z) : M unit := fun s =>
  Ok (tt, mkState (heap s) (mkT (root (hdr s)) n)).

(** Pointer comparison [p == q]. *)
Definition ptr_eqb (p q : ptr) : bool := bool_decide (p = q).
Definition is_nil (p : ptr) : bool := match p with None => true | Some _ => false end.

(** Go's short-circuit [a && b]. *)
Definition andM (a b : M bool) : M bool := x ← a; if x then b else ret false.

(** [if c { body }] *)
Definition when (c : bool) (body : M unit) : M unit := if c then body else ret tt.

(** Fuel handed to a loop or a recursive method by its caller: one more
    than the number of allocated nodes. *)
Definition fuel_of (s : State P V) : nat := S (size (heap s)).
Definition with_fuel {A} (f : nat -> M A) : M A := fun s => f (fuel_of s) s.

(** *** tree.go *)

(** func (t *T) Len() int *)
Definition Len : M Z := get_length.

(** The statement
    [if q != nil && p.maxRight.Less(q.maxRight) { p.maxRight = q.maxRight }],
    which the source writes out at each of its uses. *)
Definition raise_maxRight (p q : ptr) : M unit :=
  c ← andM (ret (negb (is_nil q)))
           (a ← get maxRight p; b ← get maxRight q; ret (Less a b));
  when c (b ← get maxRight q; set_maxRight p b).

(** The statement
    [if parent != nil { if parent.left == old { parent.left = new }
     else { parent.right = new } } else { t.root = new }],
    likewise written out at each use. *)
Definition replace_child (parent_ old new_ : ptr) : M unit :=
  if negb (is_nil parent_) then
    l ← get left parent_;
    if ptr_eqb l old then set_left parent_ new_ else set_right parent_ new_
  else set_root new_.

(** func (t *T) rotateLeft(m *Node) *)
Definition rotateLeft (m : ptr) : M unit :=
  parent_ ← get parent m;
  n ← get right m;
  y ← get left n;
  (* Update parents *)
  set_parent n parent_;;
  set_parent m n;;
  when (negb (is_nil y)) (set_parent y m);;
  (* Update children *)
  replace_child parent_ m n;;
  set_left n m;;
  set_right m y;;
  (* Update maxRight *)
  iv ← get interval m;
  set_maxRight m (Right iv);;
  ml ← get left m;
  raise_maxRight m ml;;
  raise_maxRight m y;;
  a ← get maxRight n;
  b ← get maxRight m;
  when (Less a b) (set_maxRight n b).

(** func (t *T) rotateRight(n *Node) *)
Definition rotateRight (n : ptr) : M unit :=
  parent_ ← get parent n;
  m ← get left n;
  y ← get right m;
  (* Update parents *)
  set_parent m parent_;;
  set_parent n m;;
  when (negb (is_nil y)) (set_parent y n);;
  (* Update children *)
  replace_child parent_ n m;;
  set_left n y;;
  set_right m n;;
  (* Update maxRight *)
  iv ← get interval n;
  set_maxRight n (Right iv);;
  raise_maxRight n y;;
  nr ← get right n;
  raise_maxRight n nr;;
  a ← get maxRight m;
  b ← get maxRight n;
  when (Less a b) (set_maxRight m b).

(** The emptiness check every interval-taking method starts with. *)
Definition check_interval (iv : Interval P) : M unit :=
  if Interval_empty iv then panic "empty interval" else ret tt.

(** The loop of GetNode. *)
Fixpoint GetNode_loop (fuel : nat) (iv : Interval P) (current : ptr) : M ptr :=
  match fuel with
  | O => timeout
  | S fuel =>
      if is_nil current then ret None
      else
        civ ← get interval current;
        if Interval_Less iv civ then
          l ← get left current; GetNode_loop fuel iv l
        else if Interval_Less civ iv then
          r ← get right current; GetNode_loop fuel iv r
        else ret current
  end.

(** func (t *T) GetNode(iv Interval) *Node *)
Definition GetNode (iv : Interval P) : M ptr :=
  check_interval iv;;
  r ← get_root;
  with_fuel (fun fuel => GetNode_loop fuel iv r).

(** The loops of GetMin and GetMax. *)
Fixpoint GetMin_loop (fuel : nat) (candidate current : ptr) : M ptr :=
  match fuel with
  | O => timeout
  | S fuel =>
      if is_nil current then ret candidate
      else l ← get left current; GetMin_loop fuel current l
  end.

Fixpoint GetMax_loop (fuel : nat) (candidate current : ptr) : M ptr :=
  match fuel with
  | O => timeout
  | S fuel =>
      if is_nil current then ret candidate
      else r ← get right current; GetMax_loop fuel current r
  end.

(** func (t *T) GetMin() *Node *)
Definition GetMin : M ptr :=
  r ← get_root; with_fuel (fun fuel => GetMin_loop fuel None r).

(** func (t *T) GetMax() *Node *)
Definition GetMax : M ptr :=
  r ← get_root; with_fuel (fun fuel => GetMax_loop fuel None r).

(** The loops of the four neighbour queries. *)
Fixpoint GetLess_loop (fuel : nat) (iv : Interval P) (candidate current : ptr) : M ptr :=
  match fuel with
  | O => timeout
  | S fuel =>
      if is_nil current then ret candidate
      else
        civ ← get interval current;
        if Interval_Less civ iv then
          r ← get right current; GetLess_loop fuel iv current r
        else
          l ← get left current; GetLess_loop fuel iv candidate l
  end.

Fixpoint GetLessEqual_loop (fuel : nat) (iv : Interval P) (candidate current : ptr) : M ptr :=
  match fuel with
  | O => timeout
  | S fuel =>
      if is_nil current then ret candidate
      else
        civ ← get interval current;
        if Interval_Less iv civ then
          l ← get left current; GetLessEqual_loop fuel iv candidate l
        else
          r ← get right current; GetLessEqual_loop fuel iv current r
  end.

Fixpoint GetGreater_loop (fuel : nat) (iv : Interval P) (candidate current : ptr) : M ptr :=
  match fuel with
  | O => timeout
  | S fuel =>
      if is_nil current then ret candidate
      else
        civ ← get interval current;
        if Interval_Less iv civ then
          l ← get left current; GetGreater_loop fuel iv current l
        else
          r ← get right current; GetGreater_loop fuel iv candidate r
  end.

Fixpoint GetGreaterEqual_loop (fuel : nat) (iv : Interval P) (candidate current : ptr) : M ptr :=
  match fuel with
  | O => timeout
  | S fuel =>
      if is_nil current then ret candidate
      else
        civ ← get interval current;
        if Interval_Less civ iv then
          r ← get right current; GetGreaterEqual_loop fuel iv candidate r
        else
          l ← get left current; GetGreaterEqual_loop fuel iv current l
  end.

(** func (t *T) GetLess(iv Interval) *Node *)
Definition GetLess (iv : Interval P) : M ptr :=
  check_interval iv;;
  r ← get_root; with_fuel (fun fuel => GetLess_loop fuel iv None r).

(** func (t *T) GetLessEqual(iv Interval) *Node *)
Definition GetLessEqual (iv : Interval P) : M ptr :=
  check_interval iv;;
  r ← get_root; with_fuel (fun fuel => GetLessEqual_loop fuel iv None r).

(** func (t *T) GetGreater(iv Interval) *Node *)
Definition GetGreater (iv : Interval P) : M ptr :=
  check_interval iv;;
  r ← get_root; with_fuel (fun fuel => GetGreater_loop fuel iv None r).

(** func (t *T) GetGreaterEqual(iv Interval) *Node *)
Definition GetGreaterEqual (iv : Interval P) : M ptr :=
  check_interval iv;;
  r ← get_root; with_fuel (fun fuel => GetGreaterEqual_loop fuel iv None r).

(** func (t *T) Get(iv Interval) (value interface{}, present bool) *)
Definition Get (iv : Interval P) : M (option V * bool) :=
  node ← GetNode iv;
  if is_nil node then ret (None, false)
  else v ← get Value node; ret (v, true).

(** *** node.go *)

(** func (n *Node) black() bool *)
Definition black (n : ptr) : M bool :=
  if is_nil n then ret true else r ← get red n; ret (negb r).

(** func (n *Node) sibling(parent *Node) *Node *)
Definition sibling (n parent_ : ptr) : M ptr :=
  if is_nil parent_ then ret None
  else
    l ← get left parent_;
    if ptr_eqb l n then get right parent_ else get left parent_.

(** func (t *T) rebalanceRed(n *Node) (tree.go) *)
Fixpoint rebalanceRed_rec (fuel : nat) (n : ptr) : M unit :=
  match fuel with
  | O => timeout
  | S fuel =>
      b ← black n;
      if b then ret tt
      else
        (* If n is the root node, we can safely paint it black. *)
        parent_ ← get parent n;
        if is_nil parent_ then set_red n false
        else
          (* Nothing to do if parent is not red. *)
          pr ← get red parent_;
          if negb pr then ret tt
          else
            (* Actually rebalance *)
            grandparent ← get parent parent_;
            auncle ← sibling parent_ grandparent;
            ar ← andM (ret (negb (is_nil auncle))) (get red auncle);
            if ar then
              set_red auncle false;;
              set_red parent_ false;;
              set_red grandparent true;;
              rebalanceRed_rec fuel grandparent
            else
              c1 ← andM (r ← get right parent_; ret (ptr_eqb n r))
                        (l ← get left grandparent; ret (ptr_eqb parent_ l));
              np ← (if c1 then
                      rotateLeft parent_;;
                      n' ← get left n;
                      parent' ← get left grandparent;
                      ret (n', parent')
                    else
                      c2 ← andM (l ← get left parent_; ret (ptr_eqb n l))
                                (r ← get right grandparent; ret (ptr_eqb parent_ r));
                      if c2 then
                        rotateRight parent_;;
                        n' ← get right n;
                        parent' ← get right grandparent;
                        ret (n', parent')
                      else ret (n, parent_));
              let n := fst np in
              let parent_ := snd np in
              set_red parent_ false;;
              set_red grandparent true;;
              l ← get left parent_;
              if ptr_eqb n l then rotateRight grandparent
              else rotateLeft grandparent
  end.

Definition rebalanceRed (n : ptr) : M unit :=
  with_fuel (fun fuel => rebalanceRed_rec fuel n).

(** func (n *Node) replaceOrInsert(t *T, interval Interval, value interface{}) *)
Fixpoint replaceOrInsert_rec (fuel : nat) (n : ptr) (iv : Interval P)
    (value : option V) : M (option V * bool) :=
  match fuel with
  | O => timeout
  | S fuel =>
      mr ← get maxRight n;
      when (Less mr (Right iv)) (set_maxRight n (Right iv));;
      niv ← get interval n;
      if Interval_Less niv iv then
        r ← get right n;
        if negb (is_nil r) then replaceOrInsert_rec fuel r iv value
        else
          fresh_ ← new (mkNode value iv (Right iv) n None None true);
          set_right n fresh_;;
          r ← get right n;
          rebalanceRed r;;
          len ← get_length;
          set_length (len + 1);;
          ret (None, false)
      else if Interval_Less iv niv then
        l ← get left n;
        if negb (is_nil l) then replaceOrInsert_rec fuel l iv value
        else
          fresh_ ← new (mkNode value iv (Right iv) n None None true);
          set_left n fresh_;;
          l ← get left n;
          rebalanceRed l;;
          len ← get_length;
          set_length (len + 1);;
          ret (None, false)
      else
        previous ← get Value n;
        set_Value n value;;
        ret (previous, true)
  end.

Definition replaceOrInsert (n : ptr) (iv : Interval P) (value : option V)
    : M (option V * bool) :=
  with_fuel (fun fuel => replaceOrInsert_rec fuel n iv value).

(** func (t *T) ReplaceOrInsert(interval Interval, value interface{}) (tree.go) *)
Definition ReplaceOrInsert (iv : Interval P) (value : option V)
    : M (option V * bool) :=
  check_interval iv;;
  len ← get_length;
  if len =? 0 then
    fresh_ ← new (mkNode value iv (Right iv) None None None false);
    set_root fresh_;;
    set_length 1;;
    ret (None, false)
  else
    r ← get_root;
    replaceOrInsert r iv value.

(** func (n *Node) nodesContainingPoint(list []*Node, p Point) []*Node *)
Fixpoint nodesContainingPoint_rec (fuel : nat) (n : ptr) (lst : list ptr) (p : P)
    : M (list ptr) :=
  match fuel with
  | O => timeout
  | S fuel =>
      mr ← get maxRight n;
      if lessOrEqual mr p then ret lst
      else
        l ← get left n;
        lst ← (if negb (is_nil l) then nodesContainingPoint_rec fuel l lst p
               else ret lst);
        niv ← get interval n;
        if lessOrEqual (Left niv) p then
          lst ← ret (if Less p (Right niv) then lst ++ [n] else lst);
          r ← get right n;
          if negb (is_nil r) then nodesContainingPoint_rec fuel r lst p
          else ret lst
        else ret lst
  end.

(** func (n *Node) nodesContainingInterval(list []*Node, iv Interval) []*Node *)
Fixpoint nodesContainingInterval_rec (fuel : nat) (n : ptr) (lst : list ptr)
    (iv : Interval P) : M (list ptr) :=
  match fuel with
  | O => timeout
  | S fuel =>
      mr ← get maxRight n;
      if Less mr (Right iv) then ret lst
      else
        l ← get left n;
        lst ← (if negb (is_nil l) then nodesContainingInterval_rec fuel l lst iv
               else ret lst);
        niv ← get interval n;
        if lessOrEqual (Left niv) (Left iv) then
          lst ← ret (if lessOrEqual (Right iv) (Right niv) then lst ++ [n] else lst);
          r ← get right n;
          if negb (is_nil r) then nodesContainingInterval_rec fuel r lst iv
          else ret lst
        else ret lst
  end.

(** func (n *Node) nodesContainedInInterval(list []*Node, iv Interval) []*Node *)
Fixpoint nodesContainedInInterval_rec (fuel : nat) (n : ptr) (lst : list ptr)
    (iv : Interval P) : M (list ptr) :=
  match fuel with
  | O => timeout
  | S fuel =>
      mr ← get maxRight n;
      if lessOrEqual mr (Left iv) then ret lst
      else
        niv ← get interval n;
        lst ← (if lessOrEqual (Left iv) (Left niv) then
                 l ← get left n;
                 lst ← (if negb (is_nil l) then
                          nodesContainedInInterval_rec fuel l lst iv
                        else ret lst);
                 ret (if lessOrEqual (Right niv) (Right iv) then lst ++ [n] else lst)
               else ret lst);
        r ← get right n;
        if negb (is_nil r) then nodesContainedInInterval_rec fuel r lst iv
        else ret lst
  end.

(** func (n *Node) nodesOverlappingInterval(list []*Node, iv Interval) []*Node *)
Fixpoint nodesOverlappingInterval_rec (fuel : nat) (n : ptr) (lst : list ptr)
    (iv : Interval P) : M (list ptr) :=
  match fuel with
  | O => timeout
  | S fuel =>
      mr ← get maxRight n;
      if lessOrEqual mr (Left iv) then ret lst
      else
        niv ← get interval n;
        lst ← (if Less (Left iv) (Right niv) then
                 l ← get left n;
                 lst ← (if negb (is_nil l) then
                          nodesOverlappingInterval_rec fuel l lst iv
                        else ret lst);
                 ret (if Less (Left niv) (Right iv) then lst ++ [n] else lst)
               else ret lst);
        r ← get right n;
        if negb (is_nil r) then nodesOverlappingInterval_rec fuel r lst iv
        else ret lst
  end.

(** func (t *T) NodesContainingPoint(p Point) []*Node (tree.go) *)
Definition NodesContainingPoint (p : P) : M (list ptr) :=
  r ← get_root;
  if is_nil r then ret []
  else with_fuel (fun fuel => nodesContainingPoint_rec fuel r [] p).

(** func (t *T) NodesContainingInterval(iv Interval) []*Node *)
Definition NodesContainingInterval (iv : Interval P) : M (list ptr) :=
  check_interval iv;;
  r ← get_root;
  if is_nil r then ret []
  else with_fuel (fun fuel => nodesContainingInterval_rec fuel r [] iv).

(** func (t *T) NodesContainedInInterval(iv Interval) []*Node *)
Definition NodesContainedInInterval (iv : Interval P) : M (list ptr) :=
  check_interval iv;;
  r ← get_root;
  if is_nil r then ret []
  else with_fuel (fun fuel => nodesContainedInInterval_rec fuel r [] iv).

(** func (t *T) NodesOverlappingInterval(iv Interval) []*Node *)
Definition NodesOverlappingInterval (iv : Interval P) : M (list ptr) :=
  check_interval iv;;
  r ← get_root;
  if is_nil r then ret []
  else with_fuel (fun fuel => nodesOverlappingInterval_rec fuel r [] iv).

(** func (n *Node) Interval() Interval *)
Definition Node_Interval (n : ptr) : M (Interval P) := get interval n.

(** func (n *Node) Next() *Node: the ascending loop and the descending loop. *)
Fixpoint Next_ascend (fuel : nat) (candidate : ptr) : M ptr :=
  match fuel with
  | O => timeout
  | S fuel =>
      cp ← get parent candidate;
      if is_nil cp then ret None
      else
        l ← get left cp;
        if ptr_eqb l candidate then ret cp
        else Next_ascend fuel cp
  end.

Fixpoint Next_descend (fuel : nat) (candidate : ptr) : M ptr :=
  match fuel with
  | O => timeout
  | S fuel =>
      l ← get left candidate;
      if negb (is_nil l) then Next_descend fuel l else ret candidate
  end.

Definition Next (n : ptr) : M ptr :=
  r ← get right n;
  if is_nil r then with_fuel (fun fuel => Next_ascend fuel n)
  else with_fuel (fun fuel => Next_descend fuel r).

(** func (n *Node) Previous() *Node *)
Fixpoint Previous_ascend (fuel : nat) (candidate : ptr) : M ptr :=
  match fuel with
  | O => timeout
  | S fuel =>
      cp ← get parent candidate;
      if is_nil cp then ret None
      else
        r ← get right cp;
        if ptr_eqb r candidate then ret cp
        else Previous_ascend fuel cp
  end.

Fixpoint Previous_descend (fuel : nat) (candidate : ptr) : M ptr :=
  match fuel with
  | O => timeout
  | S fuel =>
      r ← get right candidate;
      if negb (is_nil r) then Previous_descend fuel r else ret candidate
  end.

Definition Previous (n : ptr) : M ptr :=
  l ← get left n;
  if is_nil l then with_fuel (fun fuel => Previous_ascend fuel n)
  else with_fuel (fun fuel => Previous_descend fuel l).

(** *** Deletion (tree.go) *)

(** func (t *T) rebalanceBlack(parent, n *Node) *)
Fixpoint rebalanceBlack_rec (fuel : nat) (parent_ n : ptr) : M unit :=
  match fuel with
  | O => timeout
  | S fuel =>
      if is_nil parent_ then ret tt
      else
        sib ← sibling n parent_;
        (* If sibling is red, paint parent red and make sibling our black
           grandparent through rotation. *)
        sr ← get red sib;
        when sr (
          set_red parent_ true;;
          set_red sib false;;
          l ← get left parent_;
          if ptr_eqb n l then rotateLeft parent_ else rotateRight parent_);;
        (* Case 1 *)
        sib ← sibling n parent_;
        lniecew ← get left sib;
        rniecew ← get right sib;
        c ← andM (andM (black sib) (black lniecew)) (black rniecew);
        if c then
          set_red sib true;;
          pr ← get red parent_;
          if pr then set_red parent_ false
          else
            pp ← get parent parent_;
            rebalanceBlack_rec fuel pp parent_
        else
          (* Case 2 *)
          c1 ← andM (l ← get left parent_; ret (ptr_eqb n l)) (black rniecew);
          (if c1 then
             set_red sib true;;
             set_red lniecew false;;
             rotateRight sib
           else
             c2 ← andM (r ← get right parent_; ret (ptr_eqb n r)) (black lniecew);
             when c2 (
               set_red sib true;;
               set_red rniecew false;;
               rotateLeft sib));;
          (* Case 3 *)
          sib ← sibling n parent_;
          lniecew ← get left sib;
          rniecew ← get right sib;
          pr ← get red parent_;
          set_red sib pr;;
          set_red parent_ false;;
          l ← get left parent_;
          if ptr_eqb n l then
            when (negb (is_nil rniecew)) (set_red rniecew false);;
            rotateLeft parent_
          else
            when (negb (is_nil lniecew)) (set_red lniecew false);;
            rotateRight parent_
  end.

Definition rebalanceBlack (parent_ n : ptr) : M unit :=
  with_fuel (fun fuel => rebalanceBlack_rec fuel parent_ n).

(** The loop
    [for dowhile := true; dowhile; dowhile = candidate.right != nil
       { candidate = candidate.right }] of DeleteNode. *)
Fixpoint DeleteNode_rightmost (fuel : nat) (candidate : ptr) : M ptr :=
  match fuel with
  | O => timeout
  | S fuel =>
      candidate ← get right candidate;
      r ← get right candidate;
      if negb (is_nil r) then DeleteNode_rightmost fuel candidate
      else ret candidate
  end.

(** The loop of DeleteNode that fixes maxRight in all ancestors of n. *)
Fixpoint DeleteNode_fix (fuel : nat) (current : ptr) : M unit :=
  match fuel with
  | O => timeout
  | S fuel =>
      if is_nil current then ret tt
      else
        iv ← get interval current;
        set_maxRight current (Right iv);;
        l ← get left current;
        raise_maxRight current l;;
        r ← get right current;
        raise_maxRight current r;;
        p ← get parent current;
        DeleteNode_fix fuel p
  end.

(** func (t *T) DeleteNode(n *Node) *)
Definition DeleteNode (n : ptr) : M unit :=
  two ← andM (l ← get left n; ret (negb (is_nil l)))
             (r ← get right n; ret (negb (is_nil r)));
  when two (
    parent_ ← get parent n;
    candidate ← get left n;
    cr ← get right candidate;
    candidate ← (if is_nil cr then
      (* OK, we can swap n with candidate *)
      replace_child parent_ n candidate;;
      nr ← get right n;
      set_parent nr candidate;;
      cl ← get left candidate;
      when (negb (is_nil cl)) (set_parent cl n);;
      (* candidate.left, n.left = n, candidate.left *)
      cl ← get left candidate;
      set_left candidate n;;
      set_left n cl;;
      (* candidate.right, n.right = n.right, nil *)
      nr ← get right n;
      set_right candidate nr;;
      set_right n None;;
      (* candidate.parent, n.parent = n.parent, candidate *)
      np ← get parent n;
      set_parent candidate np;;
      set_parent n candidate;;
      ret candidate
    else
      (* Search for rightmost descendant of candidate and swap with n *)
      candidate ← with_fuel (fun fuel => DeleteNode_rightmost fuel candidate);
      replace_child parent_ n candidate;;
      nl ← get left n;
      set_parent nl candidate;;
      nr ← get right n;
      set_parent nr candidate;;
      cp ← get parent candidate;
      set_right cp n;;
      cl ← get left candidate;
      when (negb (is_nil cl)) (set_parent cl n);;
      (* candidate.left, n.left = n.left, candidate.left *)
      nl ← get left n;
      cl ← get left candidate;
      set_left candidate nl;;
      set_left n cl;;
      (* candidate.right, n.right = n.right, candidate.right *)
      nr ← get right n;
      cr ← get right candidate;
      set_right candidate nr;;
      set_right n cr;;
      (* candidate.parent, n.parent = n.parent, candidate.parent *)
      np ← get parent n;
      cp ← get parent candidate;
      set_parent candidate np;;
      set_parent n cp;;
      ret candidate);
    (* n.red, candidate.red = candidate.red, n.red *)
    cred ← get red candidate;
    nred ← get red n;
    set_red n cred;;
    set_red candidate nred);;
  (* At this point, n has at most one child *)
  parent_ ← get parent n;
  child ← get left n;
  child ← (if is_nil child then get right n else ret child);
  when (negb (is_nil child)) (set_parent child parent_);;
  replace_child parent_ n child;;
  (* Fix maxRight in all ancestors of n *)
  with_fuel (fun fuel => DeleteNode_fix fuel parent_);;
  (* Finally, rebalance the tree if necessary *)
  nred ← get red n;
  when (negb nred) (
    cred ← andM (ret (negb (is_nil child))) (get red child);
    if cred then set_red child false
    else rebalanceBlack parent_ child);;
  len ← get_length;
  set_length (len - 1).

(** func (t *T) DeleteAndAscend(n *Node) *Node *)
Definition DeleteAndAscend (n : ptr) : M ptr :=
  res ← Next n; DeleteNode n;; ret res.

(** func (t *T) DeleteAndDescend(n *Node) *Node *)
Definition DeleteAndDescend (n : ptr) : M ptr :=
  res ← Previous n; DeleteNode n;; ret res.

(** func (t *T) Delete(interval Interval) (value interface{}, deleted bool) *)
Definition Delete (iv : Interval P) : M (option V * bool) :=
  n ← GetNode iv;
  if is_nil n then ret (None, false)
  else
    value ← get Value n;
    DeleteNode n;;
    ret (value, true).

(** The zero value of [T], on a store [h]. *)
Definition zero (h : gmap positive (Node P V)) : State P V := mkState h (mkT None 0).
End Embedding.

(** ** The tree a store holds

    The proofs read the pointer graph as a binary tree.  A [tree] lists, for
    every node, its address and the [Data] fields of the object; the pointer
    fields are determined by the shape.  A [ctx] is a tree with a hole: the
    path from a node up to the root, innermost frame first, which is what the
    [parent] pointers walk. *)

Section Representation.
Context `{Point P} {V : Type}.

Record Data := mkData { dV : option V; dI : Interval P; dM : P; dR : bool }.

Inductive tree :=
| E
| N (l : tree) (a : positive) (d : Data) (r : tree).

Inductive ctx :=
| Top
| CL (c : ctx) (a : positive) (d : Data) (r : tree)
| CR (l : tree) (a : positive) (d : Data) (c : ctx).

Definition ptr_of (t : tree) : ptr :=
  match t with E => None | N _ a _ _ => Some a end.

Definition ctx_par (c : ctx) : ptr :=
  match c with Top => None | CL _ a _ _ | CR _ a _ _ => Some a end.

(** The object at a node with data [d], parent [par] and children [l], [r]. *)
Definition cell (d : Data) (par l r : ptr) : Node P V :=
  mkNode (dV d) (dI d) (dM d) par l r (dR d).

Fixpoint plug (c : ctx) (t : tree) : tree :=
  match c with
  | Top => t
  | CL c a d r => plug c (N t a d r)
  | CR l a d c => plug c (N l a d t)
  end.

(** The addresses of a tree and of a context. *)
Fixpoint fp (t : tree) : gset positive :=
  match t with
  | E => ∅
  | N l a _ r => {[a]} ∪ fp l ∪ fp r
  end.

Fixpoint cfp (c : ctx) : gset positive :=
  match c with
  | Top => ∅
  | CL c a _ r => {[a]} ∪ fp r ∪ cfp c
  | CR l a _ c => {[a]} ∪ fp l ∪ cfp c
  end.

(** No address occurs twice. *)
Fixpoint wf (t : tree) : Prop :=
  match t with
  | E => True
  | N l a _ r => (a ∉ fp l) /\ (a ∉ fp r) /\ (fp l ## fp r) /\ wf l /\ wf r
  end.

Fixpoint wfc (c : ctx) : Prop :=
  match c with
  | Top => True
  | CL c a _ r => (a ∉ fp r) /\ (a ∉ cfp c) /\ (fp r ## cfp c) /\ wf r /\ wfc c
  | CR l a _ c => (a ∉ fp l) /\ (a ∉ cfp c) /\ (fp l ## cfp c) /\ wf l /\ wfc c
  end.

(** In-order traversal. *)
Fixpoint inorder (t : tree) : list (positive * Data) :=
  match t with
  | E => []
  | N l a d r => inorder l ++ (a, d) :: inorder r
  end.

Fixpoint rep (h : gmap positive (Node P V)) (par : ptr) (t : tree) : Prop :=
  match t with
  | E => True
  | N l a d r =>
      h !! a = Some (cell d par (ptr_of l) (ptr_of r)) /\
      rep h (Some a) l /\ rep h (Some a) r
  end.

Fixpoint repc (h : gmap positive (Node P V)) (c : ctx) (p : ptr) : Prop :=
  match c with
  | Top => True
  | CL c a d r =>
      h !! a = Some (cell d (ctx_par c) p (ptr_of r)) /\
      rep h (Some a) r /\ repc h c (Some a)
  | CR l a d c =>
      h !! a = Some (cell d (ctx_par c) (ptr_of l) p) /\
      rep h (Some a) l /\ repc h c (Some a)
  end.

(** The state [s] holds the tree [t]: the root pointer leads to it, every
    node is an object of the store with the right fields and links, and no
    object occurs twice. *)
Definition WF (s : State P V) (t : tree) : Prop :=
  rep (heap s) None t /\ wf t /\ root (hdr s) = ptr_of t.

Lemma ptr_of_plug_eq c t1 t2 :
  ptr_of t1 = ptr_of t2 -> ptr_of (plug c t1) = ptr_of (plug c t2).
Proof. revert t1 t2. induction c; intros; simpl; auto. Qed.

Lemma fp_plug c t : fp (plug c t) = fp t ∪ cfp c.
Proof.
  revert t. induction c as [|c IH a d r|l a d c IH]; intros t; simpl.
  - set_solver.
  - rewrite IH. simpl. set_solver.
  - rewrite IH. simpl. set_solver.
Qed.

Lemma wf_plug c t : wf (plug c t) <-> wf t /\ wfc c /\ fp t ## cfp c.
Proof.
  revert t. induction c as [|c IH a d r|l a d c IH]; intros t; simpl.
  - set_solver.
  - rewrite IH. simpl. set_solver.
  - rewrite IH. simpl. set_solver.
Qed.

Lemma rep_plug h c t :
  rep h None (plug c t) <-> repc h c (ptr_of t) /\ rep h (ctx_par c) t.
Proof.
  revert t. induction c as [|c IH a d r|l a d c IH]; intros t; simpl.
  - tauto.
  - rewrite IH. simpl. tauto.
  - rewrite IH. simpl. tauto.
Qed.

Lemma rep_frame h h' par t :
  (forall a, a ∈ fp t -> h' !! a = h !! a) -> rep h par t -> rep h' par t.
Proof.
  revert par. induction t as [|l IHl a d r IHr]; intros par Hfr; simpl; [done|].
  intros (Ha & Hl & Hr). split_and!.
  - rewrite Hfr; [done | simpl; set_solver].
  - apply IHl; [|done]. intros b Hb. apply Hfr. simpl. set_solver.
  - apply IHr; [|done]. intros b Hb. apply Hfr. simpl. set_solver.
Qed.

Lemma repc_frame h h' c p :
  (forall a, a ∈ cfp c -> h' !! a = h !! a) -> repc h c p -> repc h' c p.
Proof.
  revert p. induction c as [|c IH a d r|l a d c IH]; intros p Hfr; simpl; [done| |].
  - intros (Ha & Hr & Hc). split_and!.
    + rewrite Hfr; [done | simpl; set_solver].
    + eapply rep_frame; [|done]. intros b Hb. apply Hfr. simpl. set_solver.
    + apply IH; [|done]. intros b Hb. apply Hfr. simpl. set_solver.
  - intros (Ha & Hr & Hc). split_and!.
    + rewrite Hfr; [done | simpl; set_solver].
    + eapply rep_frame; [|done]. intros b Hb. apply Hfr. simpl. set_solver.
    + apply IH; [|done]. intros b Hb. apply Hfr. simpl. set_solver.
Qed.

Lemma rep_dom h par t : rep h par t -> fp t ⊆ dom h.
Proof.
  revert par. induction t as [|l IHl b d r IHr]; intros par; simpl.
  - set_solver.
  - intros (Hb & Hl & Hr). apply elem_of_dom_2 in Hb.
    specialize (IHl _ Hl). specialize (IHr _ Hr). set_solver.
Qed.

Lemma repc_dom h c p : repc h c p -> cfp c ⊆ dom h.
Proof.
  revert p. induction c as [|c IH a d r|l a d c IH]; intros p; simpl.
  - set_solver.
  - intros (Hb & Hr & Hc). apply elem_of_dom_2 in Hb.
    apply rep_dom in Hr. specialize (IH _ Hc). set_solver.
  - intros (Hb & Hr & Hc). apply elem_of_dom_2 in Hb.
    apply rep_dom in Hr. specialize (IH _ Hc). set_solver.
Qed.

(** Number of nodes, height, and depth of a hole. *)
Fixpoint nodes (t : tree) : nat :=
  match t with E => 0 | N l _ _ r => S (nodes l + nodes r) end.

Fixpoint height (t : tree) : nat :=
  match t with E => 0 | N l _ _ r => S (Nat.max (height l) (height r)) end.

Fixpoint depth (c : ctx) : nat :=
  match c with Top => 0 | CL c _ _ _ | CR _ _ _ c => S (depth c) end.

Lemma height_nodes t : (height t <= nodes t)%nat.
Proof. induction t; simpl; lia. Qed.

Lemma nodes_fp t : wf t -> size (fp t) = nodes t.
Proof.
  induction t as [|l IHl a d r IHr]; simpl; [done|].
  intros (Hal & Har & Hlr & Hl & Hr).
  rewrite !size_union by set_solver. rewrite size_singleton, IHl, IHr by done. lia.
Qed.

Lemma nodes_plug c t : (depth c + nodes t <= nodes (plug c t))%nat.
Proof.
  revert t. induction c as [|c IH a d r|l a d c IH]; intros t; simpl; [lia| |].
  - specialize (IH (N t a d r)). simpl in IH. lia.
  - specialize (IH (N l a d t)). simpl in IH. lia.
Qed.

(** A well-formed tree has no more nodes than the store has objects. *)
Lemma WF_size s t : WF s t -> (nodes t <= size (heap s))%nat.
Proof.
  intros (Hrep & Hwf & _).
  rewrite <- size_dom, <- nodes_fp by done.
  apply subseteq_size. eapply rep_dom; eauto.
Qed.

(** *** What the operations do to the tree *)

Definition with_dV (v : option V) (d : Data) : Data := mkData v (dI d) (dM d) (dR d).
Definition with_dM (m : P) (d : Data) : Data := mkData (dV d) (dI d) m (dR d).
Definition with_dR (b : bool) (d : Data) : Data := mkData (dV d) (dI d) (dM d) b.
Arguments with_dV _ !_ /.
Arguments with_dM _ !_ /.
Arguments with_dR _ !_ /.

(** The maxRight of the root, if there is one. *)
Definition mr_of (t : tree) : option P :=
  match t with E => None | N _ _ d _ => Some (dM d) end.

(** [m], raised to a child's maxRight if that is larger. *)
Definition bump (m : P) (o : option P) : P :=
  match o with
  | Some x => if Less m x then x else m
  | None => m
  end.

(** The maxRight a node recomputes from its interval and its children. *)
Definition recompute (d : Data) (l r : tree) : Data :=
  with_dM (bump (bump (Right (dI d)) (mr_of l)) (mr_of r)) d.

Definition rotL (t : tree) : tree :=
  match t with
  | N x m dm (N y n dn z) =>
      let dm' := recompute dm x y in
      N (N x m dm' y) n (with_dM (bump (dM dn) (Some (dM dm'))) dn) z
  | _ => t
  end.

Definition rotR (t : tree) : tree :=
  match t with
  | N (N x m dm y) n dn z =>
      let dn' := recompute dn y z in
      N x m (with_dM (bump (dM dm) (Some (dM dn'))) dm) (N y n dn' z)
  | _ => t
  end.
End Representation.


Arguments with_Value {P V} _ !_ /.
Arguments with_maxRight {P V} _ !_ /.
Arguments with_parent {P V} _ !_ /.
Arguments with_left {P V} _ !_ /.
Arguments with_right {P V} _ !_ /.
Arguments with_red {P V} _ !_ /.
Arguments with_dV {P V} _ !_ /.
Arguments with_dM {P V} _ !_ /.
Arguments with_dR {P V} _ !_ /.
Arguments bind : simpl never.
Arguments ret : simpl never.
Arguments get : simpl never.
Arguments store : simpl never.
Arguments set_root : simpl never.
Arguments set_length : simpl never.
Arguments get_root : simpl never.
Arguments get_length : simpl never.
Arguments new : simpl never.

(** ** Running the monad on a store

    Tactics that execute a method one statement at a time: [hstep] on a store
    written out as a stack of updates, with the distinctness of the
    addresses read off the footprint hypotheses. *)

Ltac set_norm :=
  repeat match goal with
  | H : _ /\ _ |- _ => destruct H
  | H : _ ∉ _ ∪ _ |- _ => apply not_elem_of_union in H
  | H : _ ∉ {[ _ ]} |- _ => apply not_elem_of_singleton in H
  | H : _ ∉ ∅ |- _ => clear H
  | H : _ ∪ _ ## _ |- _ => apply disjoint_union_l in H
  | H : _ ## _ ∪ _ |- _ => apply disjoint_union_r in H
  | H : {[ _ ]} ## _ |- _ => apply disjoint_singleton_l in H
  | H : _ ## {[ _ ]} |- _ => apply disjoint_singleton_r in H
  | H : ∅ ## _ |- _ => clear H
  | H : _ ## ∅ |- _ => clear H
  | H : True |- _ => clear H
  end.

Ltac set_atom :=
  first [ assumption
        | apply not_eq_sym; assumption
        | symmetry; assumption
        | apply not_elem_of_empty
        | apply disjoint_empty_l
        | apply disjoint_empty_r
        | exact I ].

Ltac set_goal :=
  repeat first
    [ set_atom
    | split
    | apply not_elem_of_union
    | apply not_elem_of_singleton
    | apply disjoint_union_l
    | apply disjoint_union_r
    | apply disjoint_singleton_l
    | apply disjoint_singleton_r ].

Ltac neq_solve := first [assumption | apply not_eq_sym; assumption | congruence].

Ltac hlookup :=
  simpl heap;
  repeat first
    [ rewrite lookup_insert_eq; reflexivity
    | rewrite lookup_insert_ne by neq_solve ];
  first [eassumption | reflexivity].

Ltac frame_neq := first [neq_solve | intros ->; contradiction].

Ltac frame_lookup :=
  let b := fresh "b" in let Hb := fresh "Hb" in
  intros b Hb; simpl heap; rewrite ?lookup_insert_ne by frame_neq; reflexivity.

Ltac solve_rep :=
  repeat match goal with
  | |- _ /\ _ => split
  | |- True => exact I
  | |- rep _ _ (N _ _ _ _) => simpl
  | |- rep _ _ E => exact I
  | |- repc _ Top _ => exact I
  | |- repc _ (CL _ _ _ _) _ => simpl
  | |- repc _ (CR _ _ _ _) _ => simpl
  | |- rep _ _ _ => eapply rep_frame; [frame_lookup | eassumption]
  | |- repc _ _ _ => eapply repc_frame; [frame_lookup | eassumption]
  | |- _ !! _ = Some _ => unfold cell; simpl; hlookup
  end.

Section Stepping.
Context `{Point P} {V : Type}.
Implicit Types (s : State P V) (h : gmap positive (Node P V)).
Implicit Types (t l r : tree (P:=P) (V:=V)) (c : ctx (P:=P) (V:=V)).

Lemma bind_ret {A B} (x : A) (k : A -> M (P:=P) (V:=V) B) s : bind (ret x) k s = k x s.
Proof. reflexivity. Qed.

Lemma bind_ret_r {A} (m : M (P:=P) (V:=V) A) s : m s = bind m ret s.
Proof. unfold bind, ret. destruct (m s) as [[x s']| |]; reflexivity. Qed.

Lemma bind_bind {A B C} (m : M (P:=P) (V:=V) A) (k : A -> M B) (k' : B -> M C) s :
  bind (bind m k) k' s = bind m (fun x => bind (k x) k') s.
Proof. unfold bind. destruct (m s) as [[x s']| |]; reflexivity. Qed.

Lemma bind_Ok {A B} (m : M (P:=P) (V:=V) A) (k : A -> M B) s x s' :
  m s = Ok (x, s') -> bind m k s = k x s'.
Proof. intros E. unfold bind. rewrite E. reflexivity. Qed.

Lemma bind_Panic {A B} (m : M (P:=P) (V:=V) A) (k : A -> M B) s w :
  m s = Panic w -> bind m k s = Panic w.
Proof. intros E. unfold bind. rewrite E. reflexivity. Qed.

Lemma bind_get {A X} (f : Node P V -> X) (k : X -> M A) a nd s :
  heap s !! a = Some nd -> bind (get f (Some a)) k s = k (f nd) s.
Proof. intros E. unfold get, bind, load, ret. rewrite E. reflexivity. Qed.

Lemma bind_store {A} g (k : unit -> M A) a nd s :
  heap s !! a = Some nd ->
  bind (store g (Some a)) k s = k tt (mkState (<[a := g nd]> (heap s)) (hdr s)).
Proof. intros E. unfold store, bind. rewrite E. reflexivity. Qed.

Lemma state_insert_id s a nd :
  heap s !! a = Some nd -> mkState (<[a := nd]> (heap s)) (hdr s) = s.
Proof. intros E. rewrite insert_id by done. by destruct s. Qed.

Lemma with_maxRight_id (nd : Node P V) : with_maxRight (maxRight nd) nd = nd.
Proof. by destruct nd. Qed.

Lemma bind_when_raise {A} (k : unit -> M A) a nd x b s :
  heap s !! a = Some nd -> maxRight nd = x ->
  bind (when (Less x b) (set_maxRight (Some a) b)) k s =
  k tt (mkState (<[a := with_maxRight (bump x (Some b)) nd]> (heap s)) (hdr s)).
Proof.
  intros E <-. simpl. destruct (Less (maxRight nd) b); simpl.
  - unfold set_maxRight. by erewrite bind_store.
  - rewrite with_maxRight_id, state_insert_id by done. reflexivity.
Qed.

Lemma bind_raise_maxRight {A} (k : unit -> M A) p q np nq s :
  heap s !! p = Some np -> heap s !! q = Some nq ->
  bind (raise_maxRight (Some p) (Some q)) k s =
  k tt (mkState (<[p := with_maxRight (bump (maxRight np) (Some (maxRight nq))) np]> (heap s))
          (hdr s)).
Proof.
  intros Ep Eq. unfold raise_maxRight, andM. simpl.
  rewrite !bind_bind. rewrite bind_ret. simpl.
  rewrite !bind_bind. erewrite bind_get by done.
  rewrite !bind_bind. erewrite bind_get by done.
  rewrite bind_ret. destruct (Less (maxRight np) (maxRight nq)); simpl.
  - rewrite bind_bind. erewrite bind_get by done. unfold set_maxRight.
    by erewrite bind_store.
  - rewrite bind_ret. rewrite with_maxRight_id, state_insert_id by done. reflexivity.
Qed.

Lemma bind_raise_maxRight_nil {A} (k : unit -> M A) p s :
  bind (raise_maxRight p None) k s = k tt s.
Proof. reflexivity. Qed.

Lemma ptr_eqb_refl (p : ptr) : ptr_eqb p p = true.
Proof. unfold ptr_eqb. by rewrite bool_decide_eq_true. Qed.

Lemma ptr_eqb_ne (p q : ptr) : p ≠ q -> ptr_eqb p q = false.
Proof. unfold ptr_eqb. by rewrite bool_decide_eq_false. Qed.

Lemma ptr_of_ne t a : a ∉ fp t -> ptr_of t ≠ Some a.
Proof. destruct t; simpl; [done|]. intros Hn [= ->]. set_solver. Qed.

Lemma ptr_of_ne' t a : a ∉ fp t -> Some a ≠ ptr_of t.
Proof. intros Hn E. by apply (ptr_of_ne t a). Qed.

Lemma WF_intro h hd c t :
  repc h c (ptr_of t) -> rep h (ctx_par c) t ->
  wf t /\ wfc c /\ fp t ## cfp c ->
  root hd = ptr_of (plug c t) ->
  WF (mkState h hd) (plug c t).
Proof.
  intros Hc Ht Hwf Hr. split_and!; [by apply rep_plug | by apply wf_plug | done].
Qed.

Lemma WF_lookup s c l a d r :
  WF s (plug c (N l a d r)) ->
  heap s !! a = Some (cell d (ctx_par c) (ptr_of l) (ptr_of r)).
Proof. intros (Hrep & _ & _). apply rep_plug in Hrep as [_ Ht]. apply Ht. Qed.

(** Overwriting the data fields of one node. *)
Lemma WF_store_data s c l a d d' r :
  WF s (plug c (N l a d r)) ->
  WF (mkState (<[a := cell d' (ctx_par c) (ptr_of l) (ptr_of r)]> (heap s)) (hdr s))
     (plug c (N l a d' r)).
Proof.
  destruct s as [h hd]. intros (Hrep & Hwf & Hroot).
  apply rep_plug in Hrep as [Hc Ht]. apply wf_plug in Hwf.
  simpl in Hc, Ht, Hwf, Hroot. set_norm.
  apply WF_intro; simpl.
  - solve_rep.
  - solve_rep.
  - set_goal.
  - rewrite Hroot. apply ptr_of_plug_eq. reflexivity.
Qed.
End Stepping.

Ltac hstep :=
  lazymatch goal with
  | |- bind (get _ (Some _)) _ _ = _ => erewrite bind_get by hlookup; simpl
  | |- bind (store _ (Some _)) _ _ = _ => erewrite bind_store by hlookup; simpl
  | |- bind (set_parent (Some _) _) _ _ = _ => unfold set_parent at 1
  | |- bind (set_left (Some _) _) _ _ = _ => unfold set_left at 1
  | |- bind (set_right (Some _) _) _ _ = _ => unfold set_right at 1
  | |- bind (set_red (Some _) _) _ _ = _ => unfold set_red at 1
  | |- bind (set_maxRight (Some _) _) _ _ = _ => unfold set_maxRight at 1
  | |- bind (set_Value (Some _) _) _ _ = _ => unfold set_Value at 1
  | |- bind (when (Less _ _) (set_maxRight (Some _) _)) _ _ = _ =>
      erewrite bind_when_raise; [ | hlookup | reflexivity ]; simpl
  | |- bind (when true _) _ _ = _ => unfold when at 1
  | |- bind (when false _) _ _ = _ => unfold when at 1; rewrite bind_ret
  | |- bind (ret _) _ _ = _ => rewrite bind_ret
  | |- bind (bind _ _) _ _ = _ => rewrite bind_bind
  | |- bind (set_root _) _ _ = _ => unfold set_root at 1, bind at 1; simpl
  | |- bind (raise_maxRight _ None) _ _ = _ => rewrite bind_raise_maxRight_nil
  | |- bind (raise_maxRight (Some _) (Some _)) _ _ = _ =>
      erewrite bind_raise_maxRight; [ | hlookup | hlookup ]; simpl
  | |- bind (replace_child _ _ _) _ _ = _ => unfold replace_child at 1; simpl
  | |- bind (if ptr_eqb ?p ?p then _ else _) _ _ = _ => rewrite (ptr_eqb_refl p)
  | |- bind (if ptr_eqb ?p ?q then _ else _) _ _ = _ =>
      rewrite (ptr_eqb_ne p q)
        by (first [apply ptr_of_ne; assumption | apply ptr_of_ne'; assumption | neq_solve])
  end.

Ltac hrun := rewrite bind_ret_r; repeat hstep; reflexivity.

(** ** Rotations *)

Section Rotations.
Context `{Point P} {V : Type}.
Implicit Types (s : State P V) (h : gmap positive (Node P V)).
Implicit Types (t l r x y z : tree (P:=P) (V:=V)) (c : ctx (P:=P) (V:=V)).

Lemma rotateLeft_WF s c x m dm y n dn z :
  WF s (plug c (N x m dm (N y n dn z))) ->
  exists s', rotateLeft (Some m) s = Ok (tt, s') /\
    WF s' (plug c (rotL (N x m dm (N y n dn z)))) /\
    length (hdr s') = length (hdr s).
Proof.
  destruct s as [h [rt len]]. intros (Hrep & Hwf & Hroot).
  apply rep_plug in Hrep as [Hc Ht]. apply wf_plug in Hwf.
  destruct x as [|xl xa xd xr], y as [|yl ya yd yr], c as [|c pa pd pr|pl pa pd c];
    simpl in Hc, Ht, Hwf, Hroot; unfold cell in *; set_norm.
  all: eexists; split; [unfold rotateLeft; hrun |].
  all: split; [|reflexivity].
  all: apply WF_intro; simpl;
    [solve_rep | solve_rep | set_goal
    | first [reflexivity | rewrite Hroot; apply ptr_of_plug_eq; reflexivity]].
Qed.

Lemma rotateRight_WF s c x m dm y n dn z :
  WF s (plug c (N (N x m dm y) n dn z)) ->
  exists s', rotateRight (Some n) s = Ok (tt, s') /\
    WF s' (plug c (rotR (N (N x m dm y) n dn z))) /\
    length (hdr s') = length (hdr s).
Proof.
  destruct s as [h [rt len]]. intros (Hrep & Hwf & Hroot).
  apply rep_plug in Hrep as [Hc Ht]. apply wf_plug in Hwf.
  destruct z as [|zl za zd zr], y as [|yl ya yd yr], c as [|c pa pd pr|pl pa pd c];
    simpl in Hc, Ht, Hwf, Hroot; unfold cell in *; set_norm.
  all: eexists; split; [unfold rotateRight; hrun |].
  all: split; [|reflexivity].
  all: apply WF_intro; simpl;
    [solve_rep | solve_rep | set_goal
    | first [reflexivity | rewrite Hroot; apply ptr_of_plug_eq; reflexivity]].
Qed.
End Rotations.

(** ** The scenarios of the test suite, run on the embedding *)

Module Scenarios.
Definition iv (a b : Z) : Interval Int := mkInterval a b.
Definition st0 : State Int Z := zero ∅.
Definition run {A} (m : M (P:=Int) (V:=Z) A) (s : State Int Z) : option (A * State Int Z) :=
  match m s with Ok r => Some r | _ => None end.
Definition after {A} (m : M (P:=Int) (V:=Z) A) (s : State Int Z) : State Int Z :=
  match m s with Ok (_, s') => s' | _ => s end.

(** The tree holding [5,6) at the root and [0,100) as its left child. *)
Definition st_overlap : State Int Z :=
  after (ReplaceOrInsert (iv 0 100) (Some 1)) (after (ReplaceOrInsert (iv 5 6) (Some 0)) st0).
End Scenarios.

(** ** Emptiness checks and the empty tree *)

Section Boundary.
Context `{Point P} {V : Type}.
Implicit Types (s : State P V) (iv : Interval P).

Lemma check_interval_empty {A} iv (k : unit -> M (P:=P) (V:=V) A) s :
  Interval_empty iv = true -> bind (check_interval iv) k s = Panic "empty interval".
Proof. intros E. unfold check_interval. rewrite E. reflexivity. Qed.

Lemma check_interval_ok {A} iv (k : unit -> M (P:=P) (V:=V) A) s :
  Interval_empty iv = false -> bind (check_interval iv) k s = k tt s.
Proof. intros E. unfold check_interval. rewrite E. reflexivity. Qed.

(** C5: every operation that takes an interval panics with
    "empty interval" when the interval is empty, whatever the state. *)
Theorem empty_interval_panics s iv (v : option V) :
  Interval_empty iv = true ->
  ReplaceOrInsert iv v s = Panic "empty interval" /\
  Get iv s = Panic "empty interval" /\
  GetNode iv s = Panic "empty interval" /\
  GetLess iv s = Panic "empty interval" /\
  GetLessEqual iv s = Panic "empty interval" /\
  GetGreater iv s = Panic "empty interval" /\
  GetGreaterEqual iv s = Panic "empty interval" /\
  Delete iv s = Panic "empty interval" /\
  NodesContainingInterval iv s = Panic "empty interval" /\
  NodesContainedInInterval iv s = Panic "empty interval" /\
  NodesOverlappingInterval iv s = Panic "empty interval".
Proof.
  intros E.
  assert (GetNode iv s = Panic "empty interval") as HG
    by (unfold GetNode; by apply check_interval_empty).
  split_and!; try (by apply check_interval_empty); try done.
  - unfold Get. by apply bind_Panic.
  - unfold Delete. by apply bind_Panic.
Qed.

(** C9, as the code has it: on the empty tree every operation returns its
    absent result and leaves the state alone, for the interval arguments
    that pass the emptiness check. *)
Theorem empty_tree_absent s iv (p : P) :
  root (hdr s) = None -> length (hdr s) = 0 ->
  Interval_empty iv = false ->
  Get iv s = Ok ((None, false), s) /\
  Delete iv s = Ok ((None, false), s) /\
  GetNode iv s = Ok (None, s) /\
  GetMin s = Ok (None, s) /\
  GetMax s = Ok (None, s) /\
  GetLess iv s = Ok (None, s) /\
  GetLessEqual iv s = Ok (None, s) /\
  GetGreater iv s = Ok (None, s) /\
  GetGreaterEqual iv s = Ok (None, s) /\
  NodesContainingPoint p s = Ok ([], s) /\
  NodesContainingInterval iv s = Ok ([], s) /\
  NodesContainedInInterval iv s = Ok ([], s) /\
  NodesOverlappingInterval iv s = Ok ([], s) /\
  Len s = Ok (0, s).
Proof.
  destruct s as [h [rt len]]. simpl. intros -> -> E.
  assert (GetNode iv (mkState h (mkT None 0)) = Ok (None, mkState h (mkT None 0))) as HG.
  { unfold GetNode. rewrite check_interval_ok by done. reflexivity. }
  split_and!; try done.
  - unfold Get. erewrite bind_Ok by exact HG. reflexivity.
  - unfold Delete. erewrite bind_Ok by exact HG. reflexivity.
  - unfold GetLess. rewrite check_interval_ok by done. reflexivity.
  - unfold GetLessEqual. rewrite check_interval_ok by done. reflexivity.
  - unfold GetGreater. rewrite check_interval_ok by done. reflexivity.
  - unfold GetGreaterEqual. rewrite check_interval_ok by done. reflexivity.
  - unfold NodesContainingInterval. rewrite check_interval_ok by done. reflexivity.
  - unfold NodesContainedInInterval. rewrite check_interval_ok by done. reflexivity.
  - unfold NodesOverlappingInterval. rewrite check_interval_ok by done. reflexivity.
Qed.
End Boundary.

Lemma empty_interval_panics_witness :
  Interval_empty (Scenarios.iv 0 0) = true /\
  Get (Scenarios.iv 0 0) Scenarios.st0 = Panic "empty interval".
Proof.
  split; [reflexivity|].
  apply (empty_interval_panics Scenarios.st0 (Scenarios.iv 0 0) None). reflexivity.
Defined.

Lemma empty_tree_absent_witness :
  GetNode (Scenarios.iv 0 1) Scenarios.st0 = Ok (None, Scenarios.st0).
Proof.
  apply (empty_tree_absent Scenarios.st0 (Scenarios.iv 0 1) 0); reflexivity.
Defined.

(** C9 as stated fails: on the empty tree, [Get] of an empty interval aborts. *)
Lemma empty_tree_Get_aborts :
  Get (Scenarios.iv 0 0) Scenarios.st0 = Panic "empty interval".
Proof. reflexivity. Qed.

(** C2 fails for NodesOverlappingInterval: in the tree with [5,6) at the root
    and [0,100) as its left child, the query [50,60) returns no node, although
    [0,100) overlaps [50,60). *)
Lemma overlapping_misses_left_subtree :
  Scenarios.run (NodesOverlappingInterval (Scenarios.iv 50 60)) Scenarios.st_overlap
    = Some ([], Scenarios.st_overlap) /\
  Scenarios.run (GetNode (Scenarios.iv 0 100)) Scenarios.st_overlap
    = Some (Some 2%positive, Scenarios.st_overlap) /\
  Overlaps (Scenarios.iv 0 100) (Scenarios.iv 50 60) = true.
Proof. vm_compute. done. Qed.

(** ** The structural invariants *)

Section Invariants.
Context `{Point P} {V : Type}.
Implicit Types (s : State P V) (iv : Interval P).
Implicit Types (t l r : tree (P:=P) (V:=V)) (c : ctx (P:=P) (V:=V)).
Implicit Types (x y : positive * Data (P:=P) (V:=V)).

(** Order of two nodes by their keys. *)
Definition klt x y : Prop := Interval_Less (dI x.2) (dI y.2) = true.

(** (I1) the in-order traversal is strictly increasing. *)
Definition bst t : Prop := StronglySorted klt (inorder t).

(** (I3) every maxRight is what the node would recompute from its interval
    and its children, up to equivalence of points. *)
Fixpoint mrt t : Prop :=
  match t with
  | E => True
  | N l _ d r => equal (dM d) (dM (recompute d l r)) = true /\ mrt l /\ mrt r
  end.

(** (I2) colouring: the black height along the leftmost path, equal heights
    of siblings, and no red node with a red child. *)
Definition is_black t : bool :=
  match t with E => true | N _ _ d _ => negb (dR d) end.

Fixpoint bh t : nat :=
  match t with
  | E => 0
  | N l _ d _ => if dR d then bh l else S (bh l)
  end.

Fixpoint rbt t : Prop :=
  match t with
  | E => True
  | N l _ d r =>
      bh l = bh r /\ (dR d = true -> is_black l = true /\ is_black r = true) /\
      rbt l /\ rbt r
  end.

(** Stored intervals are not empty. *)
Definition nek t : Prop :=
  forall x, x ∈ inorder t -> Interval_empty (dI x.2) = false.

(** The state [s] holds the tree [t], and all invariants hold. *)
Definition Inv s t : Prop :=
  WF s t /\ bst t /\ rbt t /\ is_black t = true /\ mrt t /\ nek t /\
  length (hdr s) = Z.of_nat (nodes t).

Global Instance klt_trans : Transitive klt.
Proof. intros x y z Hxy Hyz. unfold klt in *. order. Qed.

Lemma bst_N l a d r :
  bst (N l a d r) <->
  bst l /\ bst r /\
  (forall x, x ∈ inorder l -> klt x (a, d)) /\
  (forall y, y ∈ inorder r -> klt (a, d) y).
Proof.
  unfold bst. simpl. rewrite StronglySorted_app, StronglySorted_cons, Forall_forall.
  split.
  - intros (H1 & H2 & H3 & H4). split_and!; try done.
    intros x Hx. apply H1; [done | set_solver].
  - intros (H1 & H2 & H3 & H4). split_and!; try done.
    intros x1 x2 Hx1 Hx2. apply elem_of_cons in Hx2 as [->|Hx2]; [by apply H3|].
    etransitivity; [by apply H3 | by apply H4].
Qed.

Lemma inorder_fp t x : x ∈ inorder t -> x.1 ∈ fp t.
Proof.
  induction t as [|l IHl a d r IHr]; simpl; [by intros ?%elem_of_nil|].
  rewrite elem_of_app, elem_of_cons. intros [?|[->|?]]; set_solver.
Qed.

(** An address occurs once in a well-formed tree. *)
Lemma inorder_functional t a d d' :
  wf t -> (a, d) ∈ inorder t -> (a, d') ∈ inorder t -> d = d'.
Proof.
  induction t as [|l IHl b e r IHr]; simpl; [by intros _ ?%elem_of_nil|].
  intros (Hl & Hr & Hlr & Hwl & Hwr).
  rewrite !elem_of_app, !elem_of_cons.
  intros [H1|[H1|H1]] [H2|[H2|H2]]; try (by eauto); try congruence;
    repeat match goal with
    | H : (_, _) = (_, _) |- _ => injection H as -> ->
    | H : _ ∈ inorder _ |- _ => apply inorder_fp in H; simpl in H
    end; set_solver.
Qed.
End Invariants.

(** ** Lookup and the neighbour queries *)

Section Lookup.
Context `{Point P} {V : Type}.
Implicit Types (s : State P V) (iv : Interval P).
Implicit Types (t l r : tree (P:=P) (V:=V)) (c : ctx (P:=P) (V:=V)).

(** What the loops compute, read on the tree. *)
Fixpoint find iv t : ptr :=
  match t with
  | E => None
  | N l a d r =>
      if Interval_Less iv (dI d) then find iv l
      else if Interval_Less (dI d) iv then find iv r
      else Some a
  end.

Fixpoint less_t iv (cand : ptr) t : ptr :=
  match t with
  | E => cand
  | N l a d r =>
      if Interval_Less (dI d) iv then less_t iv (Some a) r else less_t iv cand l
  end.

Fixpoint lessEqual_t iv (cand : ptr) t : ptr :=
  match t with
  | E => cand
  | N l a d r =>
      if Interval_Less iv (dI d) then lessEqual_t iv cand l else lessEqual_t iv (Some a) r
  end.

Fixpoint greater_t iv (cand : ptr) t : ptr :=
  match t with
  | E => cand
  | N l a d r =>
      if Interval_Less iv (dI d) then greater_t iv (Some a) l else greater_t iv cand r
  end.

Fixpoint greaterEqual_t iv (cand : ptr) t : ptr :=
  match t with
  | E => cand
  | N l a d r =>
      if Interval_Less (dI d) iv then greaterEqual_t iv cand r
      else greaterEqual_t iv (Some a) l
  end.

Fixpoint leftmost (cand : ptr) t : ptr :=
  match t with E => cand | N l a _ _ => leftmost (Some a) l end.

Fixpoint rightmost (cand : ptr) t : ptr :=
  match t with E => cand | N _ a _ r => rightmost (Some a) r end.

Lemma WF_fuel s c t :
  WF s (plug c t) -> (height t < fuel_of s)%nat /\ (depth c < fuel_of s)%nat.
Proof.
  intros HW. apply WF_size in HW. pose proof (nodes_plug c t).
  pose proof (height_nodes t). unfold fuel_of. lia.
Qed.

Ltac descend HW IH c a d r :=
  erewrite bind_get by (eapply WF_lookup; exact HW); simpl;
  eapply IH; [exact HW | simpl in *; lia].

Lemma GetNode_loop_WF s iv t : forall c fuel,
  WF s (plug c t) -> (height t < fuel)%nat ->
  GetNode_loop fuel iv (ptr_of t) s = Ok (find iv t, s).
Proof.
  induction t as [|l IHl a d r IHr]; intros c fuel HW Hf;
    (destruct fuel as [|fuel]; [simpl in Hf; lia|]); simpl; [reflexivity|].
  erewrite bind_get by (eapply WF_lookup; exact HW). simpl.
  destruct (Interval_Less iv (dI d)).
  { erewrite bind_get by (eapply WF_lookup; exact HW); simpl.
    eapply (IHl (CL c a d r)); [exact HW | simpl in *; lia]. }
  destruct (Interval_Less (dI d) iv); [|reflexivity].
  erewrite bind_get by (eapply WF_lookup; exact HW); simpl.
  eapply (IHr (CR l a d c)); [exact HW | simpl in *; lia].
Qed.

Lemma GetLess_loop_WF s iv t : forall c cand fuel,
  WF s (plug c t) -> (height t < fuel)%nat ->
  GetLess_loop fuel iv cand (ptr_of t) s = Ok (less_t iv cand t, s).
Proof.
  induction t as [|l IHl a d r IHr]; intros c cand fuel HW Hf;
    (destruct fuel as [|fuel]; [simpl in Hf; lia|]); simpl; [reflexivity|].
  erewrite bind_get by (eapply WF_lookup; exact HW). simpl.
  destruct (Interval_Less (dI d) iv).
  - erewrite bind_get by (eapply WF_lookup; exact HW); simpl.
    eapply (IHr (CR l a d c)); [exact HW | simpl in *; lia].
  - erewrite bind_get by (eapply WF_lookup; exact HW); simpl.
    eapply (IHl (CL c a d r)); [exact HW | simpl in *; lia].
Qed.

Lemma GetLessEqual_loop_WF s iv t : forall c cand fuel,
  WF s (plug c t) -> (height t < fuel)%nat ->
  GetLessEqual_loop fuel iv cand (ptr_of t) s = Ok (lessEqual_t iv cand t, s).
Proof.
  induction t as [|l IHl a d r IHr]; intros c cand fuel HW Hf;
    (destruct fuel as [|fuel]; [simpl in Hf; lia|]); simpl; [reflexivity|].
  erewrite bind_get by (eapply WF_lookup; exact HW). simpl.
  destruct (Interval_Less iv (dI d)).
  - erewrite bind_get by (eapply WF_lookup; exact HW); simpl.
    eapply (IHl (CL c a d r)); [exact HW | simpl in *; lia].
  - erewrite bind_get by (eapply WF_lookup; exact HW); simpl.
    eapply (IHr (CR l a d c)); [exact HW | simpl in *; lia].
Qed.

Lemma GetGreater_loop_WF s iv t : forall c cand fuel,
  WF s (plug c t) -> (height t < fuel)%nat ->
  GetGreater_loop fuel iv cand (ptr_of t) s = Ok (greater_t iv cand t, s).
Proof.
  induction t as [|l IHl a d r IHr]; intros c cand fuel HW Hf;
    (destruct fuel as [|fuel]; [simpl in Hf; lia|]); simpl; [reflexivity|].
  erewrite bind_get by (eapply WF_lookup; exact HW). simpl.
  destruct (Interval_Less iv (dI d)).
  - erewrite bind_get by (eapply WF_lookup; exact HW); simpl.
    eapply (IHl (CL c a d r)); [exact HW | simpl in *; lia].
  - erewrite bind_get by (eapply WF_lookup; exact HW); simpl.
    eapply (IHr (CR l a d c)); [exact HW | simpl in *; lia].
Qed.

Lemma GetGreaterEqual_loop_WF s iv t : forall c cand fuel,
  WF s (plug c t) -> (height t < fuel)%nat ->
  GetGreaterEqual_loop fuel iv cand (ptr_of t) s = Ok (greaterEqual_t iv cand t, s).
Proof.
  induction t as [|l IHl a d r IHr]; intros c cand fuel HW Hf;
    (destruct fuel as [|fuel]; [simpl in Hf; lia|]); simpl; [reflexivity|].
  erewrite bind_get by (eapply WF_lookup; exact HW). simpl.
  destruct (Interval_Less (dI d) iv).
  - erewrite bind_get by (eapply WF_lookup; exact HW); simpl.
    eapply (IHr (CR l a d c)); [exact HW | simpl in *; lia].
  - erewrite bind_get by (eapply WF_lookup; exact HW); simpl.
    eapply (IHl (CL c a d r)); [exact HW | simpl in *; lia].
Qed.

Lemma GetMin_loop_WF s t : forall c cand fuel,
  WF s (plug c t) -> (height t < fuel)%nat ->
  GetMin_loop fuel cand (ptr_of t) s = Ok (leftmost cand t, s).
Proof.
  induction t as [|l IHl a d r IHr]; intros c cand fuel HW Hf;
    (destruct fuel as [|fuel]; [simpl in Hf; lia|]); simpl; [reflexivity|].
  erewrite bind_get by (eapply WF_lookup; exact HW); simpl.
  eapply (IHl (CL c a d r)); [exact HW | simpl in *; lia].
Qed.

Lemma GetMax_loop_WF s t : forall c cand fuel,
  WF s (plug c t) -> (height t < fuel)%nat ->
  GetMax_loop fuel cand (ptr_of t) s = Ok (rightmost cand t, s).
Proof.
  induction t as [|l IHl a d r IHr]; intros c cand fuel HW Hf;
    (destruct fuel as [|fuel]; [simpl in Hf; lia|]); simpl; [reflexivity|].
  erewrite bind_get by (eapply WF_lookup; exact HW); simpl.
  eapply (IHr (CR l a d c)); [exact HW | simpl in *; lia].
Qed.

Lemma WF_root s t : WF s t -> root (hdr s) = ptr_of t.
Proof. by intros (_ & _ & ?). Qed.

Lemma GetNode_WF s iv t :
  WF s t -> Interval_empty iv = false -> GetNode iv s = Ok (find iv t, s).
Proof.
  intros HW E. unfold GetNode. rewrite check_interval_ok by done.
  unfold get_root, with_fuel, bind at 1. rewrite (WF_root s t HW).
  apply (GetNode_loop_WF s iv t Top); [done|]. by apply (WF_fuel s Top t).
Qed.

Lemma GetLess_WF s iv t :
  WF s t -> Interval_empty iv = false -> GetLess iv s = Ok (less_t iv None t, s).
Proof.
  intros HW E. unfold GetLess. rewrite check_interval_ok by done.
  unfold get_root, with_fuel, bind at 1. rewrite (WF_root s t HW).
  apply (GetLess_loop_WF s iv t Top); [done|]. by apply (WF_fuel s Top t).
Qed.

Lemma GetLessEqual_WF s iv t :
  WF s t -> Interval_empty iv = false ->
  GetLessEqual iv s = Ok (lessEqual_t iv None t, s).
Proof.
  intros HW E. unfold GetLessEqual. rewrite check_interval_ok by done.
  unfold get_root, with_fuel, bind at 1. rewrite (WF_root s t HW).
  apply (GetLessEqual_loop_WF s iv t Top); [done|]. by apply (WF_fuel s Top t).
Qed.

Lemma GetGreater_WF s iv t :
  WF s t -> Interval_empty iv = false -> GetGreater iv s = Ok (greater_t iv None t, s).
Proof.
  intros HW E. unfold GetGreater. rewrite check_interval_ok by done.
  unfold get_root, with_fuel, bind at 1. rewrite (WF_root s t HW).
  apply (GetGreater_loop_WF s iv t Top); [done|]. by apply (WF_fuel s Top t).
Qed.

Lemma GetGreaterEqual_WF s iv t :
  WF s t -> Interval_empty iv = false ->
  GetGreaterEqual iv s = Ok (greaterEqual_t iv None t, s).
Proof.
  intros HW E. unfold GetGreaterEqual. rewrite check_interval_ok by done.
  unfold get_root, with_fuel, bind at 1. rewrite (WF_root s t HW).
  apply (GetGreaterEqual_loop_WF s iv t Top); [done|]. by apply (WF_fuel s Top t).
Qed.

Lemma GetMin_WF s t : WF s t -> GetMin s = Ok (leftmost None t, s).
Proof.
  intros HW. unfold GetMin, get_root, with_fuel, bind at 1. rewrite (WF_root s t HW).
  apply (GetMin_loop_WF s t Top); [done|]. by apply (WF_fuel s Top t).
Qed.

Lemma GetMax_WF s t : WF s t -> GetMax s = Ok (rightmost None t, s).
Proof.
  intros HW. unfold GetMax, get_root, with_fuel, bind at 1. rewrite (WF_root s t HW).
  apply (GetMax_loop_WF s t Top); [done|]. by apply (WF_fuel s Top t).
Qed.
End Lookup.

Section LookupFacts.
Context `{Point P} {V : Type}.
Implicit Types (s : State P V) (iv : Interval P).
Implicit Types (t l r : tree (P:=P) (V:=V)) (c : ctx (P:=P) (V:=V)).
Implicit Types (x y : positive * Data (P:=P) (V:=V)).

(** [iv] and the key of [x] are equal: neither is less than the other. *)
Definition same_key iv x : Prop :=
  Interval_Less iv (dI x.2) = false /\ Interval_Less (dI x.2) iv = false.

Lemma same_key_Equal iv x : same_key iv x <-> Interval_Equal (dI x.2) iv = true.
Proof. unfold same_key. rewrite Interval_Equal_incomparable. tauto. Qed.

Lemma find_Some iv t a :
  find iv t = Some a -> exists d, (a, d) ∈ inorder t /\ same_key iv (a, d).
Proof.
  induction t as [|l IHl b e r IHr]; simpl; [done|].
  destruct (Interval_Less iv (dI e)) eqn:E1.
  { intros (d & ? & ?)%IHl. exists d. split; [set_solver | done]. }
  destruct (Interval_Less (dI e) iv) eqn:E2.
  { intros (d & ? & ?)%IHr. exists d. split; [set_solver | done]. }
  intros [= ->]. exists e. split; [set_solver | done].
Qed.

Lemma find_bst iv t a d :
  bst t -> (a, d) ∈ inorder t -> same_key iv (a, d) -> find iv t = Some a.
Proof.
  induction t as [|l IHl b e r IHr]; simpl; [by intros _ ?%elem_of_nil|].
  intros (Hl & Hr & Hlt & Hgt)%bst_N Hin [K1 K2]. simpl in K1, K2.
  apply elem_of_app in Hin as [Hin|Hin].
  { specialize (Hlt _ Hin). unfold klt in Hlt. simpl in Hlt.
    assert (Interval_Less iv (dI e) = true) as -> by order. by apply IHl. }
  apply elem_of_cons in Hin as [[= -> ->]|Hin].
  { by rewrite K1, K2. }
  specialize (Hgt _ Hin). unfold klt in Hgt. simpl in Hgt.
  assert (Interval_Less iv (dI e) = false) as -> by order.
  assert (Interval_Less (dI e) iv = true) as -> by order. by apply IHr.
Qed.

Lemma find_None iv t x :
  bst t -> find iv t = None -> x ∈ inorder t -> ~ same_key iv x.
Proof.
  intros Hb Hf Hx Hk. destruct x as [a d].
  rewrite (find_bst iv t a d Hb Hx Hk) in Hf. done.
Qed.

Lemma less_lessEqual_same iv t : forall cand,
  (forall x, x ∈ inorder t -> ~ same_key iv x) ->
  less_t iv cand t = lessEqual_t iv cand t.
Proof.
  induction t as [|l IHl b e r IHr]; intros cand Hno; simpl; [done|].
  destruct (Interval_Less (dI e) iv) eqn:E1.
  - assert (Interval_Less iv (dI e) = false) as -> by order.
    apply IHr. intros x Hx. apply Hno. simpl. set_solver.
  - destruct (Interval_Less iv (dI e)) eqn:E2.
    + apply IHl. intros x Hx. apply Hno. simpl. set_solver.
    + exfalso. apply (Hno (b, e)); [simpl; set_solver | done].
Qed.

Lemma lessEqual_all_greater iv t : forall cand,
  (forall x, x ∈ inorder t -> Interval_Less iv (dI x.2) = true) ->
  lessEqual_t iv cand t = cand.
Proof.
  induction t as [|l IHl b e r IHr]; intros cand Hall; simpl; [done|].
  assert (Interval_Less iv (dI e) = true) as -> by (apply (Hall (b, e)); simpl; set_solver).
  apply IHl. intros x Hx. apply Hall. simpl. set_solver.
Qed.

Lemma lessEqual_found iv t a d : forall cand,
  bst t -> (a, d) ∈ inorder t -> same_key iv (a, d) ->
  lessEqual_t iv cand t = Some a.
Proof.
  induction t as [|l IHl b e r IHr]; intros cand; simpl; [by intros _ ?%elem_of_nil|].
  intros (Hl & Hr & Hlt & Hgt)%bst_N Hin [K1 K2]. simpl in K1, K2.
  apply elem_of_app in Hin as [Hin|Hin].
  { specialize (Hlt _ Hin). unfold klt in Hlt. simpl in Hlt.
    assert (Interval_Less iv (dI e) = true) as -> by order. by apply IHl. }
  apply elem_of_cons in Hin as [[= -> ->]|Hin].
  { rewrite K1. apply lessEqual_all_greater. intros x Hx.
    specialize (Hgt _ Hx). unfold klt in Hgt. simpl in Hgt. order. }
  specialize (Hgt _ Hin). unfold klt in Hgt. simpl in Hgt.
  assert (Interval_Less iv (dI e) = false) as -> by order. by apply IHr.
Qed.

Lemma less_range iv t : forall cand,
  less_t iv cand t = cand \/
  exists b e, (b, e) ∈ inorder t /\ Interval_Less (dI e) iv = true /\
    less_t iv cand t = Some b.
Proof.
  induction t as [|l IHl b e r IHr]; intros cand; simpl; [by left|].
  destruct (Interval_Less (dI e) iv) eqn:E1.
  - right. destruct (IHr (Some b)) as [->|(b' & e' & ? & ? & ->)].
    + exists b, e. split; [set_solver | done].
    + exists b', e'. split; [set_solver | done].
  - destruct (IHl cand) as [->|(b' & e' & ? & ? & ->)]; [by left|].
    right. exists b', e'. split; [set_solver | done].
Qed.

(** C7: on a tree that satisfies the invariants, GetLess and GetLessEqual
    of a non-empty interval return, and they return the same node exactly
    when no node of the tree has a key equal to the interval. *)
Theorem GetLess_GetLessEqual_agree s t iv :
  Inv s t -> Interval_empty iv = false ->
  exists p q,
    GetLess iv s = Ok (p, s) /\ GetLessEqual iv s = Ok (q, s) /\
    (p = q <-> forall x, x ∈ inorder t -> Interval_Equal (dI x.2) iv = false).
Proof.
  intros (HW & Hb & _) E.
  exists (less_t iv None t), (lessEqual_t iv None t).
  split; [by apply GetLess_WF|]. split; [by apply GetLessEqual_WF|].
  split.
  - intros Heq x Hx. destruct (Interval_Equal (dI x.2) iv) eqn:EQ; [|done].
    apply same_key_Equal in EQ. destruct x as [a d].
    rewrite (lessEqual_found iv t a d None Hb Hx EQ) in Heq.
    destruct (less_range iv t None) as [E1|(b & e & Hin & Hlt & E1)]; [congruence|].
    rewrite E1 in Heq. injection Heq as ->.
    destruct HW as (_ & Hwf & _).
    rewrite (inorder_functional t a e d Hwf Hin Hx) in Hlt.
    destruct EQ as [_ K]. simpl in K. congruence.
  - intros Hno. apply less_lessEqual_same. intros x Hx Hk.
    apply same_key_Equal in Hk. rewrite (Hno x Hx) in Hk. done.
Qed.
End LookupFacts.

(** ** Range queries *)

Section Range.
Context `{Point P} {V : Type}.
Implicit Types (s : State P V) (iv : Interval P).
Implicit Types (t l r : tree (P:=P) (V:=V)) (c : ctx (P:=P) (V:=V)).
Implicit Types (x y : positive * Data (P:=P) (V:=V)) (lst : list ptr).

(** The four visitors, read on the tree. *)
Fixpoint containingPoint_t (p : P) t lst : list ptr :=
  match t with
  | E => lst
  | N l a d r =>
      if lessOrEqual (dM d) p then lst
      else
        let lst := containingPoint_t p l lst in
        if lessOrEqual (Left (dI d)) p then
          containingPoint_t p r (if Less p (Right (dI d)) then lst ++ [Some a] else lst)
        else lst
  end.

Fixpoint containingInterval_t iv t lst : list ptr :=
  match t with
  | E => lst
  | N l a d r =>
      if Less (dM d) (Right iv) then lst
      else
        let lst := containingInterval_t iv l lst in
        if lessOrEqual (Left (dI d)) (Left iv) then
          containingInterval_t iv r
            (if lessOrEqual (Right iv) (Right (dI d)) then lst ++ [Some a] else lst)
        else lst
  end.

Fixpoint containedIn_t iv t lst : list ptr :=
  match t with
  | E => lst
  | N l a d r =>
      if lessOrEqual (dM d) (Left iv) then lst
      else
        containedIn_t iv r
          (if lessOrEqual (Left iv) (Left (dI d)) then
             let lst := containedIn_t iv l lst in
             if lessOrEqual (Right (dI d)) (Right iv) then lst ++ [Some a] else lst
           else lst)
  end.

Fixpoint overlapping_t iv t lst : list ptr :=
  match t with
  | E => lst
  | N l a d r =>
      if lessOrEqual (dM d) (Left iv) then lst
      else
        overlapping_t iv r
          (if Less (Left iv) (Right (dI d)) then
             let lst := overlapping_t iv l lst in
             if Less (Left (dI d)) (Right iv) then lst ++ [Some a] else lst
           else lst)
  end.

Lemma child_call (f : ptr -> list ptr -> M (P:=P) (V:=V) (list ptr))
    (g : tree -> list ptr -> list ptr) t lst s :
  g E lst = lst ->
  (t <> E -> f (ptr_of t) lst s = Ok (g t lst, s)) ->
  (if negb (is_nil (ptr_of t)) then f (ptr_of t) lst else ret lst) s = Ok (g t lst, s).
Proof.
  intros HE Hf. destruct t; simpl; [by rewrite HE | by apply Hf].
Qed.

Ltac visit f g IH HW cc :=
  apply (child_call f g); [reflexivity | intros ?; eapply (IH cc); [exact HW | simpl in *; lia | done]].

Lemma nodesContainingPoint_rec_WF s p t : forall c lst fuel,
  WF s (plug c t) -> (height t <= fuel)%nat -> t <> E ->
  nodesContainingPoint_rec fuel (ptr_of t) lst p s = Ok (containingPoint_t p t lst, s).
Proof.
  induction t as [|l IHl a d r IHr]; intros c lst fuel HW Hf Hne; [done|].
  destruct fuel as [|fuel]; [simpl in Hf; lia|]. simpl.
  erewrite bind_get by (eapply WF_lookup; exact HW). simpl.
  destruct (lessOrEqual (dM d) p); [reflexivity|].
  erewrite bind_get by (eapply WF_lookup; exact HW). simpl.
  erewrite bind_Ok by (visit (fun q k => nodesContainingPoint_rec (V:=V) fuel q k p) (containingPoint_t p) IHl HW (CL c a d r)).
  erewrite bind_get by (eapply WF_lookup; exact HW). simpl.
  destruct (lessOrEqual (Left (dI d)) p); [|reflexivity].
  rewrite bind_ret.
  erewrite bind_get by (eapply WF_lookup; exact HW). simpl.
  visit (fun q k => nodesContainingPoint_rec (V:=V) fuel q k p) (containingPoint_t p) IHr HW (CR l a d c).
Qed.

Lemma nodesContainingInterval_rec_WF s iv t : forall c lst fuel,
  WF s (plug c t) -> (height t <= fuel)%nat -> t <> E ->
  nodesContainingInterval_rec fuel (ptr_of t) lst iv s
    = Ok (containingInterval_t iv t lst, s).
Proof.
  induction t as [|l IHl a d r IHr]; intros c lst fuel HW Hf Hne; [done|].
  destruct fuel as [|fuel]; [simpl in Hf; lia|]. simpl.
  erewrite bind_get by (eapply WF_lookup; exact HW). simpl.
  destruct (Less (dM d) (Right iv)); [reflexivity|].
  erewrite bind_get by (eapply WF_lookup; exact HW). simpl.
  erewrite bind_Ok by (visit (fun q k => nodesContainingInterval_rec (V:=V) fuel q k iv) (containingInterval_t iv) IHl HW (CL c a d r)).
  erewrite bind_get by (eapply WF_lookup; exact HW). simpl.
  destruct (lessOrEqual (Left (dI d)) (Left iv)); [|reflexivity].
  rewrite bind_ret.
  erewrite bind_get by (eapply WF_lookup; exact HW). simpl.
  visit (fun q k => nodesContainingInterval_rec (V:=V) fuel q k iv) (containingInterval_t iv) IHr HW (CR l a d c).
Qed.

Lemma nodesContainedInInterval_rec_WF s iv t : forall c lst fuel,
  WF s (plug c t) -> (height t <= fuel)%nat -> t <> E ->
  nodesContainedInInterval_rec fuel (ptr_of t) lst iv s
    = Ok (containedIn_t iv t lst, s).
Proof.
  induction t as [|l IHl a d r IHr]; intros c lst fuel HW Hf Hne; [done|].
  destruct fuel as [|fuel]; [simpl in Hf; lia|]. simpl.
  erewrite bind_get by (eapply WF_lookup; exact HW). simpl.
  destruct (lessOrEqual (dM d) (Left iv)); [reflexivity|].
  erewrite bind_get by (eapply WF_lookup; exact HW). simpl.
  destruct (lessOrEqual (Left iv) (Left (dI d))).
  - rewrite bind_bind.
    erewrite bind_get by (eapply WF_lookup; exact HW). simpl.
    rewrite bind_bind.
    erewrite bind_Ok by (visit (fun q k => nodesContainedInInterval_rec (V:=V) fuel q k iv) (containedIn_t iv) IHl HW (CL c a d r)).
    rewrite bind_ret.
    erewrite bind_get by (eapply WF_lookup; exact HW). simpl.
    visit (fun q k => nodesContainedInInterval_rec (V:=V) fuel q k iv) (containedIn_t iv) IHr HW (CR l a d c).
  - rewrite bind_ret.
    erewrite bind_get by (eapply WF_lookup; exact HW). simpl.
    visit (fun q k => nodesContainedInInterval_rec (V:=V) fuel q k iv) (containedIn_t iv) IHr HW (CR l a d c).
Qed.

Lemma nodesOverlappingInterval_rec_WF s iv t : forall c lst fuel,
  WF s (plug c t) -> (height t <= fuel)%nat -> t <> E ->
  nodesOverlappingInterval_rec fuel (ptr_of t) lst iv s
    = Ok (overlapping_t iv t lst, s).
Proof.
  induction t as [|l IHl a d r IHr]; intros c lst fuel HW Hf Hne; [done|].
  destruct fuel as [|fuel]; [simpl in Hf; lia|]. simpl.
  erewrite bind_get by (eapply WF_lookup; exact HW). simpl.
  destruct (lessOrEqual (dM d) (Left iv)); [reflexivity|].
  erewrite bind_get by (eapply WF_lookup; exact HW). simpl.
  destruct (Less (Left iv) (Right (dI d))).
  - rewrite bind_bind.
    erewrite bind_get by (eapply WF_lookup; exact HW). simpl.
    rewrite bind_bind.
    erewrite bind_Ok by (visit (fun q k => nodesOverlappingInterval_rec (V:=V) fuel q k iv) (overlapping_t iv) IHl HW (CL c a d r)).
    rewrite bind_ret.
    erewrite bind_get by (eapply WF_lookup; exact HW). simpl.
    visit (fun q k => nodesOverlappingInterval_rec (V:=V) fuel q k iv) (overlapping_t iv) IHr HW (CR l a d c).
  - rewrite bind_ret.
    erewrite bind_get by (eapply WF_lookup; exact HW). simpl.
    visit (fun q k => nodesOverlappingInterval_rec (V:=V) fuel q k iv) (overlapping_t iv) IHr HW (CR l a d c).
Qed.

(** *** What the visitors return *)

(** The nodes whose key satisfies [f], in order. *)
Definition select (f : Interval P -> bool) t : list (positive * Data) :=
  List.filter (fun x => f (dI x.2)) (inorder t).

Definition ptrs (xs : list (positive * Data (P:=P) (V:=V))) : list ptr :=
  map (fun x => Some x.1) xs.

Lemma filter_none {A} (f : A -> bool) (us : list A) :
  (forall u, u ∈ us -> f u = false) -> List.filter f us = [].
Proof.
  induction us as [|u us IH]; simpl; [done|]. intros Hf.
  rewrite (Hf u) by set_solver. apply IH. intros w Hw. apply Hf. set_solver.
Qed.

Lemma select_N f l a d r :
  select f (N l a d r) =
  select f l ++ (if f (dI d) then [(a, d)] else []) ++ select f r.
Proof. unfold select. simpl. rewrite List.filter_app. simpl. by destruct (f (dI d)). Qed.

Lemma select_none f t :
  (forall x, x ∈ inorder t -> f (dI x.2) = false) -> select f t = [].
Proof. intros Hf. unfold select. by apply filter_none. Qed.

Lemma ptrs_app xs ys : ptrs (xs ++ ys) = ptrs xs ++ ptrs ys.
Proof. unfold ptrs. apply map_app. Qed.

Lemma bump_ge (m : P) o : Less (bump m o) m = false.
Proof. destruct o as [x|]; simpl; [destruct (Less m x) eqn:?|]. all: order. Qed.

Lemma bump_ge_Some (m x : P) : Less (bump m (Some x)) x = false.
Proof. simpl. destruct (Less m x) eqn:?; order. Qed.

(** maxRight bounds every right endpoint of the subtree. *)
Lemma mrt_bound t x :
  mrt t -> x ∈ inorder t ->
  match mr_of t with Some m => Less m (Right (dI x.2)) = false | None => False end.
Proof.
  revert x. induction t as [|l IHl a d r IHr]; intros x; simpl; [by intros _ ?%elem_of_nil|].
  intros (Hm & Hl & Hr) Hin. unfold equal in Hm.
  apply negb_true_iff, orb_false_iff in Hm as [Hm1 Hm2].
  pose proof (bump_ge (bump (Right (dI d)) (mr_of l)) (mr_of r)) as B1.
  pose proof (bump_ge (Right (dI d)) (mr_of l)) as B2.
  apply elem_of_app in Hin as [Hin|Hin].
  { specialize (IHl x Hl Hin). destruct l as [|ll la ld lr]; [done|]. simpl in *.
    pose proof (bump_ge_Some (Right (dI d)) (dM ld)) as B3. simpl in B3. order. }
  apply elem_of_cons in Hin as [->|Hin]; [simpl; order|].
  specialize (IHr x Hr Hin). destruct r as [|rl ra rd rr]; [done|]. simpl in *.
  pose proof (bump_ge_Some (bump (Right (dI d)) (mr_of l)) (dM rd)) as B3. simpl in B3. order.
Qed.

Lemma mrt_bound_N l a d r x :
  mrt (N l a d r) -> x ∈ inorder (N l a d r) -> Less (dM d) (Right (dI x.2)) = false.
Proof. intros Hm Hx. apply (mrt_bound _ _ Hm Hx). Qed.

Ltac bst_facts :=
  repeat match goal with
  | H : bst (N _ _ _ _) |- _ => apply bst_N in H as (? & ? & ? & ?)
  | H : mrt (N _ _ _ _) |- _ => pose proof (mrt_bound_N _ _ _ _ _ H); destruct H as (? & ? & ?)
  end.

Lemma containingPoint_t_spec p t : forall lst,
  bst t -> mrt t ->
  containingPoint_t p t lst = lst ++ ptrs (select (fun i => ContainsPoint i p) t).
Proof.
  induction t as [|l IHl a d r IHr]; intros lst Hb Hm; simpl.
  { by rewrite app_nil_r. }
  pose proof (fun x => mrt_bound_N _ _ _ _ x Hm) as Hbound.
  apply bst_N in Hb as (Hbl & Hbr & Hlt & Hgt). destruct Hm as (_ & Hml & Hmr).
  unfold lessOrEqual.
  destruct (Less p (dM d)) eqn:E1; simpl.
  2:{ rewrite select_none, app_nil_r; [done|]. intros x Hx.
      specialize (Hbound x Hx). unfold ContainsPoint.
      assert (Less p (Right (dI x.2)) = false) as -> by order. done. }
  rewrite select_N, !ptrs_app, IHl by done.
  destruct (Less p (Left (dI d))) eqn:E2; simpl.
  - assert (ContainsPoint (dI d) p = false) as ->
      by (unfold ContainsPoint, lessOrEqual; rewrite E2; apply andb_false_r).
    rewrite (select_none _ r); [by rewrite !app_nil_r|].
    intros x Hx. specialize (Hgt x Hx). unfold klt in Hgt. simpl in Hgt.
    apply Interval_Less_Left in Hgt. unfold ContainsPoint, lessOrEqual.
    assert (Less p (Left (dI x.2)) = true) as -> by order. apply andb_false_r.
  - assert (ContainsPoint (dI d) p = Less p (Right (dI d))) as ->
      by (unfold ContainsPoint, lessOrEqual; rewrite E2; apply andb_true_r).
    rewrite IHr by done.
    destruct (Less p (Right (dI d))); simpl; by rewrite <- ?app_assoc.
Qed.

Lemma containingInterval_t_spec iv t : forall lst,
  bst t -> mrt t ->
  containingInterval_t iv t lst = lst ++ ptrs (select (fun i => ContainsInterval i iv) t).
Proof.
  induction t as [|l IHl a d r IHr]; intros lst Hb Hm; simpl.
  { by rewrite app_nil_r. }
  pose proof (fun x => mrt_bound_N _ _ _ _ x Hm) as Hbound.
  apply bst_N in Hb as (Hbl & Hbr & Hlt & Hgt). destruct Hm as (_ & Hml & Hmr).
  unfold lessOrEqual.
  destruct (Less (dM d) (Right iv)) eqn:E1; simpl.
  { rewrite select_none, app_nil_r; [done|]. intros x Hx.
    specialize (Hbound x Hx). unfold ContainsInterval, lessOrEqual.
    assert (Less (Right (dI x.2)) (Right iv) = true) as -> by order.
    apply andb_false_r. }
  rewrite select_N, !ptrs_app, IHl by done.
  destruct (Less (Left iv) (Left (dI d))) eqn:E2; simpl.
  - assert (ContainsInterval (dI d) iv = false) as ->
      by (unfold ContainsInterval, lessOrEqual; rewrite E2; done).
    rewrite (select_none _ r); [by rewrite !app_nil_r|].
    intros x Hx. specialize (Hgt x Hx). unfold klt in Hgt. simpl in Hgt.
    apply Interval_Less_Left in Hgt. unfold ContainsInterval, lessOrEqual.
    assert (Less (Left iv) (Left (dI x.2)) = true) as -> by order. done.
  - assert (ContainsInterval (dI d) iv = negb (Less (Right (dI d)) (Right iv))) as ->
      by (unfold ContainsInterval, lessOrEqual; rewrite E2; done).
    rewrite IHr by done.
    destruct (Less (Right (dI d)) (Right iv)); simpl; by rewrite <- ?app_assoc.
Qed.

Lemma containedIn_t_spec iv t : forall lst,
  bst t -> mrt t -> nek t ->
  containedIn_t iv t lst = lst ++ ptrs (select (fun i => ContainsInterval iv i) t).
Proof.
  induction t as [|l IHl a d r IHr]; intros lst Hb Hm Hne; simpl.
  { by rewrite app_nil_r. }
  pose proof (fun x => mrt_bound_N _ _ _ _ x Hm) as Hbound.
  apply bst_N in Hb as (Hbl & Hbr & Hlt & Hgt). destruct Hm as (_ & Hml & Hmr).
  assert (nek l) as Hnl by (intros x Hx; apply Hne; simpl; set_solver).
  assert (nek r) as Hnr by (intros x Hx; apply Hne; simpl; set_solver).
  unfold lessOrEqual.
  destruct (Less (Left iv) (dM d)) eqn:E1; simpl.
  2:{ rewrite select_none, app_nil_r; [done|]. intros x Hx.
      specialize (Hbound x Hx). specialize (Hne x Hx).
      unfold Interval_empty, lessOrEqual in Hne. apply negb_false_iff in Hne.
      unfold ContainsInterval, lessOrEqual.
      assert (Less (Left (dI x.2)) (Left iv) = true) as -> by order. done. }
  rewrite select_N, !ptrs_app, IHr by done.
  destruct (Less (Left (dI d)) (Left iv)) eqn:E2; simpl.
  - assert (ContainsInterval iv (dI d) = false) as ->
      by (unfold ContainsInterval, lessOrEqual; rewrite E2; done).
    rewrite (select_none _ l); [done|].
    intros x Hx. specialize (Hlt x Hx). unfold klt in Hlt. simpl in Hlt.
    apply Interval_Less_Left in Hlt. unfold ContainsInterval, lessOrEqual.
    assert (Less (Left (dI x.2)) (Left iv) = true) as -> by order. done.
  - assert (ContainsInterval iv (dI d) = negb (Less (Right iv) (Right (dI d)))) as ->
      by (unfold ContainsInterval, lessOrEqual; rewrite E2; done).
    rewrite IHl by done.
    destruct (Less (Right iv) (Right (dI d))); simpl; by rewrite <- ?app_assoc.
Qed.

(** The overlap visitor returns overlapping nodes only, in order; it may
    miss some (see [overlapping_misses_left_subtree]). *)
Lemma overlapping_t_sound iv t : forall lst,
  exists hits, overlapping_t iv t lst = lst ++ ptrs hits /\
    hits `sublist_of` select (fun i => Overlaps i iv) t.
Proof.
  induction t as [|l IHl a d r IHr]; intros lst; simpl.
  { exists []. by rewrite app_nil_r. }
  destruct (lessOrEqual (dM d) (Left iv)).
  { exists []. rewrite app_nil_r. split; [done | apply sublist_nil_l]. }
  rewrite select_N.
  destruct (Less (Left iv) (Right (dI d))) eqn:E1.
  - destruct (IHl lst) as (h1 & -> & S1).
    destruct (Less (Left (dI d)) (Right iv)) eqn:E2.
    + destruct (IHr ((lst ++ ptrs h1) ++ [Some a])) as (h2 & -> & S2).
      exists (h1 ++ [(a, d)] ++ h2). split.
      { rewrite !ptrs_app. simpl. by rewrite <- !app_assoc. }
      assert (Overlaps (dI d) iv = true) as ->
        by (unfold Overlaps, lessOrEqual; rewrite E1, E2; done).
      by repeat apply sublist_app.
    + destruct (IHr (lst ++ ptrs h1)) as (h2 & -> & S2).
      exists (h1 ++ h2). split.
      { rewrite !ptrs_app. by rewrite <- !app_assoc. }
      apply sublist_app; [done|]. apply sublist_inserts_l. done.
  - destruct (IHr lst) as (h2 & -> & S2).
    exists h2. split; [done|]. by do 2 apply sublist_inserts_l.
Qed.
End Range.

(** *** The range queries on a tree with the invariants *)

Section RangeQueries.
Context `{Point P} {V : Type}.
Implicit Types (s : State P V) (iv : Interval P).
Implicit Types (t l r : tree (P:=P) (V:=V)) (c : ctx (P:=P) (V:=V)).
Implicit Types (x y : positive * Data (P:=P) (V:=V)) (lst : list ptr).

Lemma StronglySorted_filter {A} (R : A -> A -> Prop) (f : A -> bool) (us : list A) :
  StronglySorted R us -> StronglySorted R (List.filter f us).
Proof.
  induction 1 as [|u us Hs IH Hall]; simpl; [constructor|].
  destruct (f u); [|done]. constructor; [done|].
  apply Forall_forall. intros w Hw. apply list_elem_of_In, filter_In in Hw as [Hw _].
  rewrite Forall_forall in Hall. apply Hall. by apply list_elem_of_In.
Qed.

Lemma sublist_in {A} (us ws : list A) u : us `sublist_of` ws -> u ∈ us -> u ∈ ws.
Proof.
  induction 1 as [|w us ws Hs IH|w us ws Hs IH]; [done| |].
  - rewrite !elem_of_cons. intros [->|?]; auto.
  - rewrite elem_of_cons. auto.
Qed.

Lemma sublist_sorted {A} (R : A -> A -> Prop) (us ws : list A) :
  us `sublist_of` ws -> StronglySorted R ws -> StronglySorted R us.
Proof.
  induction 1 as [|w us ws Hs IH|w us ws Hs IH]; intros Hss.
  - constructor.
  - apply StronglySorted_cons in Hss as [Hall Hss]. constructor; [auto|].
    rewrite Forall_forall in *. intros u Hu. apply Hall. by eapply sublist_in.
  - apply StronglySorted_cons in Hss as [Hall Hss]. auto.
Qed.

Lemma select_sorted f t : bst t -> StronglySorted klt (select f t).
Proof. apply StronglySorted_filter. Qed.

Lemma Inv_WF s t : Inv s t -> WF s t.
Proof. by intros (? & _). Qed.

(** NodesContainingPoint returns exactly the nodes whose interval contains
    the point, in increasing order of their keys. *)
Theorem NodesContainingPoint_correct s t p :
  Inv s t ->
  NodesContainingPoint p s = Ok (ptrs (select (fun i => ContainsPoint i p) t), s) /\
  StronglySorted klt (select (fun i => ContainsPoint i p) t).
Proof.
  intros (HW & Hb & _ & _ & Hm & _). split; [|by apply select_sorted].
  unfold NodesContainingPoint, get_root, bind at 1. rewrite (WF_root s t HW).
  destruct t as [|l a d r] eqn:Et; [reflexivity|]. rewrite <- Et in *.
  assert (is_nil (ptr_of t) = false) as -> by (by subst t).
  unfold with_fuel.
  rewrite (nodesContainingPoint_rec_WF s p t Top [] (fuel_of s)); try done.
  - by rewrite containingPoint_t_spec.
  - pose proof (WF_fuel s Top t HW). lia.
  - by subst t.
Qed.

(** NodesContainingInterval returns exactly the nodes whose interval
    contains the query, in increasing order of their keys. *)
Theorem NodesContainingInterval_correct s t iv :
  Inv s t -> Interval_empty iv = false ->
  NodesContainingInterval iv s = Ok (ptrs (select (fun i => ContainsInterval i iv) t), s) /\
  StronglySorted klt (select (fun i => ContainsInterval i iv) t).
Proof.
  intros (HW & Hb & _ & _ & Hm & _) Hiv. split; [|by apply select_sorted].
  unfold NodesContainingInterval. rewrite check_interval_ok by done.
  unfold get_root, bind at 1. rewrite (WF_root s t HW).
  destruct t as [|l a d r] eqn:Et; [reflexivity|]. rewrite <- Et in *.
  assert (is_nil (ptr_of t) = false) as -> by (by subst t).
  unfold with_fuel.
  rewrite (nodesContainingInterval_rec_WF s iv t Top [] (fuel_of s)); try done.
  - by rewrite containingInterval_t_spec.
  - pose proof (WF_fuel s Top t HW). lia.
  - by subst t.
Qed.

(** NodesContainedInInterval returns exactly the nodes whose interval is
    contained in the query, in increasing order of their keys. *)
Theorem NodesContainedInInterval_correct s t iv :
  Inv s t -> Interval_empty iv = false ->
  NodesContainedInInterval iv s = Ok (ptrs (select (fun i => ContainsInterval iv i) t), s) /\
  StronglySorted klt (select (fun i => ContainsInterval iv i) t).
Proof.
  intros (HW & Hb & _ & _ & Hm & Hne & _) Hiv. split; [|by apply select_sorted].
  unfold NodesContainedInInterval. rewrite check_interval_ok by done.
  unfold get_root, bind at 1. rewrite (WF_root s t HW).
  destruct t as [|l a d r] eqn:Et; [reflexivity|]. rewrite <- Et in *.
  assert (is_nil (ptr_of t) = false) as -> by (by subst t).
  unfold with_fuel.
  rewrite (nodesContainedInInterval_rec_WF s iv t Top [] (fuel_of s)); try done.
  - by rewrite containedIn_t_spec.
  - pose proof (WF_fuel s Top t HW). lia.
  - by subst t.
Qed.

(** NodesOverlappingInterval returns only nodes that overlap the query, each
    at most once and in increasing order of their keys. *)
Theorem NodesOverlappingInterval_sound s t iv :
  Inv s t -> Interval_empty iv = false ->
  exists hits,
    NodesOverlappingInterval iv s = Ok (ptrs hits, s) /\
    hits `sublist_of` select (fun i => Overlaps i iv) t /\
    StronglySorted klt hits.
Proof.
  intros (HW & Hb & _ & _ & Hm & Hne & _) Hiv.
  destruct (overlapping_t_sound iv t []) as (hits & Ho & Hsub).
  exists hits. split_and!; [|done|].
  - unfold NodesOverlappingInterval. rewrite check_interval_ok by done.
    unfold get_root, bind at 1. rewrite (WF_root s t HW).
    destruct t as [|l a d r] eqn:Et.
    { simpl in Ho. destruct hits; [reflexivity | done]. }
    rewrite <- Et in *.
    assert (is_nil (ptr_of t) = false) as -> by (by subst t).
    unfold with_fuel.
    rewrite (nodesOverlappingInterval_rec_WF s iv t Top [] (fuel_of s)); try done.
    + by rewrite Ho.
    + pose proof (WF_fuel s Top t HW). lia.
    + by subst t.
  - eapply sublist_sorted; [exact Hsub|]. by apply select_sorted.
Qed.
End RangeQueries.

(** ** Ordered traversal *)

Section Traversal.
Context `{Point P} {V : Type}.
Implicit Types (s : State P V) (iv : Interval P).
Implicit Types (t l r : tree (P:=P) (V:=V)) (c : ctx (P:=P) (V:=V)).
Implicit Types (x y : positive * Data (P:=P) (V:=V)) (lst : list ptr).

(** The nodes before and after the hole of a context, in order. *)
Fixpoint before c : list (positive * Data) :=
  match c with
  | Top => []
  | CL c _ _ _ => before c
  | CR l p dp c => before c ++ inorder l ++ [(p, dp)]
  end.

Fixpoint after c : list (positive * Data) :=
  match c with
  | Top => []
  | CL c p dp r => (p, dp) :: inorder r ++ after c
  | CR _ _ _ c => after c
  end.

Lemma inorder_plug c t : inorder (plug c t) = before c ++ inorder t ++ after c.
Proof.
  revert t. induction c as [|c IH p dp r|l p dp c IH]; intros t; simpl.
  - by rewrite app_nil_r.
  - rewrite IH. simpl. by rewrite <- !app_assoc.
  - rewrite IH. simpl. by rewrite <- !app_assoc.
Qed.

(** First ancestor reached from a left child, and from a right child. *)
Fixpoint up_next c : ptr :=
  match c with
  | Top => None
  | CL _ p _ _ => Some p
  | CR _ _ _ c => up_next c
  end.

Fixpoint up_prev c : ptr :=
  match c with
  | Top => None
  | CL c _ _ _ => up_prev c
  | CR _ p _ _ => Some p
  end.

Definition addr_of (o : option (positive * Data (P:=P) (V:=V))) : ptr :=
  match o with Some x => Some x.1 | None => None end.

Lemma up_next_head c : up_next c = addr_of (head (after c)).
Proof. induction c; simpl; auto. Qed.

Lemma up_prev_last c : up_prev c = addr_of (last (before c)).
Proof.
  induction c as [|c IH p dp r|l p dp c IH]; simpl; auto.
  by rewrite !app_assoc, last_snoc.
Qed.

Lemma leftmost_head t cand :
  leftmost cand t = match head (inorder t) with Some x => Some x.1 | None => cand end.
Proof.
  revert cand. induction t as [|l IHl a d r IHr]; intros cand; simpl; [done|].
  rewrite IHl. destruct (inorder l); done.
Qed.

Lemma rightmost_last t cand :
  rightmost cand t = match last (inorder t) with Some x => Some x.1 | None => cand end.
Proof.
  revert cand. induction t as [|l IHl a d r IHr]; intros cand; simpl; [done|].
  rewrite IHr. rewrite last_app. simpl.
  destruct (inorder r) as [|u us] eqn:E; simpl; [done|].
  rewrite last_cons. by destruct (last us).
Qed.

Lemma WF_not_in_left s c l a d r pl p dp :
  WF s (plug c (N pl p dp (N l a d r))) -> ptr_of pl ≠ Some a.
Proof.
  intros (_ & Hwf & _). apply wf_plug in Hwf. simpl in Hwf. set_norm.
  apply ptr_of_ne. set_atom.
Qed.

Lemma WF_not_in_right s c l a d r pr p dp :
  WF s (plug c (N (N l a d r) p dp pr)) -> ptr_of pr ≠ Some a.
Proof.
  intros (_ & Hwf & _). apply wf_plug in Hwf. simpl in Hwf. set_norm.
  apply ptr_of_ne. set_atom.
Qed.

Lemma Next_ascend_WF s c : forall l a d r fuel,
  WF s (plug c (N l a d r)) -> (depth c < fuel)%nat ->
  Next_ascend fuel (Some a) s = Ok (up_next c, s).
Proof.
  induction c as [|c IH p dp pr|pl p dp c IH]; intros l a d r fuel HW Hf;
    (destruct fuel as [|fuel]; [simpl in Hf; lia|]); simpl.
  - erewrite bind_get by (eapply WF_lookup; exact HW). reflexivity.
  - erewrite bind_get by (eapply WF_lookup; exact HW). simpl.
    erewrite bind_get by (eapply (WF_lookup s c); exact HW). simpl.
    by rewrite ptr_eqb_refl.
  - erewrite bind_get by (eapply WF_lookup; exact HW). simpl.
    erewrite bind_get by (eapply (WF_lookup s c); exact HW). simpl.
    rewrite ptr_eqb_ne by (eapply WF_not_in_left; exact HW).
    eapply IH; [exact HW | simpl in Hf; lia].
Qed.

Lemma Previous_ascend_WF s c : forall l a d r fuel,
  WF s (plug c (N l a d r)) -> (depth c < fuel)%nat ->
  Previous_ascend fuel (Some a) s = Ok (up_prev c, s).
Proof.
  induction c as [|c IH p dp pr|pl p dp c IH]; intros l a d r fuel HW Hf;
    (destruct fuel as [|fuel]; [simpl in Hf; lia|]); simpl.
  - erewrite bind_get by (eapply WF_lookup; exact HW). reflexivity.
  - erewrite bind_get by (eapply WF_lookup; exact HW). simpl.
    erewrite bind_get by (eapply (WF_lookup s c); exact HW). simpl.
    rewrite ptr_eqb_ne by (eapply WF_not_in_right; exact HW).
    eapply IH; [exact HW | simpl in Hf; lia].
  - erewrite bind_get by (eapply WF_lookup; exact HW). simpl.
    erewrite bind_get by (eapply (WF_lookup s c); exact HW). simpl.
    by rewrite ptr_eqb_refl.
Qed.

Lemma Next_descend_WF s t : forall c fuel,
  WF s (plug c t) -> (height t <= fuel)%nat -> t <> E ->
  Next_descend fuel (ptr_of t) s = Ok (leftmost None t, s).
Proof.
  induction t as [|l IHl a d r IHr]; intros c fuel HW Hf Hne; [done|].
  destruct fuel as [|fuel]; [simpl in Hf; lia|]. simpl.
  erewrite bind_get by (eapply WF_lookup; exact HW). simpl.
  destruct l as [|ll la ld lr]; [reflexivity|].
  eapply (IHl (CL c a d r)); [exact HW | simpl in *; lia | done].
Qed.

Lemma Previous_descend_WF s t : forall c fuel,
  WF s (plug c t) -> (height t <= fuel)%nat -> t <> E ->
  Previous_descend fuel (ptr_of t) s = Ok (rightmost None t, s).
Proof.
  induction t as [|l IHl a d r IHr]; intros c fuel HW Hf Hne; [done|].
  destruct fuel as [|fuel]; [simpl in Hf; lia|]. simpl.
  erewrite bind_get by (eapply WF_lookup; exact HW). simpl.
  destruct r as [|rl ra rd rr]; [reflexivity|].
  eapply (IHr (CR l a d c)); [exact HW | simpl in *; lia | done].
Qed.

Lemma Next_WF s c l a d r :
  WF s (plug c (N l a d r)) ->
  Next (Some a) s = Ok (addr_of (head (inorder r ++ after c)), s).
Proof.
  intros HW. unfold Next.
  erewrite bind_get by (eapply WF_lookup; exact HW). simpl.
  destruct r as [|rl ra rd rr] eqn:Er.
  - simpl. unfold with_fuel. rewrite <- up_next_head.
    eapply Next_ascend_WF; [exact HW|]. by apply (WF_fuel s c (N l a d E)).
  - rewrite <- Er in *. assert (is_nil (ptr_of r) = false) as -> by (by subst r).
    unfold with_fuel.
    rewrite (Next_descend_WF s r (CR l a d c) (fuel_of s)).
    + rewrite leftmost_head. subst r. simpl. by destruct (inorder rl).
    + exact HW.
    + pose proof (WF_fuel s (CR l a d c) r HW). lia.
    + by subst r.
Qed.

Lemma Previous_WF s c l a d r :
  WF s (plug c (N l a d r)) ->
  Previous (Some a) s = Ok (addr_of (last (before c ++ inorder l)), s).
Proof.
  intros HW. unfold Previous.
  erewrite bind_get by (eapply WF_lookup; exact HW). simpl.
  destruct l as [|ll la ld lr] eqn:El.
  - simpl. unfold with_fuel. rewrite app_nil_r, <- up_prev_last.
    eapply Previous_ascend_WF; [exact HW|]. by apply (WF_fuel s c (N E a d r)).
  - rewrite <- El in *. assert (is_nil (ptr_of l) = false) as -> by (by subst l).
    unfold with_fuel.
    rewrite (Previous_descend_WF s l (CL c a d r) (fuel_of s)).
    + rewrite rightmost_last, last_app. subst l. simpl.
      destruct (last (inorder ll ++ (la, ld) :: inorder lr)) eqn:EL; [done|].
      apply last_None in EL. by destruct (inorder ll).
    + exact HW.
    + pose proof (WF_fuel s (CL c a d r) l HW). lia.
    + by subst l.
Qed.

(** Every node of a tree is the root of a subtree in some context. *)
Lemma focus_exists t a d : forall c,
  (a, d) ∈ inorder t -> exists c' l r, plug c t = plug c' (N l a d r).
Proof.
  induction t as [|l IHl b e r IHr]; intros c; simpl; [by intros ?%elem_of_nil|].
  rewrite elem_of_app, elem_of_cons. intros [Hin|[[= -> ->]|Hin]].
  - apply (IHl (CL c b e r) Hin).
  - by exists c, l, r.
  - apply (IHr (CR l b e c) Hin).
Qed.

(** [q] holds the smallest key greater than that of [x], or is nil when
    there is none. *)
Definition successor_of t x (q : ptr) : Prop :=
  match q with
  | Some b => exists e, (b, e) ∈ inorder t /\ klt x (b, e) /\
      forall y, y ∈ inorder t -> klt x y -> ~ klt y (b, e)
  | None => forall y, y ∈ inorder t -> ~ klt x y
  end.

(** [q] holds the largest key smaller than that of [x], or is nil when
    there is none. *)
Definition predecessor_of t x (q : ptr) : Prop :=
  match q with
  | Some b => exists e, (b, e) ∈ inorder t /\ klt (b, e) x /\
      forall y, y ∈ inorder t -> klt y x -> ~ klt (b, e) y
  | None => forall y, y ∈ inorder t -> ~ klt y x
  end.

Lemma klt_irrefl x : ~ klt x x.
Proof. unfold klt. rewrite swo_irrefl. done. Qed.

Lemma klt_asym x y : klt x y -> ~ klt y x.
Proof. unfold klt. intros H1 H2. order. Qed.

Lemma sorted_split pre x post :
  StronglySorted klt (pre ++ x :: post) ->
  (forall y, y ∈ pre -> klt y x) /\ (forall y, y ∈ post -> klt x y) /\
  (forall y z, y ∈ pre -> z ∈ post -> klt y z) /\
  StronglySorted klt pre /\ StronglySorted klt post.
Proof.
  rewrite StronglySorted_app, StronglySorted_cons, Forall_forall.
  intros (H1 & H2 & H3 & H4). split_and!; try done.
  - intros y Hy. apply H1; [done | set_solver].
  - intros y z Hy Hz. apply H1; [done | set_solver].
Qed.

Lemma sorted_successor t pre x post :
  inorder t = pre ++ x :: post -> bst t ->
  successor_of t x (addr_of (head post)).
Proof.
  unfold bst, successor_of. intros ->. intros (Hpre & Hpost & Hpp & Hs1 & Hs2)%sorted_split.
  destruct post as [|[b e] post]; simpl.
  - intros y Hy Hlt.
    apply elem_of_app in Hy as [Hy|Hy].
    + by apply (klt_asym _ _ (Hpre y Hy)).
    + apply list_elem_of_singleton in Hy as ->. by apply (klt_irrefl x).
  - exists e. split_and!; [set_solver | apply Hpost; set_solver |].
    intros y Hy Hlt Hlt'.
    apply StronglySorted_cons in Hs2 as [Hall _]. rewrite Forall_forall in Hall.
    rewrite elem_of_app, !elem_of_cons in Hy. destruct Hy as [Hy|[->|[->|Hy]]].
    + by apply (klt_asym _ _ (Hpre y Hy)).
    + by apply (klt_irrefl x).
    + by apply (klt_irrefl (b, e)).
    + by apply (klt_asym _ _ (Hall y Hy)).
Qed.

Lemma sorted_predecessor t pre x post :
  inorder t = pre ++ x :: post -> bst t ->
  predecessor_of t x (addr_of (last pre)).
Proof.
  unfold bst, predecessor_of. intros ->. intros (Hpre & Hpost & Hpp & Hs1 & Hs2)%sorted_split.
  destruct (last pre) as [[b e]|] eqn:EL; simpl.
  - apply last_Some in EL as [pre' ->].
    exists e. split_and!; [set_solver | apply Hpre; set_solver |].
    intros y Hy Hlt Hlt'.
    apply StronglySorted_app in Hs1 as (Hall & _ & _).
    rewrite !elem_of_app, !elem_of_cons in Hy.
    destruct Hy as [[Hy|[->|Hy]]|[->|Hy]].
    + apply (klt_asym _ _ (Hall y (b, e) Hy ltac:(set_solver))). done.
    + by apply (klt_irrefl (b, e)).
    + by apply elem_of_nil in Hy.
    + by apply (klt_irrefl x).
    + by apply (klt_asym _ _ (Hpost y Hy)).
  - apply last_None in EL as ->. simpl in *.
    intros y Hy Hlt. apply elem_of_cons in Hy as [->|Hy].
    + by apply (klt_irrefl x).
    + by apply (klt_asym _ _ (Hpost y Hy)).
Qed.

(** C8: for a node [a] of a tree that satisfies the invariants, Next returns
    the node that follows [a] in the in-order enumeration, which holds the
    smallest key greater than that of [a] (nil when [a] holds the maximum),
    and Previous returns the node before [a], which holds the largest
    smaller key (nil when [a] holds the minimum). *)
Theorem Next_Previous_correct s t a d :
  Inv s t -> (a, d) ∈ inorder t ->
  exists pre post,
    inorder t = pre ++ (a, d) :: post /\
    Next (Some a) s = Ok (addr_of (head post), s) /\
    Previous (Some a) s = Ok (addr_of (last pre), s) /\
    successor_of t (a, d) (addr_of (head post)) /\
    predecessor_of t (a, d) (addr_of (last pre)).
Proof.
  intros (HW & Hb & _) Hin.
  destruct (focus_exists t a d Top Hin) as (c & l & r & Et). simpl in Et.
  exists (before c ++ inorder l), (inorder r ++ after c).
  assert (inorder t = (before c ++ inorder l) ++ (a, d) :: inorder r ++ after c) as Ei.
  { rewrite Et, inorder_plug. simpl. by rewrite <- !app_assoc. }
  split_and!; [done | | | by eapply sorted_successor | by eapply sorted_predecessor].
  - rewrite Et in HW. by apply (Next_WF s c l a d r).
  - rewrite Et in HW. by apply (Previous_WF s c l a d r).
Qed.
End Traversal.

(** ** Running a method on a well-formed tree *)

Section Hoare.
Context `{Point P} {V : Type}.
Implicit Types (s : State P V) (iv : Interval P).
Implicit Types (t l r : tree (P:=P) (V:=V)) (c : ctx (P:=P) (V:=V)).

(** The run returns, and its result and final state satisfy [Q]. *)
Definition wp {A} (res : result (A * State P V)) (Q : A -> State P V -> Prop) : Prop :=
  match res with Ok (x, s') => Q x s' | _ => False end.

Lemma wp_Ok {A} (res : result (A * State P V)) Q :
  wp res Q <-> exists x s', res = Ok (x, s') /\ Q x s'.
Proof.
  unfold wp. destruct res as [[x s']| |]; split.
  - intros HQ. by exists x, s'.
  - by intros (? & ? & [= -> ->] & ?).
  - done.
  - by intros (? & ? & ? & _).
  - done.
  - by intros (? & ? & ? & _).
Qed.

Lemma wp_bind {A B} (m : M A) (k : A -> M B) s Q :
  wp (m s) (fun x s1 => wp (k x s1) Q) -> wp (bind m k s) Q.
Proof. unfold wp, bind. by destruct (m s) as [[x s']| |]. Qed.

Lemma wp_mono {A} (res : result (A * State P V)) (Q Q' : A -> State P V -> Prop) :
  wp res Q -> (forall x s', Q x s' -> Q' x s') -> wp res Q'.
Proof. unfold wp. destruct res as [[x s']| |]; auto. Qed.

(** [s] holds the tree [t] and its counter is [n]. *)
Definition WFL s t (n : Z) : Prop := WF s t /\ length (hdr s) = n.

Lemma WFL_lookup s c l a d r n :
  WFL s (plug c (N l a d r)) n ->
  heap s !! a = Some (cell d (ctx_par c) (ptr_of l) (ptr_of r)).
Proof. intros [HW _]. by apply (WF_lookup s c l a d r). Qed.

Lemma bind_store_WFL {A} (k : unit -> M A) s c l a d r n g d' :
  WFL s (plug c (N l a d r)) n ->
  g (cell d (ctx_par c) (ptr_of l) (ptr_of r)) = cell d' (ctx_par c) (ptr_of l) (ptr_of r) ->
  bind (store g (Some a)) k s =
  k tt (mkState (<[a := cell d' (ctx_par c) (ptr_of l) (ptr_of r)]> (heap s)) (hdr s)).
Proof. intros HW <-. by rewrite (bind_store g k a _ s (WFL_lookup s c l a d r n HW)). Qed.

Lemma bind_set_red_WFL {A} (k : unit -> M A) s c l a d r n b :
  WFL s (plug c (N l a d r)) n ->
  bind (set_red (Some a) b) k s =
  k tt (mkState (<[a := cell (with_dR b d) (ctx_par c) (ptr_of l) (ptr_of r)]> (heap s)) (hdr s)).
Proof. intros HW. by apply (bind_store_WFL k s c l a d r n). Qed.

Lemma bind_set_maxRight_WFL {A} (k : unit -> M A) s c l a d r n b :
  WFL s (plug c (N l a d r)) n ->
  bind (set_maxRight (Some a) b) k s =
  k tt (mkState (<[a := cell (with_dM b d) (ctx_par c) (ptr_of l) (ptr_of r)]> (heap s)) (hdr s)).
Proof. intros HW. by apply (bind_store_WFL k s c l a d r n). Qed.

Lemma bind_set_Value_WFL {A} (k : unit -> M A) s c l a d r n b :
  WFL s (plug c (N l a d r)) n ->
  bind (set_Value (Some a) b) k s =
  k tt (mkState (<[a := cell (with_dV b d) (ctx_par c) (ptr_of l) (ptr_of r)]> (heap s)) (hdr s)).
Proof. intros HW. by apply (bind_store_WFL k s c l a d r n). Qed.

Lemma WFL_store_data s c l a d d' r n :
  WFL s (plug c (N l a d r)) n ->
  WFL (mkState (<[a := cell d' (ctx_par c) (ptr_of l) (ptr_of r)]> (heap s)) (hdr s))
    (plug c (N l a d' r)) n.
Proof. intros [HW Hn]. split; [by apply (WF_store_data s c l a d d' r) | done]. Qed.

Lemma rotateLeft_WFL s c x m dm y n dn z k :
  WFL s (plug c (N x m dm (N y n dn z))) k ->
  exists s', rotateLeft (Some m) s = Ok (tt, s') /\
    WFL s' (plug c (rotL (N x m dm (N y n dn z)))) k.
Proof.
  intros [HW Hn]. destruct (rotateLeft_WF s c x m dm y n dn z HW) as (s' & E1 & HW' & L').
  exists s'. split; [done|]. split; [done | congruence].
Qed.

Lemma rotateRight_WFL s c x m dm y n dn z k :
  WFL s (plug c (N (N x m dm y) n dn z)) k ->
  exists s', rotateRight (Some n) s = Ok (tt, s') /\
    WFL s' (plug c (rotR (N (N x m dm y) n dn z))) k.
Proof.
  intros [HW Hn]. destruct (rotateRight_WF s c x m dm y n dn z HW) as (s' & E1 & HW' & L').
  exists s'. split; [done|]. split; [done | congruence].
Qed.

(** *** rebalanceRed on the tree *)

Definition is_red t : bool :=
  match t with E => false | N _ _ d _ => dR d end.

Definition paint (b : bool) t : tree :=
  match t with E => E | N l a d r => N l a (with_dR b d) r end.

(** The tree that [rebalanceRed n] leaves, for the node [n] at the root of
    [t] in the context [c]; [None] where the method dereferences nil. *)
Fixpoint rebalanceRed_t c t {struct c} : option tree :=
  if negb (is_red t) then Some (plug c t)
  else
    match c with
    | Top => Some (paint false t)
    | CL c' p dp sib =>
        if negb (dR dp) then Some (plug c t)
        else
          match c' with
          | Top => None
          | CL c'' g dg u =>
              if is_red u then
                rebalanceRed_t c''
                  (N (N t p (with_dR false dp) sib) g (with_dR true dg) (paint false u))
              else
                Some (plug c'' (rotR (N (N t p (with_dR false dp) sib) g (with_dR true dg) u)))
          | CR u g dg c'' =>
              if is_red u then
                rebalanceRed_t c''
                  (N (paint false u) g (with_dR true dg) (N t p (with_dR false dp) sib))
              else
                Some (plug c''
                  (rotL (N u g (with_dR true dg) (paint false (rotR (N t p dp sib))))))
          end
    | CR sib p dp c' =>
        if negb (dR dp) then Some (plug c t)
        else
          match c' with
          | Top => None
          | CL c'' g dg u =>
              if is_red u then
                rebalanceRed_t c''
                  (N (N sib p (with_dR false dp) t) g (with_dR true dg) (paint false u))
              else
                Some (plug c''
                  (rotR (N (paint false (rotL (N sib p dp t))) g (with_dR true dg) u)))
          | CR u g dg c'' =>
              if is_red u then
                rebalanceRed_t c''
                  (N (paint false u) g (with_dR true dg) (N sib p (with_dR false dp) t))
              else
                Some (plug c'' (rotL (N u g (with_dR true dg) (N sib p (with_dR false dp) t))))
          end
    end.
End Hoare.

Ltac focus_tree a c t k :=
  lazymatch t with
  | N ?l a ?d ?r => k c l d r
  | N ?l ?b ?d ?r =>
      first [ focus_tree a constr:(CL c b d r) l k
            | focus_tree a constr:(CR l b d c) r k ]
  end.

Ltac wf_focus a T k :=
  lazymatch T with
  | plug ?c0 ?t0 => focus_tree a c0 t0 k
  | _ => lazymatch type of T with
         | @tree ?P ?V => focus_tree a constr:(@Top P V) T k
         end
  end.

Ltac wf_neq HW :=
  let H := fresh in
  pose proof HW as H; destruct H as ((_ & H & _) & _);
  try apply wf_plug in H; simpl in H; set_norm;
  first [ apply ptr_of_ne; set_atom | apply ptr_of_ne'; set_atom | congruence ].

Ltac wnew_state HW :=
  let s1 := fresh "s" in
  set (s1 := mkState _ _) in *; clearbody s1; simpl in HW.

Ltac wstep :=
  lazymatch goal with
  | |- wp (bind (bind _ _) _ _) _ => rewrite bind_bind
  | |- wp (bind (ret _) _ _) _ => rewrite bind_ret; simpl
  | HW : WFL ?s ?T ?n |- wp (bind (get ?f (Some ?a)) ?k ?s) _ =>
      wf_focus a T ltac:(fun c l d r =>
        rewrite (bind_get f k a _ s (WFL_lookup s c l a d r n HW)); simpl)
  | HW : WFL ?s ?T ?n |- wp (bind (set_red (Some ?a) ?b) ?k ?s) _ =>
      wf_focus a T ltac:(fun c l d r =>
        rewrite (bind_set_red_WFL k s c l a d r n b HW);
        apply (WFL_store_data s c l a d (with_dR b d) r n) in HW; wnew_state HW)
  | HW : WFL ?s ?T ?n |- wp (bind (set_maxRight (Some ?a) ?b) ?k ?s) _ =>
      wf_focus a T ltac:(fun c l d r =>
        rewrite (bind_set_maxRight_WFL k s c l a d r n b HW);
        apply (WFL_store_data s c l a d (with_dM b d) r n) in HW; wnew_state HW)
  | HW : WFL ?s ?T ?n |- wp (bind (set_Value (Some ?a) ?b) ?k ?s) _ =>
      wf_focus a T ltac:(fun c l d r =>
        rewrite (bind_set_Value_WFL k s c l a d r n b HW);
        apply (WFL_store_data s c l a d (with_dV b d) r n) in HW; wnew_state HW)
  | HW : WFL ?s ?T ?n |- wp (bind (rotateLeft (Some ?m)) ?k ?s) _ =>
      wf_focus m T ltac:(fun c l d r =>
        lazymatch r with
        | N ?y ?n' ?dn ?z =>
            let s1 := fresh "s" in let E1 := fresh "E" in
            destruct (rotateLeft_WFL s c l m d y n' dn z n HW) as (s1 & E1 & ?);
            rewrite (bind_Ok _ k s tt s1 E1); clear E1 HW;
            simpl in *
        end)
  | HW : WFL ?s ?T ?n |- wp (bind (rotateRight (Some ?m)) ?k ?s) _ =>
      wf_focus m T ltac:(fun c l d r =>
        lazymatch l with
        | N ?x ?n' ?dn ?y =>
            let s1 := fresh "s" in let E1 := fresh "E" in
            destruct (rotateRight_WFL s c x n' dn y m d r n HW) as (s1 & E1 & ?);
            rewrite (bind_Ok _ k s tt s1 E1); clear E1 HW;
            simpl in *
        end)
  | |- wp (bind (black _) _ _) _ => unfold black at 1; simpl
  | |- wp (bind (sibling _ _) _ _) _ => unfold sibling at 1; simpl
  | |- wp (bind (andM _ _) _ _) _ => unfold andM at 1; simpl
  | |- wp (bind (when _ _) _ _) _ => unfold when at 1; simpl
  | HW : WFL ?s ?T ?n |- wp (bind (if ptr_eqb ?p ?q then _ else _) _ ?s) _ =>
      first [ rewrite (ptr_eqb_refl p) | rewrite (ptr_eqb_ne p q) by wf_neq HW ]
  | HW : WFL ?s ?T ?n |- wp (bind (ret (ptr_eqb ?p ?q)) _ ?s) _ =>
      first [ rewrite (ptr_eqb_refl p) | rewrite (ptr_eqb_ne p q) by wf_neq HW ]
  end.

Section RebalanceRed.
Context `{Point P} {V : Type}.
Implicit Types (s : State P V) (iv : Interval P).
Implicit Types (t l r : tree (P:=P) (V:=V)) (c : ctx (P:=P) (V:=V)).

Lemma rebalanceRed_rec_WFL fuel : forall s c l a d r k T',
  WFL s (plug c (N l a d r)) k ->
  rebalanceRed_t c (N l a d r) = Some T' ->
  (depth c < fuel)%nat ->
  wp (rebalanceRed_rec fuel (Some a) s) (fun _ s' => WFL s' T' k).
Proof.
  induction fuel as [|fuel IH]; intros s c l a d r k T' HW HT Hf; [lia|].
  rewrite bind_ret_r. simpl rebalanceRed_rec.
  destruct d as [dv di dm [|]].
  2:{ assert (T' = plug c (N l a (mkData dv di dm false) r)) as ->
        by (destruct c; simpl in HT; injection HT as <-; reflexivity).
      repeat wstep. simpl. exact HW. }
  destruct c as [|c' p [pv pi pm [|]] sib|sib p [pv pi pm [|]] c']; simpl in HT, HW;
    try (injection HT as <-; repeat wstep; simpl; exact HW).
  - destruct c' as [|c'' g [gv gi gm gr] u|u g [gv gi gm gr] c'']; [done| |];
      (destruct u as [|ul ua [uv ui um [|]] ur]; simpl in HT, HW);
      first [ injection HT as <-; repeat wstep; simpl; assumption
            | repeat wstep; rewrite <- bind_ret_r;
              eapply IH; [eassumption | exact HT | simpl in Hf; lia] ].
  - destruct c' as [|c'' g [gv gi gm gr] u|u g [gv gi gm gr] c'']; [done| |];
      (destruct u as [|ul ua [uv ui um [|]] ur]; simpl in HT, HW);
      first [ injection HT as <-; repeat wstep; simpl; assumption
            | repeat wstep; rewrite <- bind_ret_r;
              eapply IH; [eassumption | exact HT | simpl in Hf; lia] ].
Qed.
End RebalanceRed.


(** ** Insertion *)

Section Insert.
Context `{Point P} {V : Type}.
Implicit Types (s : State P V) (iv : Interval P) (v : option V).
Implicit Types (t l r : tree (P:=P) (V:=V)) (c : ctx (P:=P) (V:=V)).

(** The data of a fresh red node. *)
Definition fresh_data iv v : Data := mkData v iv (Right iv) true.

(** The descent of replaceOrInsert: every visited node raises its maxRight
    to the new right endpoint; the result is the context of the place where
    the descent ends, and the node found there, if any. *)
Fixpoint ins_path iv c t : ctx * tree :=
  match t with
  | E => (c, E)
  | N l a d r =>
      let d' := with_dM (bump (dM d) (Some (Right iv))) d in
      if Interval_Less (dI d) iv then ins_path iv (CR l a d' c) r
      else if Interval_Less iv (dI d) then ins_path iv (CL c a d' r) l
      else (c, N l a d' r)
  end.

Lemma bind_new {A} (k : ptr -> M A) nd s :
  bind (new nd) k s =
  k (Some (fresh (dom (heap s)))) (mkState (<[fresh (dom (heap s)) := nd]> (heap s)) (hdr s)).
Proof. reflexivity. Qed.

Lemma bind_get_length {A} (k : Z -> M A) s : bind get_length k s = k (length (hdr s)) s.
Proof. reflexivity. Qed.

Lemma bind_set_length {A} (k : unit -> M A) n s :
  bind (set_length n) k s = k tt (mkState (heap s) (mkT (root (hdr s)) n)).
Proof. reflexivity. Qed.

Lemma WFL_set_length s t n n' :
  WFL s t n -> WFL (mkState (heap s) (mkT (root (hdr s)) n')) t n'.
Proof. intros [(Hr & Hw & Hroot) _]. split; [split_and!|]; done. Qed.

Lemma bind_when_raise_WFL {A} (k : unit -> M A) s c l a d r n b :
  WFL s (plug c (N l a d r)) n ->
  bind (when (Less (dM d) b) (set_maxRight (Some a) b)) k s =
  k tt (mkState (<[a := cell (with_dM (bump (dM d) (Some b)) d)
                        (ctx_par c) (ptr_of l) (ptr_of r)]> (heap s)) (hdr s)).
Proof.
  intros HW. by rewrite (bind_when_raise k a _ (dM d) b s (WFL_lookup s c l a d r n HW) eq_refl).
Qed.

Lemma WFL_fresh s t n : WFL s t n -> fresh (dom (heap s)) ∉ fp t.
Proof.
  intros [(Hr & _ & _) _] Hin. apply rep_dom in Hr.
  apply (is_fresh (dom (heap s))). set_solver.
Qed.

(** Hanging a fresh node under a node without right, or left, child. *)
Lemma attach_right_WFL s c l a d n nd fa :
  WFL s (plug c (N l a d E)) n -> fa ∉ fp (plug c (N l a d E)) ->
  WFL (mkState (<[a := cell d (ctx_par c) (ptr_of l) (Some fa)]>
                  (<[fa := cell nd (Some a) None None]> (heap s))) (hdr s))
      (plug c (N l a d (N E fa nd E))) n.
Proof.
  destruct s as [h hd]. intros [(Hrep & Hwf & Hroot) Hn] Hfa. split; [|done].
  apply rep_plug in Hrep as [Hc Ht]. apply wf_plug in Hwf.
  rewrite fp_plug in Hfa. simpl in Hc, Ht, Hwf, Hroot, Hfa. set_norm.
  apply WF_intro; simpl.
  - solve_rep.
  - solve_rep.
  - set_goal.
  - rewrite Hroot. apply ptr_of_plug_eq. reflexivity.
Qed.

Lemma attach_left_WFL s c r a d n nd fa :
  WFL s (plug c (N E a d r)) n -> fa ∉ fp (plug c (N E a d r)) ->
  WFL (mkState (<[a := cell d (ctx_par c) (Some fa) (ptr_of r)]>
                  (<[fa := cell nd (Some a) None None]> (heap s))) (hdr s))
      (plug c (N (N E fa nd E) a d r)) n.
Proof.
  destruct s as [h hd]. intros [(Hrep & Hwf & Hroot) Hn] Hfa. split; [|done].
  apply rep_plug in Hrep as [Hc Ht]. apply wf_plug in Hwf.
  rewrite fp_plug in Hfa. simpl in Hc, Ht, Hwf, Hroot, Hfa. set_norm.
  apply WF_intro; simpl.
  - solve_rep.
  - solve_rep.
  - set_goal.
  - rewrite Hroot. apply ptr_of_plug_eq. reflexivity.
Qed.

Lemma wp_attach_right {A} (k : ptr -> M A) Q s c l a d n iv v :
  WFL s (plug c (N l a d E)) n ->
  (forall fa s1, WFL s1 (plug c (N l a d (N E fa (fresh_data iv v) E))) n ->
     wp (k (Some fa) s1) Q) ->
  wp (bind (new (mkNode v iv (Right iv) (Some a) None None true))
        (fun f => bind (set_right (Some a) f) (fun _ => k f)) s) Q.
Proof.
  intros HW Hk. rewrite bind_new. unfold set_right.
  pose proof (WFL_lookup s c l a d E n HW) as Hl.
  pose proof (WFL_fresh _ _ _ HW) as Hf.
  rewrite (bind_store _ _ a (cell d (ctx_par c) (ptr_of l) None)).
  - apply Hk. by apply (attach_right_WFL s c l a d n (fresh_data iv v)).
  - rewrite fp_plug in Hf. simpl in Hf. simpl.
    rewrite lookup_insert_ne by set_solver. exact Hl.
Qed.

Lemma wp_attach_left {A} (k : ptr -> M A) Q s c r a d n iv v :
  WFL s (plug c (N E a d r)) n ->
  (forall fa s1, WFL s1 (plug c (N (N E fa (fresh_data iv v) E) a d r)) n ->
     wp (k (Some fa) s1) Q) ->
  wp (bind (new (mkNode v iv (Right iv) (Some a) None None true))
        (fun f => bind (set_left (Some a) f) (fun _ => k f)) s) Q.
Proof.
  intros HW Hk. rewrite bind_new. unfold set_left.
  pose proof (WFL_lookup s c E a d r n HW) as Hl.
  pose proof (WFL_fresh _ _ _ HW) as Hf.
  rewrite (bind_store _ _ a (cell d (ctx_par c) None (ptr_of r))).
  - apply Hk. by apply (attach_left_WFL s c r a d n (fresh_data iv v)).
  - rewrite fp_plug in Hf. simpl in Hf. simpl.
    rewrite lookup_insert_ne by set_solver. exact Hl.
Qed.

Lemma rebalanceRed_WFL s c l a d r k T' :
  WFL s (plug c (N l a d r)) k ->
  rebalanceRed_t c (N l a d r) = Some T' ->
  wp (rebalanceRed (Some a) s) (fun _ s' => WFL s' T' k).
Proof.
  intros HW HT. unfold rebalanceRed, with_fuel.
  eapply rebalanceRed_rec_WFL; [exact HW | exact HT |].
  destruct HW as [HW _]. by apply (WF_fuel s c (N l a d r)).
Qed.

(** What replaceOrInsert does below a node: [Some T'] is the tree after the
    rebalancing, in the case of an insertion. *)
Definition ins_post iv v c t (n : Z) (res : option V * bool) s' : Prop :=
  match ins_path iv c t with
  | (c', E) =>
      exists fa T',
        rebalanceRed_t c' (N E fa (fresh_data iv v) E) = Some T' /\
        WFL s' T' (n + 1) /\ res = (None, false)
  | (c', N l a d r) =>
      WFL s' (plug c' (N l a (with_dV v d) r)) n /\ res = (dV d, true)
  end.

Lemma replaceOrInsert_rec_WFL iv v t : forall c s fuel n,
  t <> E -> WFL s (plug c t) n -> (height t <= fuel)%nat ->
  (forall c' fa, ins_path iv c t = (c', E) ->
     is_Some (rebalanceRed_t c' (N E fa (fresh_data iv v) E))) ->
  wp (replaceOrInsert_rec fuel (ptr_of t) iv v s) (ins_post iv v c t n).
Proof.
  induction t as [|l IHl a d r IHr]; intros c s fuel n Hne HW Hf Hreb; [done|].
  destruct fuel as [|fuel]; [simpl in Hf; lia|].
  cbn [ins_path] in Hreb.
  assert (ins_post iv v c (N l a d r) n =
          let d' := with_dM (bump (dM d) (Some (Right iv))) d in
          if Interval_Less (dI d) iv then ins_post iv v (CR l a d' c) r n
          else if Interval_Less iv (dI d) then ins_post iv v (CL c a d' r) l n
          else fun res s' => WFL s' (plug c (N l a (with_dV v d') r)) n /\ res = (dV d', true))
    as ->.
  { unfold ins_post. cbn [ins_path].
    destruct (Interval_Less (dI d) iv); [done|]. by destruct (Interval_Less iv (dI d)). }
  set (d' := with_dM (bump (dM d) (Some (Right iv))) d) in *.
  assert (dI d' = dI d) as EdI by (by destruct d).
  cbv zeta. set (Q := if Interval_Less (dI d) iv then _ else _).
  simpl replaceOrInsert_rec.
  repeat wstep.
  rewrite (bind_when_raise_WFL _ s c l a d r n (Right iv) HW).
  apply (WFL_store_data s c l a d d' r n) in HW.
  wnew_state HW.
  repeat wstep. rewrite ?EdI. subst Q.
  destruct (Interval_Less (dI d) iv) eqn:E1.
  - repeat wstep. destruct r as [|rl ra rd rr]; simpl negb; cbv iota.
    + eapply wp_attach_right; [exact HW|]. clear HW. intros fa s1 HW.
      destruct (Hreb _ fa eq_refl) as [T' HT].
      repeat wstep.
      apply wp_bind. eapply wp_mono.
      { eapply (rebalanceRed_WFL s1 (CR l a d' c) E fa); [exact HW | exact HT]. }
      intros [] s2 HW2. cbv beta.
      rewrite bind_get_length, bind_set_length.
      unfold wp, ret, ins_post. cbn [ins_path]. exists fa, T'. split; [exact HT | split; [|reflexivity]].
      destruct HW2 as [HW2 <-]. by apply (WFL_set_length s2 T' (length (hdr s2))).
    + apply (IHr (CR l a d' c) s0 fuel n); [done | exact HW | cbn [height] in Hf |- *; lia | exact Hreb].
  - destruct (Interval_Less iv (dI d)) eqn:E2.
    + repeat wstep. destruct l as [|ll la ld lr]; simpl negb; cbv iota.
      * eapply wp_attach_left; [exact HW|]. clear HW. intros fa s1 HW.
        destruct (Hreb _ fa eq_refl) as [T' HT].
        repeat wstep.
        apply wp_bind. eapply wp_mono.
        { eapply (rebalanceRed_WFL s1 (CL c a d' r) E fa); [exact HW | exact HT]. }
        intros [] s2 HW2. cbv beta.
        rewrite bind_get_length, bind_set_length.
        unfold wp, ret, ins_post. cbn [ins_path]. exists fa, T'. split; [exact HT | split; [|reflexivity]].
        destruct HW2 as [HW2 <-]. by apply (WFL_set_length s2 T' (length (hdr s2))).
      * apply (IHl (CL c a d' r) s0 fuel n); [done | exact HW | cbn [height] in Hf |- *; lia | exact Hreb].
    + repeat wstep. unfold wp, ret. split; [assumption | by destruct d].
Qed.
End Insert.


(** ** What the rebalancing keeps *)

Section Skeleton.
Context `{Point P} {V : Type}.
Implicit Types (s : State P V) (iv : Interval P) (v : option V).
Implicit Types (t l r u : tree (P:=P) (V:=V)) (c : ctx (P:=P) (V:=V)).
Implicit Types (x y : positive * Data (P:=P) (V:=V)).
Implicit Types (k : positive * Interval P * option V).

(** Address, key and value of a node: what rotations and recolourings
    never change. *)
Definition skel x : positive * Interval P * option V := (x.1, dI x.2, dV x.2).
Definition sk t : list (positive * Interval P * option V) := skel <$> inorder t.
Definition skb c : list (positive * Interval P * option V) := skel <$> before c.
Definition ska c : list (positive * Interval P * option V) := skel <$> after c.

Definition slt k1 k2 : Prop := Interval_Less k1.1.2 k2.1.2 = true.

Lemma sk_N l a d r : sk (N l a d r) = sk l ++ (a, dI d, dV d) :: sk r.
Proof. unfold sk. simpl. by rewrite fmap_app. Qed.

Lemma sk_plug c t : sk (plug c t) = skb c ++ sk t ++ ska c.
Proof. unfold sk, skb, ska. by rewrite inorder_plug, !fmap_app. Qed.

Lemma skb_CR l a d c : skb (CR l a d c) = skb c ++ sk l ++ [(a, dI d, dV d)].
Proof. unfold skb, sk. simpl. by rewrite !fmap_app. Qed.

Lemma ska_CL c a d r : ska (CL c a d r) = (a, dI d, dV d) :: sk r ++ ska c.
Proof. unfold ska, sk. simpl. by rewrite !fmap_app. Qed.

Lemma sk_paint b t : sk (paint b t) = sk t.
Proof. destruct t as [|? ? [] ?]; [done|]. cbn [paint]. by rewrite !sk_N. Qed.

Lemma sk_rotL t : sk (rotL t) = sk t.
Proof.
  destruct t as [|x m [] [|y n [] z]]; try done.
  cbn [rotL]. rewrite !sk_N. simpl. by rewrite <- app_assoc.
Qed.

Lemma sk_rotR t : sk (rotR t) = sk t.
Proof.
  destruct t as [|[|x m [] y] n [] z]; try done.
  cbn [rotR]. rewrite !sk_N. simpl. by rewrite <- app_assoc.
Qed.

Lemma sorted_skel (xs : list (positive * Data (P:=P) (V:=V))) :
  StronglySorted klt xs <-> StronglySorted slt (skel <$> xs).
Proof.
  induction xs as [|x xs IH]; simpl.
  - split; constructor.
  - rewrite ?fmap_cons, !StronglySorted_cons, IH, Forall_fmap. reflexivity.
Qed.

Lemma bst_sk t : bst t <-> StronglySorted slt (sk t).
Proof. apply sorted_skel. Qed.

Lemma nek_sk t : nek t <-> Forall (fun k => Interval_empty k.1.2 = false) (sk t).
Proof. unfold nek, sk. rewrite Forall_fmap, Forall_forall. reflexivity. Qed.

Lemma nodes_inorder t : nodes t = List.length (inorder t).
Proof.
  induction t as [|l IHl a d r IHr]; simpl; [done|].
  rewrite length_app. simpl. lia.
Qed.

Lemma nodes_sk t : nodes t = List.length (sk t).
Proof. unfold sk. by rewrite length_fmap, nodes_inorder. Qed.

Lemma sorted_insert xs ys k :
  StronglySorted slt (xs ++ ys) ->
  Forall (fun k' => slt k' k) xs -> Forall (fun k' => slt k k') ys ->
  StronglySorted slt (xs ++ k :: ys).
Proof.
  rewrite !StronglySorted_app, StronglySorted_cons, !Forall_forall.
  intros (Hx & Hl & Hr) H1 H2. split_and!; try done.
  intros x1 x2 Hx1 [->|Hx2]%elem_of_cons; auto.
Qed.

Lemma sorted_value xs ys a i v v' :
  StronglySorted slt (xs ++ (a, i, v) :: ys) ->
  StronglySorted slt (xs ++ (a, i, v') :: ys).
Proof.
  rewrite !StronglySorted_app, !StronglySorted_cons, !Forall_forall.
  intros (Hx & Hl & Hr & Hs). split_and!; try done.
  intros x1 x2 Hx1 [->|Hx2]%elem_of_cons.
  - apply (Hx x1 (a, i, v)); [done | set_solver].
  - apply Hx; [done | set_solver].
Qed.

(** *** maxRight, as a least upper bound *)

Definition ub (x w : P) : Prop := Less w x = false.
Definition oub (o : option P) (w : P) : Prop :=
  match o with Some x => ub x w | None => True end.

Lemma ub_bump m o w : ub (bump m o) w <-> ub m w /\ oub o w.
Proof.
  destruct o as [x|]; cbn [bump oub]; [|tauto]. unfold ub.
  destruct (Less m x) eqn:E; (split; [intros ?; split|intros [? ?]]); order.
Qed.

Lemma peq_ub (a b : P) : equal a b = true <-> forall w, ub a w <-> ub b w.
Proof.
  unfold equal, ub. rewrite negb_true_iff, orb_false_iff. split.
  - intros [H1 H2] w. split; intros; order.
  - intros Hw. split.
    + apply (Hw a). order.
    + apply (Hw b). order.
Qed.

Lemma mrt_N_ub l a d r :
  mrt (N l a d r) <->
  (forall w, ub (dM d) w <-> ub (Right (dI d)) w /\ oub (mr_of l) w /\ oub (mr_of r) w) /\
  mrt l /\ mrt r.
Proof.
  cbn [mrt]. rewrite peq_ub.
  change (dM (recompute d l r)) with (bump (bump (Right (dI d)) (mr_of l)) (mr_of r)).
  split; intros (Hm & ? & ?); (split_and!; [|done..]); intros w; specialize (Hm w).
  - rewrite !ub_bump in Hm. tauto.
  - rewrite !ub_bump. tauto.
Qed.

(** The maxRight invariant of a context, for a hole whose maxRight is [o]. *)
Fixpoint mrc c (o : option P) : Prop :=
  match c with
  | Top => True
  | CL c' a d r =>
      (forall w, ub (dM d) w <-> ub (Right (dI d)) w /\ oub o w /\ oub (mr_of r) w) /\
      mrt r /\ mrc c' (Some (dM d))
  | CR l a d c' =>
      (forall w, ub (dM d) w <-> ub (Right (dI d)) w /\ oub (mr_of l) w /\ oub o w) /\
      mrt l /\ mrc c' (Some (dM d))
  end.

Lemma mrt_plug c : forall t, mrt (plug c t) <-> mrt t /\ mrc c (mr_of t).
Proof.
  induction c as [|c IH a d r|l a d c IH]; intros t; cbn [plug mrc].
  - tauto.
  - rewrite IH, mrt_N_ub. cbn [mr_of]. tauto.
  - rewrite IH, mrt_N_ub. cbn [mr_of]. tauto.
Qed.

Lemma mrc_ext c o o' : (forall w, oub o w <-> oub o' w) -> mrc c o -> mrc c o'.
Proof.
  intros Ho. destruct c as [|c a d r|l a d c]; cbn [mrc]; [done| |];
    intros (Hm & ? & ?); (split_and!; [|done..]); intros w;
    specialize (Hm w); specialize (Ho w); tauto.
Qed.

(** The maxRight of a subtree that gains a right endpoint [x]. *)
Definition oj (o : option P) (x : P) : option P :=
  Some (match o with Some m => bump m (Some x) | None => x end).

Lemma oub_oj o (b : P) w : oub (oj o b) w <-> oub o w /\ ub b w.
Proof. destruct o; cbn [oj oub]; [by rewrite ub_bump | tauto]. Qed.

Lemma same_key_Right iv (d : Data (P:=P) (V:=V)) :
  Interval_Less (dI d) iv = false -> Interval_Less iv (dI d) = false ->
  forall w, ub (Right (dI d)) w <-> ub (Right iv) w.
Proof.
  intros H1 H2. apply peq_ub.
  assert (Interval_Equal (dI d) iv = true) as HE by (by apply Interval_Equal_incomparable).
  unfold Interval_Equal in HE. by apply andb_true_iff in HE as [_ HE].
Qed.

(** *** The colouring invariant of a context *)

Definition cblack c : Prop :=
  match c with Top => False | CL _ _ d _ | CR _ _ d _ => dR d = false end.

(** The context accepts a tree of black height [h]. *)
Fixpoint okc c (h : nat) : Prop :=
  match c with
  | Top => True
  | CL c' a d r =>
      bh r = h /\ rbt r /\ (dR d = true -> is_black r = true /\ cblack c') /\
      okc c' (if dR d then h else S h)
  | CR l a d c' =>
      bh l = h /\ rbt l /\ (dR d = true -> is_black l = true /\ cblack c') /\
      okc c' (if dR d then h else S h)
  end.
End Skeleton.

Ltac rb :=
  cbn [rbt bh okc cblack is_black is_red negb dR dM dI dV with_dR with_dM with_dV
       recompute paint rotL rotR plug mr_of fresh_data] in *;
  repeat match goal with
  | H : _ /\ _ |- _ => destruct H
  | H : true = true -> _ |- _ => specialize (H eq_refl)
  | H : false = true -> _ |- _ => clear H
  | H : False |- _ => destruct H
  end;
  subst; repeat split; try done; try congruence; try lia.

Ltac fold_bump :=
  repeat match goal with
  | |- context [if Less ?m ?x then ?x else ?m] =>
      change (if Less m x then x else m) with (bump m (Some x))
  | H : context [if Less ?m ?x then ?x else ?m] |- _ =>
      change (if Less m x then x else m) with (bump m (Some x)) in H
  end.

Ltac mr_hyps :=
  repeat match goal with
  | H : mrt (N _ _ _ _) |- _ => apply mrt_N_ub in H as (? & ? & ?)
  | H : mrc (CL _ _ _ _) _ |- _ => cbn [mrc] in H; destruct H as (? & ? & ?)
  | H : mrc (CR _ _ _ _) _ |- _ => cbn [mrc] in H; destruct H as (? & ? & ?)
  end;
  cbn [mr_of dM dI dV dR] in *.

Ltac mr_ub :=
  let w := fresh "w" in
  intros w;
  repeat match goal with
  | H : forall w : _, ub _ w <-> _ |- _ => specialize (H w)
  | H : forall w : _, oub _ w <-> _ |- _ => specialize (H w)
  end;
  unfold recompute in *;
  cbn [oub mr_of dM dI dR dV with_dM with_dR with_dV paint] in *;
  fold_bump;
  repeat first [ progress cbn [oub] in *
               | rewrite ub_bump
               | rewrite oub_oj
               | match goal with H : _ |- _ => rewrite ub_bump in H end ];
  tauto.

Ltac mr_goal :=
  unfold recompute;
  cbn [rotL rotR paint plug with_dM with_dR with_dV fresh_data mr_of dM dI dV dR];
  fold_bump;
  repeat match goal with
  | |- mrt (N _ _ _ _) => apply mrt_N_ub; split_and!
  | |- mrt E => exact I
  | |- mrt ?t => assumption
  | |- _ /\ _ => split
  | |- mrc (CL _ _ _ _) _ => cbn [mrc]
  | |- mrc (CR _ _ _ _) _ => cbn [mrc]
  | |- mrc Top _ => exact I
  | |- mrc ?c (Some ?m) =>
      first [ assumption
            | match goal with
              | H : mrc c (Some ?m') |- _ => apply (mrc_ext c (Some m') (Some m)); [|exact H]
              end ]
  | |- forall w, _ <-> _ => mr_ub
  end.

Ltac sk_norm :=
  cbn [plug paint]; rewrite ?sk_plug, ?sk_rotL, ?sk_rotR; cbn [paint];
  rewrite ?sk_N, ?sk_rotR, ?sk_rotL, ?sk_N; cbn [dI dV with_dR with_dM with_dV];
  repeat (progress (rewrite <- ?app_assoc; simpl)).

Section RebalanceRedInv.
Context `{Point P} {V : Type}.
Implicit Types (s : State P V) (iv : Interval P) (v : option V).
Implicit Types (t l r u : tree (P:=P) (V:=V)) (c : ctx (P:=P) (V:=V)).

Lemma rbt_plug c : forall t,
  rbt (plug c t) /\ is_black (plug c t) = true <->
  rbt t /\ okc c (bh t) /\ (is_red t = true -> cblack c).
Proof.
  induction c as [|c IH a d r|l a d c IH]; intros t; cbn [plug].
  - destruct t as [|? ? [? ? ? []] ?]; cbn; intuition congruence.
  - rewrite IH. destruct d as [? ? ? []]; destruct t as [|? ? [? ? ? []] ?];
      cbn [rbt bh okc cblack is_black is_red negb dR]; intuition congruence.
  - rewrite IH. destruct d as [? ? ? []]; destruct t as [|? ? [? ? ? []] ?];
      cbn [rbt bh okc cblack is_black is_red negb dR]; intuition congruence.
Qed.

Lemma rbt_plug_intro c t :
  rbt t -> okc c (bh t) -> (is_red t = true -> cblack c) ->
  rbt (plug c t) /\ is_black (plug c t) = true.
Proof. intros. by apply rbt_plug. Qed.

Lemma rebalanceRed_t_black c t :
  is_red t = false -> rebalanceRed_t c t = Some (plug c t).
Proof. intros Er. destruct c; simpl; by rewrite Er. Qed.

(** rebalanceRed restores the colouring, from a red node whose only
    possible fault is a red parent. *)
Lemma rebalanceRed_t_rbt n : forall c t,
  (depth c < n)%nat -> rbt t -> okc c (bh t) ->
  exists T', rebalanceRed_t c t = Some T' /\ rbt T' /\ is_black T' = true.
Proof.
  induction n as [|n IH]; intros c t Hd Ht Hc; [lia|].
  destruct (is_red t) eqn:Er.
  2:{ exists (plug c t). split; [by apply rebalanceRed_t_black|].
      apply rbt_plug_intro; [done..|congruence]. }
  destruct t as [|tl ta [tv ti tm tr] trr]; [done|]. simpl in Er. subst tr.
  destruct c as [|c' p [pv pi pm [|]] sib|sib p [pv pi pm [|]] c'].
  - eexists. split; [reflexivity|]. rb.
  - destruct c' as [|c'' g [gv gi gm gr] u|u g [gv gi gm gr] c'']; [rb| |].
    + assert (gr = false) as -> by rb.
      destruct u as [|ul ua [uv ui um [|]] ur].
      * eexists. split; [reflexivity|]. apply rbt_plug_intro; rb.
      * cbn [rebalanceRed_t is_red negb dR paint with_dR]. apply IH; [simpl in Hd; lia|rb..].
      * eexists. split; [reflexivity|]. apply rbt_plug_intro; rb.
    + assert (gr = false) as -> by rb.
      destruct u as [|ul ua [uv ui um [|]] ur].
      * eexists. split; [reflexivity|]. apply rbt_plug_intro; rb.
      * cbn [rebalanceRed_t is_red negb dR paint with_dR]. apply IH; [simpl in Hd; lia|rb..].
      * eexists. split; [reflexivity|]. apply rbt_plug_intro; rb.
  - eexists. split; [reflexivity|].
    apply (rbt_plug_intro (CL c' p (mkData pv pi pm false) sib)); rb.
  - destruct c' as [|c'' g [gv gi gm gr] u|u g [gv gi gm gr] c'']; [rb| |].
    + assert (gr = false) as -> by rb.
      destruct u as [|ul ua [uv ui um [|]] ur].
      * eexists. split; [reflexivity|]. apply rbt_plug_intro; rb.
      * cbn [rebalanceRed_t is_red negb dR paint with_dR]. apply IH; [simpl in Hd; lia|rb..].
      * eexists. split; [reflexivity|]. apply rbt_plug_intro; rb.
    + assert (gr = false) as -> by rb.
      destruct u as [|ul ua [uv ui um [|]] ur].
      * eexists. split; [reflexivity|]. apply rbt_plug_intro; rb.
      * cbn [rebalanceRed_t is_red negb dR paint with_dR]. apply IH; [simpl in Hd; lia|rb..].
      * eexists. split; [reflexivity|]. apply rbt_plug_intro; rb.
  - eexists. split; [reflexivity|].
    apply (rbt_plug_intro (CR sib p (mkData pv pi pm false) c')); rb.
Qed.

(** rebalanceRed keeps addresses, keys and values in their order. *)
Lemma rebalanceRed_t_sk n : forall c t T',
  rebalanceRed_t c t = Some T' -> (depth c < n)%nat -> sk T' = sk (plug c t).
Proof.
  induction n as [|n IH]; intros c t T' HT Hd; [lia|].
  destruct (is_red t) eqn:Er.
  2:{ rewrite rebalanceRed_t_black in HT by done. by injection HT as <-. }
  destruct t as [|tl ta [tv ti tm tr] trr]; [done|]. simpl in Er. subst tr.
  destruct c as [|c' p [pv pi pm [|]] sib|sib p [pv pi pm [|]] c'];
    cbn [rebalanceRed_t is_red negb dR] in HT;
    try (injection HT as <-; by sk_norm).
  - destruct c' as [|c'' g [gv gi gm gr] u|u g [gv gi gm gr] c'']; [done| |];
      destruct u as [|ul ua [uv ui um [|]] ur];
      cbn [rebalanceRed_t is_red negb dR paint with_dR] in HT;
      first [ injection HT as <-; by sk_norm
            | apply IH in HT; [|simpl in Hd; lia]; rewrite HT; by sk_norm ].
  - destruct c' as [|c'' g [gv gi gm gr] u|u g [gv gi gm gr] c'']; [done| |];
      destruct u as [|ul ua [uv ui um [|]] ur];
      cbn [rebalanceRed_t is_red negb dR paint with_dR] in HT;
      first [ injection HT as <-; by sk_norm
            | apply IH in HT; [|simpl in Hd; lia]; rewrite HT; by sk_norm ].
Qed.

(** rebalanceRed keeps the maxRight invariant. *)
Lemma rebalanceRed_t_mrt n : forall c t T',
  rebalanceRed_t c t = Some T' -> (depth c < n)%nat -> mrt (plug c t) -> mrt T'.
Proof.
  induction n as [|n IH]; intros c t T' HT Hd Hm; [lia|].
  destruct (is_red t) eqn:Er.
  2:{ rewrite rebalanceRed_t_black in HT by done. by injection HT as <-. }
  destruct t as [|tl ta [tv ti tm tr] trr]; [done|]. simpl in Er. subst tr.
  destruct c as [|c' p [pv pi pm [|]] sib|sib p [pv pi pm [|]] c'];
    cbn [rebalanceRed_t is_red negb dR] in HT;
    try (injection HT as <-; exact Hm).
  - destruct c' as [|c'' g [gv gi gm gr] u|u g [gv gi gm gr] c'']; [done| |];
      destruct u as [|ul ua [uv ui um [|]] ur];
      cbn [rebalanceRed_t is_red negb dR paint with_dR] in HT;
      cbn [plug] in Hm; apply mrt_plug in Hm as [Hm Hc]; mr_hyps;
      first [ injection HT as <-
            | eapply IH; [exact HT | simpl in Hd; lia |] ];
      apply mrt_plug; mr_goal.
  - destruct c' as [|c'' g [gv gi gm gr] u|u g [gv gi gm gr] c'']; [done| |];
      destruct u as [|ul ua [uv ui um [|]] ur];
      cbn [rebalanceRed_t is_red negb dR paint with_dR] in HT;
      cbn [plug] in Hm; apply mrt_plug in Hm as [Hm Hc]; mr_hyps;
      first [ injection HT as <-
            | eapply IH; [exact HT | simpl in Hd; lia |] ];
      apply mrt_plug; mr_goal.
Qed.
End RebalanceRedInv.

(** ** ReplaceOrInsert keeps the invariants *)

Section InsertInv.
Context `{Point P} {V : Type}.
Implicit Types (s : State P V) (iv : Interval P) (v : option V).
Implicit Types (t l r u : tree (P:=P) (V:=V)) (c : ctx (P:=P) (V:=V)).

Lemma ins_path_rb iv t : forall c c' t',
  ins_path iv c t = (c', t') -> rbt t -> okc c (bh t) -> (is_red t = true -> cblack c) ->
  rbt t' /\ okc c' (bh t') /\ (is_red t' = true -> cblack c').
Proof.
  induction t as [|l IHl a d r IHr]; intros c c' t' Hp Ht Hc Hr; cbn [ins_path] in Hp.
  - by injection Hp as <- <-.
  - destruct d as [dv di dm dr]. cbn [dI dM] in Hp.
    destruct (Interval_Less di iv); [|destruct (Interval_Less iv di)].
    + eapply IHr; [exact Hp|..]; destruct dr, r as [|? ? [? ? ? []] ?]; rb.
    + eapply IHl; [exact Hp|..]; destruct dr, l as [|? ? [? ? ? []] ?]; rb.
    + injection Hp as <- <-. destruct dr; rb.
Qed.

Lemma ins_path_mr iv t : forall c c' t',
  ins_path iv c t = (c', t') -> mrt t -> mrc c (oj (mr_of t) (Right iv)) ->
  match t' with
  | E => mrc c' (Some (Right iv))
  | N l a d r => mrt t' /\ mrc c' (Some (dM d))
  end.
Proof.
  induction t as [|l IHl a d r IHr]; intros c c' t' Hp Ht Hc; cbn [ins_path] in Hp.
  - injection Hp as <- <-. exact Hc.
  - destruct d as [dv di dm dr]. cbn [dI dM with_dM] in Hp.
    cbn [oj mr_of dM] in Hc.
    destruct (Interval_Less di iv) eqn:E1; [|destruct (Interval_Less iv di) eqn:E2].
    + eapply IHr; [exact Hp|..]; mr_hyps; [done|]. mr_goal.
    + eapply IHl; [exact Hp|..]; mr_hyps; [done|]. mr_goal.
    + injection Hp as <- <-.
      pose proof (same_key_Right iv (mkData dv di dm dr) E1 E2).
      mr_hyps. mr_goal.
Qed.

Lemma ins_path_E iv t : forall c c',
  ins_path iv c t = (c', E) -> bst t ->
  find iv t = None /\
  exists xs ys, sk t = xs ++ ys /\ skb c' = skb c ++ xs /\ ska c' = ys ++ ska c /\
    Forall (fun k => Interval_Less k.1.2 iv = true) xs /\
    Forall (fun k => Interval_Less iv k.1.2 = true) ys.
Proof.
  induction t as [|l IHl a d r IHr]; intros c c' Hp Hb; cbn [ins_path] in Hp.
  - injection Hp as <-. split; [done|]. exists [], [].
    split_and!; [done | by rewrite app_nil_r | done | constructor | constructor].
  - apply bst_N in Hb as (Hbl & Hbr & Hlt & Hgt). cbn [find].
    change (dI (with_dM _ d)) with (dI d) in Hp.
    destruct (Interval_Less (dI d) iv) eqn:E1; [|destruct (Interval_Less iv (dI d)) eqn:E2].
    + destruct (IHr _ _ Hp Hbr) as (Hf & xs & ys & Es & Eb & Ea & F1 & F2).
      assert (Interval_Less iv (dI d) = false) as -> by order.
      split; [done|]. exists (sk l ++ (a, dI d, dV d) :: xs), ys. split_and!.
      * rewrite sk_N, Es. by rewrite <- app_assoc.
      * rewrite Eb, skb_CR. by rewrite <- !app_assoc.
      * exact Ea.
      * rewrite Forall_app, Forall_cons. split_and!; [|exact E1|exact F1].
        unfold sk. rewrite Forall_fmap, Forall_forall. intros x Hx.
        specialize (Hlt x Hx). unfold klt in Hlt. simpl in *. order.
      * exact F2.
    + destruct (IHl _ _ Hp Hbl) as (Hf & xs & ys & Es & Eb & Ea & F1 & F2).
      split; [done|]. exists xs, (ys ++ (a, dI d, dV d) :: sk r). split_and!.
      * rewrite sk_N, Es. by rewrite <- app_assoc.
      * exact Eb.
      * rewrite Ea, ska_CL. by rewrite <- !app_assoc.
      * exact F1.
      * rewrite Forall_app, Forall_cons. split_and!; [exact F2|exact E2|].
        unfold sk. rewrite Forall_fmap, Forall_forall. intros x Hx.
        specialize (Hgt x Hx). unfold klt in Hgt. simpl in *. order.
    + done.
Qed.

(** Below a node that holds the key already, no maxRight is raised. *)
Lemma bump_found iv l a d r x :
  mrt (N l a d r) -> x ∈ inorder (N l a d r) -> same_key iv x ->
  Less (dM d) (Right iv) = false.
Proof.
  intros Hm Hx [K1 K2]. pose proof (mrt_bound_N l a d r x Hm Hx) as Hb.
  assert (Interval_Equal (dI x.2) iv = true) as HE by (by apply Interval_Equal_incomparable).
  unfold Interval_Equal, equal in HE.
  apply andb_true_iff in HE as [_ HE]. apply negb_true_iff, orb_false_iff in HE as [? ?].
  order.
Qed.

Lemma with_dM_id (d : Data (P:=P) (V:=V)) : with_dM (dM d) d = d.
Proof. by destruct d. Qed.

Lemma ins_path_N iv t : forall c c' l a d r,
  ins_path iv c t = (c', N l a d r) -> bst t -> mrt t ->
  find iv t = Some a /\ plug c' (N l a d r) = plug c t /\
  (a, d) ∈ inorder t /\ same_key iv (a, d).
Proof.
  induction t as [|l0 IHl a0 d0 r0 IHr]; intros c c' l a d r Hp Hb Hm; cbn [ins_path] in Hp;
    [done|].
  pose proof Hb as Hb'. apply bst_N in Hb' as (Hbl & Hbr & Hlt & Hgt).
  pose proof Hm as (_ & Hml & Hmr). cbn [find].
  change (dI (with_dM _ d0)) with (dI d0) in Hp.
  destruct (Interval_Less (dI d0) iv) eqn:E1; [|destruct (Interval_Less iv (dI d0)) eqn:E2].
  - destruct (IHr _ _ _ _ _ _ Hp Hbr Hmr) as (Hf & Hpl & Hin & Hk).
    assert (Interval_Less iv (dI d0) = false) as -> by order.
    assert (Less (dM d0) (Right iv) = false) as Hle.
    { apply (bump_found iv l0 a0 d0 r0 (a, d)); [done| |done]. simpl. set_solver. }
    cbn [plug] in Hpl. cbn [bump] in Hpl. rewrite Hle, with_dM_id in Hpl.
    split_and!; [done|done| |done]. simpl. set_solver.
  - destruct (IHl _ _ _ _ _ _ Hp Hbl Hml) as (Hf & Hpl & Hin & Hk).
    assert (Less (dM d0) (Right iv) = false) as Hle.
    { apply (bump_found iv l0 a0 d0 r0 (a, d)); [done| |done]. simpl. set_solver. }
    cbn [plug] in Hpl. cbn [bump] in Hpl. rewrite Hle, with_dM_id in Hpl.
    split_and!; [done|done| |done]. simpl. set_solver.
  - assert (Less (dM d0) (Right iv) = false) as Hle.
    { apply (bump_found iv l0 a0 d0 r0 (a0, d0)); [done| |done]. simpl. set_solver. }
    cbn [bump] in Hp. rewrite Hle, with_dM_id in Hp. injection Hp as <- <- <- <- <-.
    split_and!; [done|done| |done]. simpl. set_solver.
Qed.
End InsertInv.


Section InsertTop.
Context `{Point P} {V : Type}.
Implicit Types (s : State P V) (iv : Interval P) (v : option V).
Implicit Types (t l r u : tree (P:=P) (V:=V)) (c : ctx (P:=P) (V:=V)).

Lemma bind_get_root {A} (k : ptr -> M A) s : bind get_root k s = k (root (hdr s)) s.
Proof. reflexivity. Qed.

Lemma bind_set_root {A} (k : unit -> M A) p s :
  bind (set_root p) k s = k tt (mkState (heap s) (mkT p (length (hdr s)))).
Proof. reflexivity. Qed.

Lemma sk_E : sk (E (P:=P) (V:=V)) = [].
Proof. reflexivity. Qed.

Lemma sk_plug_N c l a d r :
  sk (plug c (N l a d r)) = (skb c ++ sk l) ++ (a, dI d, dV d) :: (sk r ++ ska c).
Proof. rewrite sk_plug, sk_N. by rewrite <- !app_assoc. Qed.

Lemma fresh_mrt iv v fa : mrt (N E fa (fresh_data iv v) E).
Proof. mr_goal. Qed.

(** What ReplaceOrInsert returns and leaves: with the key present, the same
    tree with the new value at its node; otherwise the tree with one more
    node, in the place of the key. *)
Definition ins_spec iv v t (res : option V * bool) t' : Prop :=
  match find iv t with
  | Some a =>
      exists c l d r, t = plug c (N l a d r) /\
        t' = plug c (N l a (with_dV v d) r) /\ res = (dV d, true)
  | None =>
      res = (None, false) /\
      exists fa xs ys, sk t = xs ++ ys /\ sk t' = xs ++ (fa, iv, v) :: ys
  end.

Lemma Inv_empty_insert s iv v :
  Inv s E -> Interval_empty iv = false ->
  Inv (mkState (<[fresh (dom (heap s)) := mkNode v iv (Right iv) None None None false]> (heap s))
         (mkT (Some (fresh (dom (heap s)))) 1))
      (N E (fresh (dom (heap s))) (mkData v iv (Right iv) false) E).
Proof.
  intros _ Hiv. split_and!.
  - split_and!; simpl.
    + split_and!; [|done..]. by rewrite lookup_insert_eq.
    + set_solver.
    + done.
  - unfold bst. simpl. repeat constructor.
  - by simpl.
  - done.
  - mr_goal.
  - intros x Hx. simpl in Hx. apply list_elem_of_singleton in Hx as ->. exact Hiv.
  - done.
Qed.

Theorem ReplaceOrInsert_Inv s t iv v :
  Inv s t -> Interval_empty iv = false ->
  wp (ReplaceOrInsert iv v s)
     (fun res s' => exists t', Inv s' t' /\ ins_spec iv v t res t').
Proof.
  intros HI Hiv. pose proof HI as (HW & Hb & Hrb & Hbl & Hm & Hne & Hlen).
  unfold ReplaceOrInsert. rewrite check_interval_ok by done. rewrite bind_get_length.
  cbv beta.
  destruct t as [|l a d r].
  { rewrite Hlen. change (Z.of_nat (nodes E) =? 0) with true. cbv iota.
    rewrite bind_new, bind_set_root, bind_set_length. unfold wp, ret.
    eexists. split; [by apply Inv_empty_insert|].
    unfold ins_spec. simpl. split; [done|]. by exists (fresh (dom (heap s))), [], []. }
  destruct (length (hdr s) =? 0) eqn:E0.
  { apply Z.eqb_eq in E0. simpl in Hlen. lia. }
  rewrite bind_get_root. rewrite (WF_root _ _ HW).
  unfold replaceOrInsert, with_fuel.
  set (t := N l a d r) in *.
  assert (is_red t = true -> cblack (Top (P:=P) (V:=V))) as Hred.
  { subst t. simpl in *. destruct (dR d); done. }
  assert (forall c', ins_path iv Top t = (c', E) -> okc c' 0) as Hokc.
  { intros c' Hp. by destruct (ins_path_rb iv t Top c' E Hp Hrb I Hred) as (_ & ? & _). }
  assert (forall c' fa, ins_path iv Top t = (c', E) ->
            exists T', rebalanceRed_t c' (N E fa (fresh_data iv v) E) = Some T' /\
                       rbt T' /\ is_black T' = true) as Hreb.
  { intros c' fa Hp.
    apply (rebalanceRed_t_rbt (S (depth c')) c' (N E fa (fresh_data iv v) E)); [lia|rb|].
    apply (Hokc c' Hp). }
  eapply wp_mono.
  { apply (replaceOrInsert_rec_WFL iv v t Top s (fuel_of s) (length (hdr s))).
    - done.
    - by split.
    - destruct (WF_fuel s Top t HW). lia.
    - intros c' fa Hp. destruct (Hreb c' fa Hp) as (T' & -> & _). by eexists. }
  intros res s' Hpost. unfold ins_post in Hpost.
  destruct (ins_path iv Top t) as [c' t'] eqn:Hp.
  destruct t' as [|l' a' d' r'].
  - destruct Hpost as (fa & T' & HT & [HW' Hlen'] & ->).
    destruct (ins_path_E iv t Top c' Hp Hb) as (Hf & xs & ys & Es & Eb & Ea & F1 & F2).
    change (skb Top) with (@nil (positive * Interval P * option V)) in Eb.
    change (ska Top) with (@nil (positive * Interval P * option V)) in Ea.
    rewrite app_nil_r in Ea. simpl in Eb.
    destruct (Hreb c' fa eq_refl) as (T'' & HT'' & Hrb' & Hbl').
    rewrite HT in HT''. injection HT'' as <-.
    pose proof (rebalanceRed_t_sk _ _ _ _ HT (Nat.lt_succ_diag_r _)) as Hsk.
    rewrite sk_plug, sk_N, Eb, Ea, sk_E in Hsk. simpl in Hsk.
    pose proof (ins_path_mr iv t Top c' E Hp Hm I) as Hmc. cbn in Hmc.
    exists T'. split.
    + split_and!.
      * exact HW'.
      * apply bst_sk. rewrite Hsk. apply sorted_insert; [|done|done].
        rewrite <- Es. by apply bst_sk.
      * done.
      * done.
      * eapply rebalanceRed_t_mrt; [exact HT | apply Nat.lt_succ_diag_r |].
        apply mrt_plug. split; [apply fresh_mrt | exact Hmc].
      * apply nek_sk. rewrite Hsk. apply nek_sk in Hne. rewrite Es in Hne.
        rewrite Forall_app in Hne. rewrite Forall_app, Forall_cons. tauto.
      * rewrite Hlen', Hlen, !nodes_sk, Hsk, Es, !length_app. simpl. lia.
    + unfold ins_spec. rewrite Hf. split; [done|]. by exists fa, xs, ys.
  - destruct Hpost as ([HW' Hlen'] & ->).
    destruct (ins_path_N iv t Top c' l' a' d' r' Hp Hb Hm) as (Hf & Hpl & Hin & Hk).
    cbn [plug] in Hpl. clearbody t. subst t.
    exists (plug c' (N l' a' (with_dV v d') r')). split.
    + assert (rbt (plug c' (N l' a' (with_dV v d') r')) /\
              is_black (plug c' (N l' a' (with_dV v d') r')) = true) as [? ?].
      { destruct (proj1 (rbt_plug c' _) (conj Hrb Hbl)) as (H1 & H2 & H3).
        apply rbt_plug_intro; destruct d'; rb; tauto. }
      split_and!.
      * exact HW'.
      * apply bst_sk. apply bst_sk in Hb. rewrite sk_plug_N in *.
        destruct d'. eapply sorted_value. exact Hb.
      * done.
      * done.
      * apply mrt_plug in Hm as [Hm1 Hm2]. apply mrt_plug. destruct d'.
        split; [exact Hm1|exact Hm2].
      * apply nek_sk. apply nek_sk in Hne. rewrite sk_plug_N in *.
        rewrite !Forall_app, !Forall_cons in *. destruct d'. exact Hne.
      * rewrite Hlen', Hlen, !nodes_sk, !sk_plug_N, !length_app. simpl. lia.
    + unfold ins_spec. rewrite Hf. by exists c', l', d', r'.
Qed.

(** With the key present, replaceOrInsert stores nothing but the value. *)
Lemma replaceOrInsert_rec_found iv v s t : forall c fuel a,
  WF s (plug c t) -> bst t -> mrt t -> find iv t = Some a -> (height t <= fuel)%nat ->
  exists nd, heap s !! a = Some nd /\
    replaceOrInsert_rec fuel (ptr_of t) iv v s =
    Ok ((Value nd, true), mkState (<[a := with_Value v nd]> (heap s)) (hdr s)).
Proof.
  induction t as [|l IHl b d r IHr]; intros c fuel a HW Hb Hm Hf Hh; [done|].
  destruct fuel as [|fuel]; [simpl in Hh; lia|].
  pose proof (WF_lookup s c l b d r HW) as Hl.
  pose proof (find_Some iv _ a Hf) as (d0 & Hin & Hk).
  pose proof (bump_found iv l b d r (a, d0) Hm Hin Hk) as Hle.
  pose proof Hb as Hb'. apply bst_N in Hb' as (Hbl & Hbr & Hlt & Hgt).
  pose proof Hm as (_ & Hml & Hmr).
  cbn [find] in Hf. cbn [ptr_of]. simpl replaceOrInsert_rec.
  rewrite (bind_get maxRight _ b _ s Hl). cbn [maxRight cell]. rewrite Hle.
  unfold when at 1. rewrite bind_ret.
  rewrite (bind_get interval _ b _ s Hl). cbn [interval cell].
  destruct (Interval_Less iv (dI d)) eqn:E1.
  - assert (Interval_Less (dI d) iv = false) as -> by order.
    rewrite (bind_get left _ b _ s Hl). cbn [left cell].
    destruct l as [|ll la ld lr]; [done|]. cbn [ptr_of is_nil negb].
    apply (IHl (CL c b d r) fuel a); [exact HW | done.. | cbn [height] in Hh |- *; lia].
  - destruct (Interval_Less (dI d) iv) eqn:E2.
    + rewrite (bind_get right _ b _ s Hl). cbn [right cell].
      destruct r as [|rl ra rd rr]; [done|]. cbn [ptr_of is_nil negb].
      apply (IHr (CR l b d c) fuel a); [exact HW | done.. | cbn [height] in Hh |- *; lia].
    + injection Hf as <-. rewrite (bind_get Value _ b _ s Hl). unfold set_Value.
      rewrite (bind_store _ _ b _ s Hl). eexists. split; [exact Hl|]. reflexivity.
Qed.

Lemma ReplaceOrInsert_found s t iv v a :
  Inv s t -> Interval_empty iv = false -> find iv t = Some a ->
  exists nd, heap s !! a = Some nd /\
    ReplaceOrInsert iv v s =
    Ok ((Value nd, true), mkState (<[a := with_Value v nd]> (heap s)) (hdr s)).
Proof.
  intros (HW & Hb & Hrb & Hbl & Hm & Hne & Hlen) Hiv Hf.
  unfold ReplaceOrInsert. rewrite check_interval_ok by done. rewrite bind_get_length.
  cbv beta.
  destruct t as [|l b d r]; [done|].
  destruct (length (hdr s) =? 0) eqn:E0.
  { apply Z.eqb_eq in E0. simpl in Hlen. lia. }
  rewrite bind_get_root. rewrite (WF_root _ _ HW).
  unfold replaceOrInsert, with_fuel.
  apply (replaceOrInsert_rec_found iv v s (N l b d r) Top); [done..|].
  destruct (WF_fuel s Top _ HW). lia.
Qed.

(** A node of the tree is an object of the store. *)
Lemma WF_inorder_lookup s t a d :
  WF s t -> (a, d) ∈ inorder t ->
  exists par pl pr, heap s !! a = Some (cell d par pl pr).
Proof.
  intros HW Hin. destruct (focus_exists t a d Top Hin) as (c & l & r & Et).
  simpl in Et. rewrite Et in HW. eexists _, _, _. apply (WF_lookup s c l a d r HW).
Qed.
End InsertTop.


(** ** Replacing a value *)

Section Replace.
Context `{Point P} {V : Type}.
Implicit Types (s : State P V) (iv : Interval P) (v : option V).
Implicit Types (t l r u : tree (P:=P) (V:=V)) (c : ctx (P:=P) (V:=V)).

(** C10: when a node [a] of a tree that satisfies the invariants holds a key
    equal to the non-empty interval [iv], ReplaceOrInsert returns the old
    value of [a] with present = true, and the final state is the initial one
    with the Value field of [a] replaced: the root and the length are the
    same, every other object of the store is untouched, and [a] keeps its
    interval, maxRight, parent, left, right and colour. *)
Theorem ReplaceOrInsert_replace_frame s t iv v a d :
  Inv s t -> Interval_empty iv = false ->
  (a, d) ∈ inorder t -> Interval_Equal (dI d) iv = true ->
  exists nd s',
    heap s !! a = Some nd /\
    ReplaceOrInsert iv v s = Ok ((Value nd, true), s') /\
    hdr s' = hdr s /\
    heap s' = <[a := mkNode v (interval nd) (maxRight nd) (parent nd) (left nd)
                        (right nd) (red nd)]> (heap s) /\
    (forall b, b <> a -> heap s' !! b = heap s !! b).
Proof.
  intros HI Hiv Hin Hk. pose proof HI as (_ & Hb & _).
  apply (same_key_Equal iv (a, d)) in Hk.
  pose proof (find_bst iv t a d Hb Hin Hk) as Hf.
  destruct (ReplaceOrInsert_found s t iv v a HI Hiv Hf) as (nd & Hnd & E1).
  exists nd, (mkState (<[a := with_Value v nd]> (heap s)) (hdr s)).
  split_and!; [done | done | done | by destruct nd |].
  intros b Hne. simpl. by rewrite lookup_insert_ne.
Qed.

(** C6: on a tree that satisfies the invariants, after ReplaceOrInsert of
    a non-empty interval with [v1], a second ReplaceOrInsert of the same
    interval with [v2] returns ([v1], true), and Len is the same before and
    after the second call. *)
Theorem ReplaceOrInsert_twice s t iv v1 v2 :
  Inv s t -> Interval_empty iv = false ->
  exists res1 s1 s2 n,
    ReplaceOrInsert iv v1 s = Ok (res1, s1) /\
    ReplaceOrInsert iv v2 s1 = Ok ((v1, true), s2) /\
    Len s1 = Ok (n, s1) /\ Len s2 = Ok (n, s2).
Proof.
  intros HI Hiv. pose proof (ReplaceOrInsert_Inv s t iv v1 HI Hiv) as Hwp.
  apply wp_Ok in Hwp as (res1 & s1 & E1 & t1 & HI1 & Hspec).
  assert (exists a d, (a, d) ∈ inorder t1 /\ same_key iv (a, d) /\ dV d = v1)
    as (a & d & Hin & Hk & Hv).
  { unfold ins_spec in Hspec. destruct (find iv t) as [a|] eqn:Hf.
    - destruct Hspec as (c & l & d & r & -> & -> & ->). exists a, (with_dV v1 d).
      assert ((a, d) ∈ inorder (plug c (N l a d r))) as Hd.
      { rewrite inorder_plug. simpl. set_solver. }
      split_and!.
      + rewrite inorder_plug. simpl. set_solver.
      + apply find_Some in Hf as (d0 & Hin0 & Hk0).
        destruct HI as ((_ & Hwf & _) & _).
        rewrite (inorder_functional _ a d0 d Hwf Hin0 Hd) in Hk0. by destruct d.
      + by destruct d.
    - destruct Hspec as (-> & fa & xs & ys & Es & Es1).
      assert ((fa, iv, v1) ∈ sk t1) as Hin by (rewrite Es1; set_solver).
      unfold sk in Hin. apply list_elem_of_fmap in Hin as ([a d] & Heq & Hin).
      injection Heq as -> -> ->. exists a, d. split_and!; [done| |done].
      split; simpl; order. }
  pose proof HI1 as (HW1 & Hb1 & _).
  pose proof (find_bst iv t1 a d Hb1 Hin Hk) as Hf1.
  destruct (ReplaceOrInsert_found s1 t1 iv v2 a HI1 Hiv Hf1) as (nd & Hnd & E2).
  destruct (WF_inorder_lookup s1 t1 a d HW1 Hin) as (par & pl & pr & Hc).
  rewrite Hc in Hnd. injection Hnd as <-.
  exists res1, s1, (mkState (<[a := with_Value v2 (cell d par pl pr)]> (heap s1)) (hdr s1)),
    (length (hdr s1)).
  split_and!; [exact E1 | | reflexivity | reflexivity].
  rewrite E2. simpl. by rewrite Hv.
Qed.
End Replace.

(** ** A tree of three nodes *)

Module Example.
Import Scenarios.

(** [5,6) at the root, [0,100) on its left and [7,9) on its right. *)
Definition st3 : State Int Z :=
  after (ReplaceOrInsert (iv 7 9) (Some 2))
    (after (ReplaceOrInsert (iv 0 100) (Some 1))
       (after (ReplaceOrInsert (iv 5 6) (Some 0)) st0)).

Definition d1 : Data (P:=Int) (V:=Z) := mkData (Some 0) (iv 5 6) 100 false.
Definition d2 : Data (P:=Int) (V:=Z) := mkData (Some 1) (iv 0 100) 100 true.
Definition d3 : Data (P:=Int) (V:=Z) := mkData (Some 2) (iv 7 9) 9 true.

Definition t3 : tree (P:=Int) (V:=Z) :=
  N (N E 2%positive d2 E) 1%positive d1 (N E 3%positive d3 E).

Lemma Inv_st0 : Inv st0 E.
Proof.
  split_and!; try done.
  - unfold bst. simpl. constructor.
  - intros x Hx. simpl in Hx. by apply elem_of_nil in Hx.
Qed.

Lemma Inv_st3 : Inv st3 t3.
Proof.
  split_and!.
  - split_and!.
    + simpl. split_and!; try done; vm_compute; reflexivity.
    + simpl. split_and!; try done; set_solver.
    + vm_compute. reflexivity.
  - apply bst_sk. repeat constructor.
  - simpl. split_and!; done.
  - done.
  - simpl. split_and!; try done; vm_compute; reflexivity.
  - apply nek_sk. repeat constructor.
  - vm_compute. reflexivity.
Qed.
End Example.

Lemma ReplaceOrInsert_replace_frame_witness :
  exists nd s',
    heap Example.st3 !! 2%positive = Some nd /\
    ReplaceOrInsert (Scenarios.iv 0 100) (Some 7) Example.st3 = Ok ((Value nd, true), s') /\
    hdr s' = hdr Example.st3 /\
    heap s' = <[2%positive := mkNode (Some 7) (interval nd) (maxRight nd) (parent nd) (left nd)
                        (right nd) (red nd)]> (heap Example.st3) /\
    (forall b, b <> 2%positive -> heap s' !! b = heap Example.st3 !! b).
Proof.
  apply (ReplaceOrInsert_replace_frame Example.st3 Example.t3 (Scenarios.iv 0 100) (Some 7)
           2%positive Example.d2).
  - exact Example.Inv_st3.
  - reflexivity.
  - simpl. set_solver.
  - reflexivity.
Defined.

Lemma ReplaceOrInsert_twice_witness :
  exists res1 s1 s2 n,
    ReplaceOrInsert (Scenarios.iv 0 1) (Some 0) Scenarios.st0 = Ok (res1, s1) /\
    ReplaceOrInsert (Scenarios.iv 0 1) (Some 1) s1 = Ok ((Some 0, true), s2) /\
    Len s1 = Ok (n, s1) /\ Len s2 = Ok (n, s2).
Proof.
  apply (ReplaceOrInsert_twice Scenarios.st0 E (Scenarios.iv 0 1) (Some 0) (Some 1)).
  - exact Example.Inv_st0.
  - reflexivity.
Defined.

Lemma GetLess_GetLessEqual_agree_witness :
  exists p q,
    GetLess (Scenarios.iv 5 6) Example.st3 = Ok (p, Example.st3) /\
    GetLessEqual (Scenarios.iv 5 6) Example.st3 = Ok (q, Example.st3) /\
    (p = q <-> forall x, x ∈ inorder Example.t3 ->
                 Interval_Equal (dI x.2) (Scenarios.iv 5 6) = false).
Proof.
  apply (GetLess_GetLessEqual_agree Example.st3 Example.t3 (Scenarios.iv 5 6)).
  - exact Example.Inv_st3.
  - reflexivity.
Defined.

Lemma Next_Previous_correct_witness :
  exists pre post,
    inorder Example.t3 = pre ++ (1%positive, Example.d1) :: post /\
    Next (Some 1%positive) Example.st3 = Ok (addr_of (head post), Example.st3) /\
    Previous (Some 1%positive) Example.st3 = Ok (addr_of (last pre), Example.st3) /\
    successor_of Example.t3 (1%positive, Example.d1) (addr_of (head post)) /\
    predecessor_of Example.t3 (1%positive, Example.d1) (addr_of (last pre)).
Proof.
  apply (Next_Previous_correct Example.st3 Example.t3 1%positive Example.d1).
  - exact Example.Inv_st3.
  - simpl. set_solver.
Defined.


(** ** Deletion *)

Section DeleteTree.
Context `{Point P} {V : Type}.
Implicit Types (s : State P V) (iv : Interval P) (v : option V).
Implicit Types (t l r u : tree (P:=P) (V:=V)) (c : ctx (P:=P) (V:=V)).

(** *** rebalanceBlack on the tree *)

(** Cases 1 to 3 of rebalanceBlack for [n] the left child of [p], with the
    sibling [sib]; [rec] is the recursive call on the parent of [p], where
    the model follows it. *)
Definition rebalanceBlack_left (rec : option (tree -> option tree))
    c t (p : positive) (dp : Data) (sib : tree) : option tree :=
  match sib with
  | E => None
  | N l2 s2 d2 r2 =>
      if is_black sib && is_black l2 && is_black r2 then
        if dR dp then Some (plug c (N t p (with_dR false dp) (N l2 s2 (with_dR true d2) r2)))
        else match rec with
             | Some f => f (N t p dp (N l2 s2 (with_dR true d2) r2))
             | None => None
             end
      else
        let sib' :=
          if is_black r2 then
            match l2 with
            | E => None
            | N _ _ _ _ => Some (rotR (N (paint false l2) s2 (with_dR true d2) r2))
            end
          else Some sib in
        match sib' with
        | Some (N l3 s3 d3 r3) =>
            Some (plug c (rotL (N t p (with_dR false dp)
                                  (N l3 s3 (with_dR (dR dp) d3) (paint false r3)))))
        | _ => None
        end
  end.

Definition rebalanceBlack_right (rec : option (tree -> option tree))
    c t (p : positive) (dp : Data) (sib : tree) : option tree :=
  match sib with
  | E => None
  | N l2 s2 d2 r2 =>
      if is_black sib && is_black l2 && is_black r2 then
        if dR dp then Some (plug c (N (N l2 s2 (with_dR true d2) r2) p (with_dR false dp) t))
        else match rec with
             | Some f => f (N (N l2 s2 (with_dR true d2) r2) p dp t)
             | None => None
             end
      else
        let sib' :=
          if is_black l2 then
            match r2 with
            | E => None
            | N _ _ _ _ => Some (rotL (N l2 s2 (with_dR true d2) (paint false r2)))
            end
          else Some sib in
        match sib' with
        | Some (N l3 s3 d3 r3) =>
            Some (plug c (rotR (N (N (paint false l3) s3 (with_dR (dR dp) d3) r3)
                                  p (with_dR false dp) t)))
        | _ => None
        end
  end.

(** The tree that [rebalanceBlack parent n] leaves, for [n] at the root of
    [t] in the context [c]; [None] where the method dereferences nil, and
    where it would recurse after the first rotation. *)
Fixpoint rebalanceBlack_t c t {struct c} : option tree :=
  match c with
  | Top => Some t
  | CL c' p dp sib =>
      match sib with
      | E => None
      | N sl sa sd sr =>
          if dR sd then
            match rotL (N t p (with_dR true dp) (N sl sa (with_dR false sd) sr)) with
            | N (N _ _ dp1 sl1) sa1 sd1 sr1 =>
                rebalanceBlack_left None (CL c' sa1 sd1 sr1) t p dp1 sl1
            | _ => None
            end
          else rebalanceBlack_left (Some (rebalanceBlack_t c')) c' t p dp sib
      end
  | CR sib p dp c' =>
      match sib with
      | E => None
      | N sl sa sd sr =>
          if dR sd then
            match rotR (N (N sl sa (with_dR false sd) sr) p (with_dR true dp) t) with
            | N sl1 sa1 sd1 (N sr1 _ dp1 _) =>
                rebalanceBlack_right None (CR sl1 sa1 sd1 c') t p dp1 sr1
            | _ => None
            end
          else rebalanceBlack_right (Some (rebalanceBlack_t c')) c' t p dp sib
      end
  end.
End DeleteTree.

Section RebalanceBlack.
Context `{Point P} {V : Type}.
Implicit Types (s : State P V) (iv : Interval P) (v : option V).
Implicit Types (t l r u : tree (P:=P) (V:=V)) (c : ctx (P:=P) (V:=V)).

Ltac rbb_leaf IH HT Hf :=
  simpl in HT;
  first [ discriminate HT
        | injection HT as <-; repeat wstep; simpl; first [assumption | eassumption]
        | repeat wstep; rewrite <- bind_ret_r;
          match goal with
          | HW : WFL ?s (plug ?c ?t) ?k |- _ =>
              apply (IH s c t k _ HW HT); simpl in Hf; lia
          end ].

Lemma rebalanceBlack_rec_WFL fuel : forall s c t k T',
  WFL s (plug c t) k ->
  rebalanceBlack_t c t = Some T' ->
  (depth c < fuel)%nat ->
  wp (rebalanceBlack_rec fuel (ctx_par c) (ptr_of t) s) (fun _ s' => WFL s' T' k).
Proof.
  induction fuel as [|fuel IH]; intros s c t k T' HW HT Hf; [lia|].
  rewrite bind_ret_r. simpl rebalanceBlack_rec.
  destruct c as [|c' p [pv pi pm pr] sib|sib p [pv pi pm pr] c'].
  - injection HT as <-. simpl. exact HW.
  - simpl in HW. cbn [ctx_par is_nil].
    destruct sib as [|sl sa [sv si sm [|]] sr]; [done| |].
    + destruct sl as [|l2 s2 [v2 i2 m2 c2] r2]; [done|].
      destruct l2 as [|? ? [? ? ? []] ?], r2 as [|? ? [? ? ? []] ?], c2, pr;
        rbb_leaf IH HT Hf.
    + destruct sl as [|? ? [? ? ? []] ?], sr as [|? ? [? ? ? []] ?], pr;
        rbb_leaf IH HT Hf.
  - simpl in HW. cbn [ctx_par is_nil].
    destruct sib as [|sl sa [sv si sm [|]] sr]; [done| |].
    + destruct sr as [|l2 s2 [v2 i2 m2 c2] r2]; [done|].
      destruct l2 as [|? ? [? ? ? []] ?], r2 as [|? ? [? ? ? []] ?], c2, pr;
        rbb_leaf IH HT Hf.
    + destruct sl as [|? ? [? ? ? []] ?], sr as [|? ? [? ? ? []] ?], pr;
        rbb_leaf IH HT Hf.
Qed.
End RebalanceBlack.


Section RebalanceBlackInv.
Context `{Point P} {V : Type}.
Implicit Types (s : State P V) (iv : Interval P) (v : option V).
Implicit Types (t l r u : tree (P:=P) (V:=V)) (c : ctx (P:=P) (V:=V)).

(** rebalanceBlack restores the colouring, from a black subtree that is one
    black node short of what its context accepts. *)
Lemma rebalanceBlack_t_rbt c : forall t,
  rbt t -> is_black t = true -> okc c (S (bh t)) ->
  exists T', rebalanceBlack_t c t = Some T' /\ rbt T' /\ is_black T' = true.
Proof.
  induction c as [|c' IH p [pv pi pm pr] sib|sib p [pv pi pm pr] c' IH]; intros t Ht Hb Hc.
  - by exists t.
  - destruct sib as [|sl sa [sv si sm [|]] sr]; [rb| |].
    + destruct sl as [|l2 s2 [v2 i2 m2 c2] r2]; [rb|].
      assert (pr = false) as -> by (destruct pr; rb).
      assert (c2 = false) as -> by (destruct c2; rb).
      destruct l2 as [|? ? [? ? ? []] ?], r2 as [|? ? [? ? ? []] ?];
        (eexists; split; [reflexivity|]);
        first [ apply rbt_plug_intro | apply (rbt_plug_intro (CL c' _ _ _)) ]; rb; tauto.
    + destruct sl as [|? ? [? ? ? []] ?], sr as [|? ? [? ? ? []] ?], pr;
        try (eexists; split; [reflexivity|];
             first [ apply rbt_plug_intro | apply (rbt_plug_intro (CL c' _ _ _)) ]; rb; tauto);
        try (cbn; apply IH; rb; tauto).
  - destruct sib as [|sl sa [sv si sm [|]] sr]; [rb| |].
    + destruct sr as [|l2 s2 [v2 i2 m2 c2] r2]; [rb|].
      assert (pr = false) as -> by (destruct pr; rb).
      assert (c2 = false) as -> by (destruct c2; rb).
      destruct l2 as [|? ? [? ? ? []] ?], r2 as [|? ? [? ? ? []] ?];
        (eexists; split; [reflexivity|]);
        first [ apply rbt_plug_intro | apply (rbt_plug_intro (CR _ _ _ c')) ]; rb; tauto.
    + destruct sl as [|? ? [? ? ? []] ?], sr as [|? ? [? ? ? []] ?], pr;
        try (eexists; split; [reflexivity|];
             first [ apply rbt_plug_intro | apply (rbt_plug_intro (CR _ _ _ c')) ]; rb; tauto);
        try (cbn; apply IH; rb; tauto).
Qed.

Ltac rbb_inv IH HT tac :=
  simpl in HT;
  first [ discriminate HT
        | injection HT as <-; tac
        | apply IH in HT; tac ].

(** rebalanceBlack keeps addresses, keys and values in their order. *)
Lemma rebalanceBlack_t_sk c : forall t T',
  rebalanceBlack_t c t = Some T' -> sk T' = sk (plug c t).
Proof.
  induction c as [|c' IH p [pv pi pm pr] sib|sib p [pv pi pm pr] c' IH]; intros t T' HT.
  - by injection HT as <-.
  - destruct sib as [|sl sa [sv si sm [|]] sr]; [done| |].
    + destruct sl as [|l2 s2 [v2 i2 m2 c2] r2]; [done|].
      destruct l2 as [|? ? [? ? ? []] ?], r2 as [|? ? [? ? ? []] ?], c2, pr;
        rbb_inv IH HT ltac:(try rewrite HT; by sk_norm).
    + destruct sl as [|? ? [? ? ? []] ?], sr as [|? ? [? ? ? []] ?], pr;
        rbb_inv IH HT ltac:(try rewrite HT; by sk_norm).
  - destruct sib as [|sl sa [sv si sm [|]] sr]; [done| |].
    + destruct sr as [|l2 s2 [v2 i2 m2 c2] r2]; [done|].
      destruct l2 as [|? ? [? ? ? []] ?], r2 as [|? ? [? ? ? []] ?], c2, pr;
        rbb_inv IH HT ltac:(try rewrite HT; by sk_norm).
    + destruct sl as [|? ? [? ? ? []] ?], sr as [|? ? [? ? ? []] ?], pr;
        rbb_inv IH HT ltac:(try rewrite HT; by sk_norm).
Qed.

(** rebalanceBlack keeps the maxRight invariant. *)
Lemma rebalanceBlack_t_mrt c : forall t T',
  rebalanceBlack_t c t = Some T' -> mrt (plug c t) -> mrt T'.
Proof.
  induction c as [|c' IH p [pv pi pm pr] sib|sib p [pv pi pm pr] c' IH]; intros t T' HT Hm.
  - by injection HT as <-.
  - cbn [plug] in Hm. apply mrt_plug in Hm as [Hm Hc].
    destruct sib as [|sl sa [sv si sm [|]] sr]; [done| |].
    + destruct sl as [|l2 s2 [v2 i2 m2 c2] r2]; [done|].
      destruct l2 as [|? ? [? ? ? []] ?], r2 as [|? ? [? ? ? []] ?], c2, pr;
        mr_hyps; simpl in HT;
        first [ discriminate HT
              | injection HT as <-; apply mrt_plug; mr_goal
              | apply (IH _ _ HT); apply mrt_plug; mr_goal ].
    + destruct sl as [|? ? [? ? ? []] ?], sr as [|? ? [? ? ? []] ?], pr;
        mr_hyps; simpl in HT;
        first [ discriminate HT
              | injection HT as <-; apply mrt_plug; mr_goal
              | apply (IH _ _ HT); apply mrt_plug; mr_goal ].
  - cbn [plug] in Hm. apply mrt_plug in Hm as [Hm Hc].
    destruct sib as [|sl sa [sv si sm [|]] sr]; [done| |].
    + destruct sr as [|l2 s2 [v2 i2 m2 c2] r2]; [done|].
      destruct l2 as [|? ? [? ? ? []] ?], r2 as [|? ? [? ? ? []] ?], c2, pr;
        mr_hyps; simpl in HT;
        first [ discriminate HT
              | injection HT as <-; apply mrt_plug; mr_goal
              | apply (IH _ _ HT); apply mrt_plug; mr_goal ].
    + destruct sl as [|? ? [? ? ? []] ?], sr as [|? ? [? ? ? []] ?], pr;
        mr_hyps; simpl in HT;
        first [ discriminate HT
              | injection HT as <-; apply mrt_plug; mr_goal
              | apply (IH _ _ HT); apply mrt_plug; mr_goal ].
Qed.
End RebalanceBlackInv.


(** ** DeleteNode on the store *)

Section Unlink.
Context `{Point P} {V : Type}.
Implicit Types (s : State P V) (h : gmap positive (Node P V)).
Implicit Types (t ll r : tree (P:=P) (V:=V)) (c : ctx (P:=P) (V:=V)).

Local Notation "x ← y ; z" := (bind y (fun x => z))
  (at level 20, y at level 100, z at level 200, only parsing).
Local Notation "y ;; z" := (bind y (fun _ => z))
  (at level 100, z at level 200, only parsing, right associativity).

(** The swap of [n] with its left child [candidate], which has no right
    child. *)
Lemma swap_near_WF s c ll ca dc a d r :
  WF s (plug c (N (N ll ca dc E) a d r)) -> r <> E ->
  exists s',
    (replace_child (ctx_par c) (Some a) (Some ca);;
     nr ← get right (Some a);
     set_parent nr (Some ca);;
     cl ← get left (Some ca);
     when (negb (is_nil cl)) (set_parent cl (Some a));;
     cl ← get left (Some ca);
     set_left (Some ca) (Some a);;
     set_left (Some a) cl;;
     nr ← get right (Some a);
     set_right (Some ca) nr;;
     set_right (Some a) None;;
     np ← get parent (Some a);
     set_parent (Some ca) np;;
     set_parent (Some a) (Some ca);;
     ret (Some ca)) s = Ok (Some ca, s') /\
    WF s' (plug c (N (N ll a d E) ca dc r)) /\
    length (hdr s') = length (hdr s).
Proof.
  destruct s as [h [rt len]]. intros (Hrep & Hwf & Hroot) Hr.
  apply rep_plug in Hrep as [Hc Ht]. apply wf_plug in Hwf.
  destruct r as [|rl ra rd rr]; [done|].
  destruct ll as [|xl xa xd xr], c as [|c pa pd pr|pl pa pd c];
    simpl in Hc, Ht, Hwf, Hroot; unfold cell in *; set_norm.
  all: eexists; split; [hrun |].
  all: split; [|reflexivity].
  all: apply WF_intro; simpl;
    [solve_rep | solve_rep | set_goal
    | first [reflexivity | rewrite Hroot; apply ptr_of_plug_eq; reflexivity]].
Qed.

(** Unlinking a node with at most one child. *)
Lemma splice_WF s c (l : tree (P:=P) (V:=V)) a d r :
  WF s (plug c (N l a d r)) -> l = E \/ r = E ->
  exists s',
    (when (negb (is_nil (ptr_of (match l with E => r | _ => l end))))
       (set_parent (ptr_of (match l with E => r | _ => l end)) (ctx_par c));;
     replace_child (ctx_par c) (Some a) (ptr_of (match l with E => r | _ => l end))) s
      = Ok (tt, s') /\
    WF s' (plug c (match l with E => r | _ => l end)) /\
    length (hdr s') = length (hdr s) /\
    heap s' !! a = heap s !! a.
Proof.
  destruct s as [h [rt len]]. intros (Hrep & Hwf & Hroot) Hlr.
  apply rep_plug in Hrep as [Hc Ht]. apply wf_plug in Hwf.
  destruct l as [|xl xa xd xr], r as [|rl ra rd rr], c as [|c pa pd pr|pl pa pd c];
    try (by destruct Hlr);
    simpl in Hc, Ht, Hwf, Hroot; unfold cell in *; set_norm.
  all: eexists; split; [cbn [ptr_of is_nil negb ctx_par]; hrun |].
  all: split; [|split; [reflexivity|]].
  all: try (simpl; rewrite ?lookup_insert_ne by neq_solve; reflexivity).
  all: apply WF_intro; simpl;
    [solve_rep | solve_rep | set_goal
    | first [reflexivity | rewrite Hroot; apply ptr_of_plug_eq; reflexivity]].
Qed.

(** *** Contexts in contexts *)

(** [ci] inside [co]. *)
Fixpoint cat (ci co : ctx (P:=P) (V:=V)) : ctx :=
  match ci with
  | Top => co
  | CL ci' a d r => CL (cat ci' co) a d r
  | CR l a d ci' => CR l a d (cat ci' co)
  end.

Lemma plug_cat ci co t : plug (cat ci co) t = plug co (plug ci t).
Proof. revert t. induction ci as [|ci IH a d r|l a d ci IH]; intros t; simpl; auto. Qed.

Lemma cfp_cat ci co : cfp (cat ci co) = cfp ci ∪ cfp co.
Proof.
  induction ci as [|ci IH a d r|l a d ci IH]; simpl.
  - by rewrite (left_id_L ∅ (∪)).
  - rewrite IH. by rewrite !(assoc_L (∪)).
  - rewrite IH. by rewrite !(assoc_L (∪)).
Qed.

Lemma wfc_cat ci co : wfc (cat ci co) <-> wfc ci /\ wfc co /\ cfp ci ## cfp co.
Proof.
  induction ci as [|ci IH a d r|l a d ci IH]; simpl.
  - split; [intros ?; split_and!; [done|done|apply disjoint_empty_l] | tauto].
  - rewrite IH, cfp_cat. rewrite !not_elem_of_union, !disjoint_union_l, !disjoint_union_r,
      disjoint_singleton_l. tauto.
  - rewrite IH, cfp_cat. rewrite !not_elem_of_union, !disjoint_union_l, !disjoint_union_r,
      disjoint_singleton_l. tauto.
Qed.

(** The parent of the hole of [ci], when [ci] hangs under [po]. *)
Definition mpar (ci : ctx (P:=P) (V:=V)) (po : ptr) : ptr :=
  match ci with Top => po | _ => ctx_par ci end.

(** The root of [ci] filled with a tree at [p]. *)
Fixpoint mid_ptr (ci : ctx (P:=P) (V:=V)) (p : ptr) : ptr :=
  match ci with
  | Top => p
  | CL ci' a _ _ | CR _ a _ ci' => mid_ptr ci' (Some a)
  end.

Fixpoint repm h (ci : ctx (P:=P) (V:=V)) (po p : ptr) : Prop :=
  match ci with
  | Top => True
  | CL ci' a d r =>
      h !! a = Some (cell d (mpar ci' po) p (ptr_of r)) /\
      rep h (Some a) r /\ repm h ci' po (Some a)
  | CR l a d ci' =>
      h !! a = Some (cell d (mpar ci' po) (ptr_of l) p) /\
      rep h (Some a) l /\ repm h ci' po (Some a)
  end.

Lemma ctx_par_cat ci co : ctx_par (cat ci co) = mpar ci (ctx_par co).
Proof. by destruct ci. Qed.

Lemma repc_cat h ci co p :
  repc h (cat ci co) p <-> repm h ci (ctx_par co) p /\ repc h co (mid_ptr ci p).
Proof.
  revert p. induction ci as [|ci IH a d r|l a d ci IH]; intros p; simpl.
  - tauto.
  - rewrite IH, ctx_par_cat. tauto.
  - rewrite IH, ctx_par_cat. tauto.
Qed.

Lemma repm_frame h h' ci po p :
  (forall a, a ∈ cfp ci -> h' !! a = h !! a) -> repm h ci po p -> repm h' ci po p.
Proof.
  revert p. induction ci as [|ci IH a d r|l a d ci IH]; intros p Hfr; simpl; [done| |].
  - intros (Ha & Hr & Hc). split_and!.
    + rewrite Hfr; [done|]. simpl. set_solver.
    + eapply rep_frame; [|done]. intros b Hb. apply Hfr. simpl. set_solver.
    + apply IH; [|done]. intros b Hb. apply Hfr. simpl. set_solver.
  - intros (Ha & Hr & Hc). split_and!.
    + rewrite Hfr; [done|]. simpl. set_solver.
    + eapply rep_frame; [|done]. intros b Hb. apply Hfr. simpl. set_solver.
    + apply IH; [|done]. intros b Hb. apply Hfr. simpl. set_solver.
Qed.

(** The swap of [n] with the rightmost node [candidate] below its left
    child [la], when [candidate] is the right child of [la]. *)
Lemma swap_far1_WF s c ll la dl cll ca dc a d r :
  WF s (plug c (N (N ll la dl (N cll ca dc E)) a d r)) -> r <> E ->
  exists s',
    (replace_child (ctx_par c) (Some a) (Some ca);;
     nl ← get left (Some a);
     set_parent nl (Some ca);;
     nr ← get right (Some a);
     set_parent nr (Some ca);;
     cp ← get parent (Some ca);
     set_right cp (Some a);;
     cl ← get left (Some ca);
     when (negb (is_nil cl)) (set_parent cl (Some a));;
     nl ← get left (Some a);
     cl ← get left (Some ca);
     set_left (Some ca) nl;;
     set_left (Some a) cl;;
     nr ← get right (Some a);
     cr ← get right (Some ca);
     set_right (Some ca) nr;;
     set_right (Some a) cr;;
     np ← get parent (Some a);
     cp ← get parent (Some ca);
     set_parent (Some ca) np;;
     set_parent (Some a) cp;;
     ret (Some ca)) s = Ok (Some ca, s') /\
    WF s' (plug c (N (N ll la dl (N cll a d E)) ca dc r)) /\
    length (hdr s') = length (hdr s).
Proof.
  destruct s as [h [rt len]]. intros (Hrep & Hwf & Hroot) Hr.
  apply rep_plug in Hrep as [Hc Ht]. apply wf_plug in Hwf.
  destruct r as [|rl ra rd rr]; [done|].
  destruct cll as [|xl xa xd xr], c as [|c pa pd pr|pl pa pd c];
    simpl in Hc, Ht, Hwf, Hroot; unfold cell in *; set_norm.
  all: eexists; split; [hrun |].
  all: split; [|reflexivity].
  all: apply WF_intro; simpl;
    [solve_rep | solve_rep | set_goal
    | first [reflexivity | rewrite Hroot; apply ptr_of_plug_eq; reflexivity]].
Qed.

(** The same, when [candidate] lies deeper: [ci] is the path from the right
    child of [la] down to the parent [b] of [candidate]. *)
Lemma swap_far2_WF s c ll la dl ci (x : tree (P:=P) (V:=V)) b db cll ca dc a d r :
  WF s (plug (cat ci (CR ll la dl (CL c a d r))) (N x b db (N cll ca dc E))) -> r <> E ->
  exists s',
    (replace_child (ctx_par c) (Some a) (Some ca);;
     nl ← get left (Some a);
     set_parent nl (Some ca);;
     nr ← get right (Some a);
     set_parent nr (Some ca);;
     cp ← get parent (Some ca);
     set_right cp (Some a);;
     cl ← get left (Some ca);
     when (negb (is_nil cl)) (set_parent cl (Some a));;
     nl ← get left (Some a);
     cl ← get left (Some ca);
     set_left (Some ca) nl;;
     set_left (Some a) cl;;
     nr ← get right (Some a);
     cr ← get right (Some ca);
     set_right (Some ca) nr;;
     set_right (Some a) cr;;
     np ← get parent (Some a);
     cp ← get parent (Some ca);
     set_parent (Some ca) np;;
     set_parent (Some a) cp;;
     ret (Some ca)) s = Ok (Some ca, s') /\
    WF s' (plug (cat ci (CR ll la dl (CL c ca dc r))) (N x b db (N cll a d E))) /\
    length (hdr s') = length (hdr s).
Proof.
  destruct s as [h [rt len]]. intros (Hrep & Hwf & Hroot) Hr.
  apply rep_plug in Hrep as [Hc Ht]. apply wf_plug in Hwf.
  rewrite repc_cat in Hc. rewrite ctx_par_cat in Ht.
  rewrite wfc_cat, cfp_cat in Hwf. rewrite plug_cat in Hroot.
  destruct r as [|rl ra rd rr]; [done|].
  destruct cll as [|xl xa xd xr], c as [|c pa pd pr|pl pa pd c];
    simpl in Hc, Ht, Hwf, Hroot; unfold cell in *; set_norm.
  all: eexists; split; [hrun |].
  all: split; [|reflexivity].
  all: apply WF_intro;
    [ rewrite repc_cat; split;
      [ eapply repm_frame; [frame_lookup | eassumption] | simpl; solve_rep ]
    | rewrite ctx_par_cat; simpl; solve_rep
    | rewrite wfc_cat, cfp_cat; simpl; set_goal
    | rewrite plug_cat; simpl;
      first [reflexivity | rewrite Hroot; apply ptr_of_plug_eq; reflexivity] ].
Qed.
End Unlink.


Section DeleteModel.
Context `{Point P} {V : Type}.
Implicit Types (s : State P V) (h : gmap positive (Node P V)).
Implicit Types (t : tree (P:=P) (V:=V)) (c ci co : ctx (P:=P) (V:=V)).

Lemma cat_assoc c1 c2 c3 : cat (cat c1 c2) c3 = cat c1 (cat c2 c3).
Proof. induction c1 as [|c1 IH a d r|l a d c1 IH]; simpl; by rewrite ?IH. Qed.

(** The focus on the rightmost node of [t], below the context [c]. *)
Fixpoint rmost c t : ctx * tree :=
  match t with
  | N l a d (N _ _ _ _ as r) => rmost (CR l a d c) r
  | _ => (c, t)
  end.

(** A context that only descends to the right. *)
Fixpoint rspine c : Prop :=
  match c with
  | Top => True
  | CL _ _ _ _ => False
  | CR _ _ _ c' => rspine c'
  end.

Lemma rmost_N c (l : tree (P:=P) (V:=V)) a d r :
  r <> E -> rmost c (N l a d r) = rmost (CR l a d c) r.
Proof. by destruct r. Qed.

Lemma rmost_cat t : forall c, rmost c t = (cat (rmost Top t).1 c, (rmost Top t).2).
Proof.
  induction t as [|l _ a d r IH]; intros c; [done|].
  destruct r as [|rl ra rd rr]; [done|].
  set (r := N rl ra rd rr) in *. assert (r <> E) as Hr by done. clearbody r.
  rewrite !(rmost_N _ l a d) by done.
  rewrite (IH (CR l a d c)), (IH (CR l a d Top)). cbn [fst snd]. by rewrite cat_assoc.
Qed.

Lemma rmost_plug t : plug (rmost Top t).1 (rmost Top t).2 = t.
Proof.
  induction t as [|l _ a d r IH]; [done|].
  destruct r as [|rl ra rd rr]; [done|].
  set (r := N rl ra rd rr) in *. assert (r <> E) as Hr by done. clearbody r.
  rewrite (rmost_N _ l a d) by done. rewrite rmost_cat. cbn [fst snd].
  rewrite plug_cat. cbn [plug]. by rewrite IH.
Qed.

Lemma rmost_leaf t :
  t <> E -> exists cll ca dc, (rmost Top t).2 = N cll ca dc E.
Proof.
  induction t as [|l _ a d r IH]; [done|]. intros _.
  destruct r as [|rl ra rd rr]; [by eexists _, _, _|].
  set (r := N rl ra rd rr) in *. assert (r <> E) as Hr by done. clearbody r.
  rewrite (rmost_N _ l a d) by done. rewrite rmost_cat. cbn [fst snd]. by apply IH.
Qed.

Lemma rspine_cat ci co : rspine ci -> rspine co -> rspine (cat ci co).
Proof. induction ci; simpl; auto. Qed.

Lemma rmost_rspine t : rspine (rmost Top t).1.
Proof.
  induction t as [|l _ a d r IH]; [done|].
  destruct r as [|rl ra rd rr]; [done|].
  set (r := N rl ra rd rr) in *. assert (r <> E) as Hr by done. clearbody r.
  rewrite (rmost_N _ l a d) by done. rewrite rmost_cat. cbn [fst snd].
  by apply rspine_cat.
Qed.

(** The node [n], with data [d] and subtrees [l] and [r] in the context [c],
    after the first step of DeleteNode: with two children, it has changed
    places and colours with the rightmost node of [l]. *)
Definition swap_t c (l : tree (P:=P) (V:=V)) (d : Data (P:=P) (V:=V)) (r : tree (P:=P) (V:=V))
    : ctx * tree * Data * tree :=
  match l, r with
  | N _ _ _ _, N _ _ _ _ =>
      match rmost Top l with
      | (ci, N cll ca dc _) =>
          (cat ci (CL c ca (with_dR (dR d) dc) r), cll, with_dR (dR dc) d, E)
      | _ => (c, l, d, r)
      end
  | _, _ => (c, l, d, r)
  end.

(** The context [c] after the loop that recomputes maxRight from the hole
    up to the root, for a hole whose maxRight is [o]. *)
Fixpoint fixc c (o : option P) : ctx :=
  match c with
  | Top => Top
  | CL c' a d r =>
      let d' := with_dM (bump (bump (Right (dI d)) o) (mr_of r)) d in
      CL (fixc c' (Some (dM d'))) a d' r
  | CR l a d c' =>
      let d' := with_dM (bump (bump (Right (dI d)) (mr_of l)) o) d in
      CR l a d' (fixc c' (Some (dM d')))
  end.

(** The tree that DeleteNode leaves. *)
Definition delete_t c (l : tree (P:=P) (V:=V)) (d : Data (P:=P) (V:=V))
    (r : tree (P:=P) (V:=V)) : option tree :=
  let '(c1, l1, d1, r1) := swap_t c l d r in
  let child := match l1 with E => r1 | _ => l1 end in
  let c3 := fixc c1 (mr_of child) in
  if dR d1 then Some (plug c3 child)
  else if is_red child then Some (plug c3 (paint false child))
  else rebalanceBlack_t c3 child.

Lemma ctx_par_fixc c o : ctx_par (fixc c o) = ctx_par c.
Proof. by destruct c. Qed.

Lemma depth_fixc c : forall o, depth (fixc c o) = depth c.
Proof. induction c as [|c IH a d r|l a d c IH]; intros o; simpl; by rewrite ?IH. Qed.

Lemma swap_t_one_child c l d r c1 l1 d1 r1 :
  swap_t c l d r = (c1, l1, d1, r1) -> l1 = E \/ r1 = E.
Proof.
  unfold swap_t. destruct l as [|ll la dl lr]; [intros [= <- <- <- <-]; by left|].
  destruct r as [|rl ra rd rr]; [intros [= <- <- <- <-]; by right|].
  destruct (rmost_leaf (N ll la dl lr)) as (cll & ca & dc & Hx); [done|].
  destruct (rmost Top (N ll la dl lr)) as [ci X]. simpl in Hx. subst X.
  intros [= <- <- <- <-]. by right.
Qed.

(** *** The loops *)

Lemma DeleteNode_rightmost_WF s (y : tree (P:=P) (V:=V)) :
  forall c (x : tree (P:=P) (V:=V)) b db fuel,
  WF s (plug c (N x b db y)) -> y <> E -> (height y <= fuel)%nat ->
  DeleteNode_rightmost fuel (Some b) s = Ok (ptr_of (rmost (CR x b db c) y).2, s).
Proof.
  induction y as [|yl _ ya yd yr IH]; intros c x b db fuel HW Hy Hf; [done|].
  destruct fuel as [|fuel]; [simpl in Hf; lia|].
  simpl DeleteNode_rightmost.
  rewrite (bind_get right _ b _ s (WF_lookup s c x b db _ HW)). cbn [right cell ptr_of].
  rewrite (bind_get right _ ya _ s (WF_lookup s (CR x b db c) yl ya yd yr HW)).
  cbn [right cell].
  destruct yr as [|zl za zd zr]; [reflexivity|]. cbn [ptr_of is_nil negb].
  rewrite (rmost_N _ yl ya yd) by done.
  apply (IH (CR x b db c) yl ya yd fuel); [exact HW | done | cbn [height] in Hf |- *; lia].
Qed.

Lemma with_dM_with_dM (m m' : P) (d : Data (P:=P) (V:=V)) :
  with_dM m (with_dM m' d) = with_dM m d.
Proof. by destruct d. Qed.

Lemma bump_None (m : P) : bump m None = m.
Proof. reflexivity. Qed.

Lemma bind_raise_maxRight_left {A} (k : unit -> M A) s c (l : tree (P:=P) (V:=V)) a d
    (r : tree (P:=P) (V:=V)) n :
  WFL s (plug c (N l a d r)) n ->
  bind (raise_maxRight (Some a) (ptr_of l)) k s =
  k tt (mkState (<[a := cell (with_dM (bump (dM d) (mr_of l)) d)
                        (ctx_par c) (ptr_of l) (ptr_of r)]> (heap s)) (hdr s)).
Proof.
  intros HW. pose proof (WFL_lookup s c l a d r n HW) as Hl.
  destruct l as [|ll la dl lr].
  - cbn [ptr_of mr_of]. rewrite bind_raise_maxRight_nil, bump_None, with_dM_id.
    by rewrite state_insert_id.
  - cbn [ptr_of mr_of].
    by rewrite (bind_raise_maxRight k a la _ _ s Hl (WFL_lookup s (CL c a d r) ll la dl lr n HW)).
Qed.

Lemma bind_raise_maxRight_right {A} (k : unit -> M A) s c (l : tree (P:=P) (V:=V)) a d
    (r : tree (P:=P) (V:=V)) n :
  WFL s (plug c (N l a d r)) n ->
  bind (raise_maxRight (Some a) (ptr_of r)) k s =
  k tt (mkState (<[a := cell (with_dM (bump (dM d) (mr_of r)) d)
                        (ctx_par c) (ptr_of l) (ptr_of r)]> (heap s)) (hdr s)).
Proof.
  intros HW. pose proof (WFL_lookup s c l a d r n HW) as Hl.
  destruct r as [|rl ra rd rr].
  - cbn [ptr_of mr_of]. rewrite bind_raise_maxRight_nil, bump_None, with_dM_id.
    by rewrite state_insert_id.
  - cbn [ptr_of mr_of].
    by rewrite (bind_raise_maxRight k a ra _ _ s Hl (WFL_lookup s (CR l a d c) rl ra rd rr n HW)).
Qed.

(** One round of the loop that fixes maxRight. *)
Lemma DeleteNode_fix_round {A} (K : ptr -> M A) s c (l : tree (P:=P) (V:=V)) a d
    (r : tree (P:=P) (V:=V)) n :
  WFL s (plug c (N l a d r)) n ->
  exists s',
    bind (get interval (Some a)) (fun iv =>
      bind (set_maxRight (Some a) (Right iv)) (fun _ =>
        bind (get left (Some a)) (fun pl =>
          bind (raise_maxRight (Some a) pl) (fun _ =>
            bind (get right (Some a)) (fun pr =>
              bind (raise_maxRight (Some a) pr) (fun _ =>
                bind (get parent (Some a)) K)))))) s = K (ctx_par c) s' /\
    WFL s' (plug c (N l a (recompute d l r) r)) n /\
    (forall b, b <> a -> heap s' !! b = heap s !! b).
Proof.
  intros HW.
  rewrite (bind_get interval _ a _ s (WFL_lookup s c l a d r n HW)). cbn [interval cell].
  rewrite (bind_set_maxRight_WFL _ s c l a d r n _ HW).
  pose proof (WFL_store_data s c l a d (with_dM (Right (dI d)) d) r n HW) as HW1.
  rewrite (bind_get left _ a _ _ (WFL_lookup _ c l a _ r n HW1)). cbn [left cell].
  rewrite (bind_raise_maxRight_left _ _ c l a _ r n HW1).
  pose proof (WFL_store_data _ c l a _
    (with_dM (bump (dM (with_dM (Right (dI d)) d)) (mr_of l)) (with_dM (Right (dI d)) d))
    r n HW1) as HW2.
  rewrite (bind_get right _ a _ _ (WFL_lookup _ c l a _ r n HW2)). cbn [right cell].
  rewrite (bind_raise_maxRight_right _ _ c l a _ r n HW2).
  match type of HW2 with WFL _ (plug _ (N _ _ ?d2 _)) _ =>
    pose proof (WFL_store_data _ c l a d2 (with_dM (bump (dM d2) (mr_of r)) d2) r n HW2) as HW3
  end.
  rewrite (bind_get parent _ a _ _ (WFL_lookup _ c l a _ r n HW3)). cbn [parent cell].
  eexists. split; [reflexivity|]. split.
  - destruct d. exact HW3.
  - intros b Hb. simpl. by rewrite !lookup_insert_ne.
Qed.

Lemma DeleteNode_fix_WFL c : forall t s fuel k,
  WFL s (plug c t) k -> (depth c < fuel)%nat ->
  exists s', DeleteNode_fix fuel (ctx_par c) s = Ok (tt, s') /\
    WFL s' (plug (fixc c (mr_of t)) t) k /\
    (forall b, b ∉ fp (plug c t) -> heap s' !! b = heap s !! b).
Proof.
  induction c as [|c IH a d r|l a d c IH]; intros t s fuel k HW Hf;
    (destruct fuel as [|fuel]; [lia|]); simpl DeleteNode_fix; cbn [ctx_par is_nil].
  - by exists s.
  - cbn [plug] in HW.
    destruct (DeleteNode_fix_round (DeleteNode_fix fuel) s c t a d r k HW)
      as (s1 & E1 & HW1 & Hfr1).
    destruct (IH (N t a (recompute d t r) r) s1 fuel k HW1) as (s2 & E2 & HW2 & Hfr2);
      [simpl in Hf; lia|].
    exists s2. split; [transitivity (DeleteNode_fix fuel (ctx_par c) s1); [exact E1|exact E2]|].
    split; [exact HW2|].
    intros b Hb. cbn [plug] in Hb. rewrite Hfr2, Hfr1; [done| |].
    + intros ->. apply Hb. rewrite fp_plug. simpl. set_solver.
    + rewrite fp_plug in Hb |- *. simpl in Hb |- *. set_solver.
  - cbn [plug] in HW.
    destruct (DeleteNode_fix_round (DeleteNode_fix fuel) s c l a d t k HW)
      as (s1 & E1 & HW1 & Hfr1).
    destruct (IH (N l a (recompute d l t) t) s1 fuel k HW1) as (s2 & E2 & HW2 & Hfr2);
      [simpl in Hf; lia|].
    exists s2. split; [transitivity (DeleteNode_fix fuel (ctx_par c) s1); [exact E1|exact E2]|].
    split; [exact HW2|].
    intros b Hb. cbn [plug] in Hb. rewrite Hfr2, Hfr1; [done| |].
    + intros ->. apply Hb. rewrite fp_plug. simpl. set_solver.
    + rewrite fp_plug in Hb |- *. simpl in Hb |- *. set_solver.
Qed.
End DeleteModel.


Section DeleteRefine.
Context `{Point P} {V : Type}.
Implicit Types (s : State P V) (h : gmap positive (Node P V)).
Implicit Types (t : tree (P:=P) (V:=V)) (c ci co : ctx (P:=P) (V:=V)).

Lemma bind_child {A} (K : ptr -> M A) s c (l : tree (P:=P) (V:=V)) a d
    (r : tree (P:=P) (V:=V)) k :
  WFL s (plug c (N l a d r)) k ->
  bind (if is_nil (ptr_of l) then get right (Some a) else ret (ptr_of l)) K s =
  K (ptr_of (match l with E => r | _ => l end)) s.
Proof.
  intros HW. destruct l as [|ll la dl lr]; cbn [ptr_of is_nil].
  - by rewrite (bind_get right _ a _ s (WFL_lookup s c E a d r k HW)).
  - by rewrite bind_ret.
Qed.

(** n.red, candidate.red = candidate.red, n.red *)
Lemma wp_swap_colours {A} (K : unit -> M A) (Q : A -> State P V -> Prop) s cl c ca dc
    (r cll : tree (P:=P) (V:=V)) a d k :
  WFL s (plug (cat cl (CL c ca dc r)) (N cll a d E)) k ->
  (forall s', WFL s' (plug (cat cl (CL c ca (with_dR (dR d) dc) r))
                           (N cll a (with_dR (dR dc) d) E)) k -> wp (K tt s') Q) ->
  wp (bind (bind (get red (Some ca)) (fun cred =>
              bind (get red (Some a)) (fun nred =>
                bind (set_red (Some a) cred) (fun _ => set_red (Some ca) nred)))) K s) Q.
Proof.
  intros HW HK.
  pose proof HW as HWc. rewrite plug_cat in HWc. cbn [plug] in HWc.
  rewrite bind_bind.
  rewrite (bind_get red _ ca _ s (WFL_lookup s c _ ca dc r k HWc)). cbn [red cell].
  rewrite bind_bind.
  rewrite (bind_get red _ a _ s (WFL_lookup s _ cll a d E k HW)). cbn [red cell].
  rewrite bind_bind.
  rewrite (bind_set_red_WFL _ s _ cll a d E k _ HW).
  pose proof (WFL_store_data s _ cll a d (with_dR (dR dc) d) E k HW) as HW1.
  pose proof HW1 as HW1c. rewrite plug_cat in HW1c. cbn [plug] in HW1c.
  rewrite (bind_set_red_WFL _ _ c _ ca dc r k _ HW1c).
  pose proof (WFL_store_data _ c _ ca dc (with_dR (dR d) dc) r k HW1c) as HW2.
  apply HK. rewrite plug_cat. cbn [plug]. exact HW2.
Qed.

Lemma swap_t_far c ll la dl (lr : tree (P:=P) (V:=V)) d (r : tree (P:=P) (V:=V)) cr cll ca dc :
  lr <> E -> r <> E -> rmost Top lr = (cr, N cll ca dc E) ->
  swap_t c (N ll la dl lr) d r =
  (cat (cat cr (CR ll la dl Top)) (CL c ca (with_dR (dR d) dc) r),
   cll, with_dR (dR dc) d, E).
Proof.
  intros Hlr Hr Hrm. unfold swap_t. destruct r as [|rl ra rd rr]; [done|].
  rewrite (rmost_N _ ll la dl) by done. rewrite rmost_cat, Hrm. reflexivity.
Qed.

Lemma swap_t_near c ll la dl d (r : tree (P:=P) (V:=V)) :
  r <> E ->
  swap_t c (N ll la dl E) d r = (CL c la (with_dR (dR d) dl) r, ll, with_dR (dR dl) d, E).
Proof. intros Hr. by destruct r. Qed.

(** What DeleteNode does after [n] has at most one child. *)
Lemma DeleteNode_unlink_WFL s c1 (l1 : tree (P:=P) (V:=V)) a d1
    (r1 : tree (P:=P) (V:=V)) k T' :
  WFL s (plug c1 (N l1 a d1 r1)) k -> l1 = E \/ r1 = E ->
  (let child := match l1 with E => r1 | _ => l1 end in
   let c3 := fixc c1 (mr_of child) in
   if dR d1 then Some (plug c3 child)
   else if is_red child then Some (plug c3 (paint false child))
   else rebalanceBlack_t c3 child) = Some T' ->
  wp (bind (get parent (Some a)) (fun parent_ =>
        bind (get left (Some a)) (fun child =>
          bind (if is_nil child then get right (Some a) else ret child) (fun child =>
            bind (when (negb (is_nil child)) (set_parent child parent_)) (fun _ =>
              bind (replace_child parent_ (Some a) child) (fun _ =>
                bind (with_fuel (fun fuel => DeleteNode_fix fuel parent_)) (fun _ =>
                  bind (get red (Some a)) (fun nred =>
                    bind (when (negb nred)
                            (bind (andM (ret (negb (is_nil child))) (get red child))
                               (fun cred =>
                                  if cred then set_red child false
                                  else rebalanceBlack parent_ child))) (fun _ =>
                      bind get_length (fun len => set_length (len - 1)))))))))) s)
     (fun _ s' => WFL s' T' (k - 1)).
Proof.
  intros HW Hone HT. cbv zeta in HT.
  pose proof (WFL_lookup s c1 l1 a d1 r1 k HW) as Hl.
  rewrite (bind_get parent _ a _ s Hl). cbn [parent cell].
  rewrite (bind_get left _ a _ s Hl). cbn [left cell].
  rewrite (bind_child _ s c1 l1 a d1 r1 k HW).
  set (child := match l1 with E => r1 | _ => l1 end) in *.
  destruct HW as [HWF Hlen].
  destruct (splice_WF s c1 l1 a d1 r1 HWF Hone) as (s2 & E2 & HW2 & L2 & Hfa).
  fold child in E2, HW2.
  rewrite <- (bind_bind (when _ _) (fun _ => replace_child _ _ _) _ s).
  rewrite (bind_Ok _ _ s tt s2 E2).
  assert (WFL s2 (plug c1 child) k) as HWL2 by (split; [done|congruence]).
  destruct (WF_fuel s2 c1 child HW2) as [_ Hd].
  destruct (DeleteNode_fix_WFL c1 child s2 (fuel_of s2) k HWL2 Hd) as (s3 & E3 & HW3 & Hfr).
  rewrite (bind_Ok (with_fuel _) _ s2 tt s3 E3).
  assert (heap s3 !! a = Some (cell d1 (ctx_par c1) (ptr_of l1) (ptr_of r1))) as Ha3.
  { rewrite Hfr, Hfa; [exact Hl|].
    destruct HWF as (_ & Hwf & _). apply wf_plug in Hwf. rewrite fp_plug.
    simpl in Hwf. subst child. destruct l1; set_solver. }
  rewrite (bind_get red _ a _ s3 Ha3). cbn [red cell].
  set (c3 := fixc c1 (mr_of child)) in *.
  assert (forall T'' s4, WFL s4 T'' k ->
            wp (bind get_length (fun len => set_length (len - 1)) s4)
               (fun _ s' => WFL s' T'' (k - 1))) as Hfin.
  { intros T'' s4 [HW4 L4]. rewrite bind_get_length. unfold set_length, wp.
    rewrite L4. by apply (WFL_set_length s4 T'' k). }
  destruct (dR d1); cbn [negb].
  { injection HT as <-. unfold when at 1. rewrite bind_ret. by apply Hfin. }
  unfold when at 1. rewrite bind_bind. unfold andM at 1. rewrite bind_bind, bind_ret.
  assert (forall s4, WFL s4 (plug c3 child) k -> rebalanceBlack_t c3 child = Some T' ->
            wp (bind (rebalanceBlack (ctx_par c1) (ptr_of child))
                  (fun _ => bind get_length (fun len => set_length (len - 1))) s4)
               (fun _ s' => WFL s' T' (k - 1))) as Hrb.
  { intros s4 HW4 HT4. apply wp_bind. eapply wp_mono.
    - unfold rebalanceBlack, with_fuel. rewrite <- (ctx_par_fixc c1 (mr_of child)).
      apply (rebalanceBlack_rec_WFL (fuel_of s4) s4 c3 child k T' HW4 HT4).
      destruct HW4 as [HW4 _]. by destruct (WF_fuel s4 c3 child HW4).
    - intros [] s5 HW5. by apply Hfin. }
  clearbody child c3.
  destruct child as [|chl cha [chv chi chm [|]] chr]; cbn [ptr_of is_nil negb is_red dR] in *.
  - rewrite bind_ret. apply Hrb; [exact HW3 | exact HT].
  - rewrite (bind_get red _ cha _ s3 (WFL_lookup s3 c3 chl cha _ chr k HW3)).
    cbn [red cell dR].
    rewrite (bind_set_red_WFL _ s3 c3 chl cha _ chr k false HW3).
    injection HT as <-. apply Hfin.
    apply (WFL_store_data s3 c3 chl cha _ _ chr k HW3).
  - rewrite (bind_get red _ cha _ s3 (WFL_lookup s3 c3 chl cha _ chr k HW3)).
    cbn [red cell dR]. apply Hrb; [exact HW3 | exact HT].
Qed.

(** DeleteNode leaves the tree [delete_t]. *)
Theorem DeleteNode_WFL s c (l : tree (P:=P) (V:=V)) a d (r : tree (P:=P) (V:=V)) k T' :
  WFL s (plug c (N l a d r)) k -> delete_t c l d r = Some T' ->
  wp (DeleteNode (Some a) s) (fun _ s' => WFL s' T' (k - 1)).
Proof.
  intros HW HT. unfold delete_t in HT.
  destruct (swap_t c l d r) as [[[c1 l1] d1] r1] eqn:Hsw.
  pose proof (swap_t_one_child _ _ _ _ _ _ _ _ Hsw) as Hone.
  unfold DeleteNode.
  lazymatch goal with
  | |- wp (bind ?A (fun two => bind (@?W two) ?K) s) ?Q =>
      set (KK := K);
      assert (forall s1, WFL s1 (plug c1 (N l1 a d1 r1)) k -> wp (KK tt s1) Q) as HREST
  end.
  { intros s1 HW1. subst KK. cbv beta.
    by apply (DeleteNode_unlink_WFL s1 c1 l1 a d1 r1 k T'). }
  clearbody KK.
  destruct l as [|ll la dl lr].
  { injection Hsw as <- <- <- <-. repeat wstep. by apply HREST. }
  destruct r as [|rl ra rd rr].
  { injection Hsw as <- <- <- <-. repeat wstep. by apply HREST. }
  set (r := N rl ra rd rr) in *. assert (r <> E) as Hr by done.
  repeat wstep. clearbody r.
  destruct HW as [HWF Hlen].
  destruct lr as [|lrl lra lrd lrr]; cbn [ptr_of is_nil].
  - (* the left child is the candidate *)
    destruct (swap_near_WF s c ll la dl a d r HWF Hr) as (s1 & E1 & HW1 & L1).
    erewrite (bind_Ok _ _ s (Some la) s1) by exact E1. cbv beta.
    rewrite (swap_t_near c ll la dl d r Hr) in Hsw. injection Hsw as <- <- <- <-.
    eapply (wp_swap_colours _ _ s1 Top c la dl r ll a d k); [split; [exact HW1|congruence]|].
    intros s2 HW2. by apply HREST.
  - set (lr := N lrl lra lrd lrr) in *. assert (lr <> E) as Hlr by done. clearbody lr.
    rewrite bind_bind.
    pose proof (DeleteNode_rightmost_WF s lr (CL c a d r) ll la dl (fuel_of s) HWF Hlr) as Eloop.
    destruct (WF_fuel s (CR ll la dl (CL c a d r)) lr HWF) as [Hh _].
    specialize (Eloop ltac:(lia)). rewrite rmost_cat in Eloop. cbn [snd] in Eloop.
    destruct (rmost_leaf lr Hlr) as (cll & ca & dc & HX).
    pose proof (rmost_plug lr) as Hpl. pose proof (rmost_rspine lr) as Hsp.
    destruct (rmost Top lr) as [cr X] eqn:Hrm. cbn [fst snd] in *. subst X.
    rewrite (swap_t_far c ll la dl lr d r cr cll ca dc Hlr Hr Hrm) in Hsw.
    injection Hsw as <- <- <- <-.
    erewrite (bind_Ok (with_fuel _) _ s (Some ca) s) by exact Eloop. cbv beta.
    subst lr.
    destruct cr as [|? ? ? ?|x b db ci]; [| done |]; cbn [plug] in HWF.
    + destruct (swap_far1_WF s c ll la dl cll ca dc a d r HWF Hr) as (s1 & E1 & HW1 & L1).
      erewrite (bind_Ok _ _ s (Some ca) s1) by exact E1. cbv beta.
      eapply (wp_swap_colours _ _ s1 (CR ll la dl Top) c ca dc r cll a d k);
        [split; [exact HW1|congruence]|].
      intros s2 HW2. by apply HREST.
    + change (plug c (N (N ll la dl (plug ci (N x b db (N cll ca dc E)))) a d r))
        with (plug (CR ll la dl (CL c a d r)) (plug ci (N x b db (N cll ca dc E)))) in HWF.
      rewrite <- plug_cat in HWF.
      destruct (swap_far2_WF s c ll la dl ci x b db cll ca dc a d r HWF Hr)
        as (s1 & E1 & HW1 & L1).
      erewrite (bind_Ok _ _ s (Some ca) s1) by exact E1. cbv beta.
      eapply (wp_swap_colours _ _ s1 (cat (CR x b db ci) (CR ll la dl Top)) c ca dc r cll a d k).
      * split; [|congruence]. rewrite cat_assoc. exact HW1.
      * intros s2 HW2. by apply HREST.
Qed.
End DeleteRefine.


(** ** DeleteNode keeps the invariants *)

Section DeleteInv.
Context `{Point P} {V : Type}.
Implicit Types (s : State P V) (h : gmap positive (Node P V)).
Implicit Types (t : tree (P:=P) (V:=V)) (c ci co : ctx (P:=P) (V:=V)).

(** *** Addresses, keys and values *)

Lemma skb_cat ci co : skb (cat ci co) = skb co ++ skb ci.
Proof.
  induction ci as [|ci IH a d r|l a d ci IH]; cbn [cat].
  - change (skb Top) with (@nil (positive * Interval P * option V)). by rewrite app_nil_r.
  - exact IH.
  - rewrite !skb_CR, IH. by rewrite <- ?app_assoc.
Qed.

Lemma ska_cat ci co : ska (cat ci co) = ska ci ++ ska co.
Proof.
  induction ci as [|ci IH a d r|l a d ci IH]; cbn [cat].
  - done.
  - rewrite !ska_CL, IH. simpl. by rewrite <- ?app_assoc.
  - exact IH.
Qed.

Lemma ska_rspine ci : rspine ci -> ska ci = [].
Proof. induction ci as [|ci IH a d r|l a d ci IH]; simpl; [done|done|exact IH]. Qed.

Lemma skb_fixc c : forall o, skb (fixc c o) = skb c.
Proof.
  induction c as [|c IH a d r|l a d c IH]; intros o; cbn [fixc].
  - done.
  - apply IH.
  - rewrite !skb_CR, IH. by destruct d.
Qed.

Lemma ska_fixc c : forall o, ska (fixc c o) = ska c.
Proof.
  induction c as [|c IH a d r|l a d c IH]; intros o; cbn [fixc].
  - done.
  - rewrite !ska_CL, IH. by destruct d.
  - apply IH.
Qed.

Lemma sk_fixc c o t : sk (plug (fixc c o) t) = sk (plug c t).
Proof. by rewrite !sk_plug, skb_fixc, ska_fixc. Qed.

Lemma swap_t_sk c (l : tree (P:=P) (V:=V)) d (r : tree (P:=P) (V:=V)) c1 l1 d1 r1 :
  swap_t c l d r = (c1, l1, d1, r1) ->
  sk (plug c1 (match l1 with E => r1 | _ => l1 end)) = (skb c ++ sk l) ++ (sk r ++ ska c).
Proof.
  unfold swap_t. destruct l as [|ll la dl lr].
  { intros [= <- <- <- <-]. rewrite sk_plug, sk_E. by rewrite app_nil_r. }
  destruct r as [|rl ra rd rr].
  { intros [= <- <- <- <-]. rewrite sk_plug, sk_E. by rewrite <- app_assoc. }
  set (l := N ll la dl lr). set (r := N rl ra rd rr).
  destruct (rmost_leaf l) as (cll & ca & dc & HX); [done|].
  pose proof (rmost_plug l) as Hpl. pose proof (rmost_rspine l) as Hsp.
  destruct (rmost Top l) as [ci X]. cbn [fst snd] in *. subst X.
  intros [= <- <- <- <-].
  assert (sk (match cll with E => E | _ => cll end) = sk cll) as Hc by (by destruct cll).
  rewrite sk_plug, Hc, skb_cat, ska_cat, ska_CL, (ska_rspine ci Hsp).
  rewrite <- Hpl, sk_plug, sk_N, (ska_rspine ci Hsp), sk_E.
  change (skb (CL c ca (with_dR (dR d) dc) r)) with (skb c).
  destruct dc. simpl. rewrite !app_nil_r. by rewrite <- !app_assoc.
Qed.

Lemma delete_t_sk c (l : tree (P:=P) (V:=V)) d (r : tree (P:=P) (V:=V)) T' :
  delete_t c l d r = Some T' -> sk T' = (skb c ++ sk l) ++ (sk r ++ ska c).
Proof.
  unfold delete_t. destruct (swap_t c l d r) as [[[c1 l1] d1] r1] eqn:Hsw.
  rewrite <- (swap_t_sk c l d r c1 l1 d1 r1 Hsw).
  set (child := match l1 with E => r1 | _ => l1 end). cbv zeta.
  destruct (dR d1); [|destruct (is_red child)].
  - intros [= <-]. apply sk_fixc.
  - intros [= <-]. rewrite sk_fixc, !sk_plug, sk_paint. done.
  - intros HT. rewrite (rebalanceBlack_t_sk _ _ _ HT). apply sk_fixc.
Qed.

(** *** maxRight *)

(** The subtrees beside a path satisfy the maxRight invariant. *)
Fixpoint mrs c : Prop :=
  match c with
  | Top => True
  | CL c' _ _ r => mrt r /\ mrs c'
  | CR l _ _ c' => mrt l /\ mrs c'
  end.

Lemma mrc_mrs c : forall o, mrc c o -> mrs c.
Proof.
  induction c as [|c IH a d r|l a d c IH]; intros o; simpl; [done| |];
    intros (_ & ? & ?); eauto.
Qed.

Lemma mrs_cat ci co : mrs (cat ci co) <-> mrs ci /\ mrs co.
Proof. induction ci as [|ci IH a d r|l a d ci IH]; simpl; rewrite ?IH; tauto. Qed.

Lemma fixc_mrt c : forall t, mrs c -> mrt t -> mrt (plug (fixc c (mr_of t)) t).
Proof.
  induction c as [|c IH a d r|l a d c IH]; intros t Hs Ht; [done| |];
    destruct Hs as [Hr Hs]; cbn [fixc plug].
  - apply (IH (N t a _ r)); [done|]. destruct d. mr_goal.
  - apply (IH (N l a _ t)); [done|]. destruct d. mr_goal.
Qed.

Lemma mrt_paint b t : mrt (paint b t) <-> mrt t.
Proof. destruct t as [|l a [] r]; [done|]. reflexivity. Qed.

Lemma mr_of_paint b t : mr_of (paint b t) = mr_of t.
Proof. by destruct t as [|l a [] r]. Qed.

Lemma swap_t_mrs c (l : tree (P:=P) (V:=V)) d (r : tree (P:=P) (V:=V)) c1 l1 d1 r1 :
  swap_t c l d r = (c1, l1, d1, r1) -> mrs c -> mrt l -> mrt r ->
  mrs c1 /\ mrt (match l1 with E => r1 | _ => l1 end).
Proof.
  unfold swap_t. intros Hsw Hc Hl Hr. destruct l as [|ll la dl lr].
  { by injection Hsw as <- <- <- <-. }
  destruct r as [|rl ra rd rr].
  { by injection Hsw as <- <- <- <-. }
  set (l := N ll la dl lr) in *. set (r := N rl ra rd rr) in *.
  destruct (rmost_leaf l) as (cll & ca & dc & HX); [done|].
  pose proof (rmost_plug l) as Hpl.
  destruct (rmost Top l) as [ci X]. cbn [fst snd] in *. subst X.
  injection Hsw as <- <- <- <-.
  rewrite <- Hpl in Hl. apply mrt_plug in Hl as [(_ & Hcll & _) Hci].
  apply mrc_mrs in Hci. split.
  - apply mrs_cat. by split.
  - by destruct cll.
Qed.

Lemma delete_t_mrt c (l : tree (P:=P) (V:=V)) a d (r : tree (P:=P) (V:=V)) T' :
  delete_t c l d r = Some T' -> mrt (plug c (N l a d r)) -> mrt T'.
Proof.
  unfold delete_t. destruct (swap_t c l d r) as [[[c1 l1] d1] r1] eqn:Hsw.
  intros HT Hm. apply mrt_plug in Hm as [(_ & Hl & Hr) Hc]. apply mrc_mrs in Hc.
  destruct (swap_t_mrs c l d r c1 l1 d1 r1 Hsw Hc Hl Hr) as [Hc1 Hch].
  set (child := match l1 with E => r1 | _ => l1 end) in *. cbv zeta in HT.
  destruct (dR d1); [|destruct (is_red child)].
  - injection HT as <-. by apply fixc_mrt.
  - injection HT as <-. rewrite <- (mr_of_paint false child).
    apply fixc_mrt; [done|]. by apply mrt_paint.
  - apply (rebalanceBlack_t_mrt _ _ _ HT). by apply fixc_mrt.
Qed.

(** *** Colours *)

Lemma okc_fixc c : forall o (n : nat), okc (fixc c o) n <-> okc c n.
Proof.
  induction c as [|c IH a d r|l a d c IH]; intros o n; [done| |];
    destruct d as [? ? ? []]; cbn [fixc okc dR with_dM]; rewrite IH;
    (destruct c as [|? ? [] ?|? ? [] ?]; cbn; tauto).
Qed.

Lemma cblack_fixc c o : cblack (fixc c o) <-> cblack c.
Proof. destruct c as [|c a d r|l a d c]; [done| |]; by destruct d. Qed.

Lemma cblack_cat ci co co' :
  (cblack co -> cblack co') -> cblack (cat ci co) -> cblack (cat ci co').
Proof. destruct ci; simpl; auto. Qed.

Lemma okc_cat ci co co' : forall n : nat,
  (forall n' : nat, okc co n' -> okc co' n') -> (cblack co -> cblack co') ->
  okc (cat ci co) n -> okc (cat ci co') n.
Proof.
  induction ci as [|ci IH a d r|l a d ci IH]; intros n Ho Hb; simpl; [apply Ho| |];
    intros (? & ? & Hd & ?); (split_and!; [done|done| |by apply (IH _ Ho Hb)]);
    intros Hr; destruct (Hd Hr); (split; [done|]); by apply (cblack_cat ci co co').
Qed.

Lemma rbt_bh0 t : rbt t -> bh t = 0%nat -> is_black t = true -> t = E.
Proof. destruct t as [|l a [? ? ? []] r]; [done| |]; simpl; [done|lia]. Qed.

(** After the first step, the node has at most one child and sits where
    the colouring is still right. *)
Lemma swap_t_rbt c (l : tree (P:=P) (V:=V)) a d (r : tree (P:=P) (V:=V)) c1 l1 d1 r1 :
  swap_t c l d r = (c1, l1, d1, r1) ->
  rbt (plug c (N l a d r)) -> is_black (plug c (N l a d r)) = true ->
  rbt (N l1 a d1 r1) /\ okc c1 (bh (N l1 a d1 r1)) /\ (dR d1 = true -> cblack c1).
Proof.
  unfold swap_t. intros Hsw Hrb Hbl. destruct l as [|ll la dl lr].
  { injection Hsw as <- <- <- <-. by apply (rbt_plug c (N E a d r)). }
  destruct r as [|rl ra rd rr].
  { injection Hsw as <- <- <- <-. by apply (rbt_plug c (N _ a d E)). }
  set (l := N ll la dl lr) in *. set (r := N rl ra rd rr) in *.
  destruct (rmost_leaf l) as (cll & ca & dc & HX); [done|].
  pose proof (rmost_plug l) as Hpl.
  destruct (rmost Top l) as [ci X]. cbn [fst snd] in *. subst X.
  injection Hsw as <- <- <- <-. clearbody l r. subst l.
  change (plug c (N (plug ci (N cll ca dc E)) a d r))
    with (plug (CL c a d r) (plug ci (N cll ca dc E))) in Hrb, Hbl.
  rewrite <- plug_cat in Hrb, Hbl.
  destruct (proj1 (rbt_plug _ _) (conj Hrb Hbl)) as (H1 & H2 & H3).
  assert (forall n' : nat, okc (CL c a d r) n' -> okc (CL c ca (with_dR (dR d) dc) r) n') as Ho.
  { intros n'. destruct d, dc. cbn. tauto. }
  assert (cblack (CL c a d r) -> cblack (CL c ca (with_dR (dR d) dc) r)) as Hb.
  { destruct d, dc. cbn. tauto. }
  destruct d as [dv di dm dr], dc as [cv ci' cm cr]. split_and!.
  - exact H1.
  - apply (okc_cat ci _ _ _ Ho Hb). exact H2.
  - intros Hr. apply (cblack_cat ci _ _ Hb). by apply H3.
Qed.

Lemma delete_t_rbt c (l : tree (P:=P) (V:=V)) a d (r : tree (P:=P) (V:=V)) :
  rbt (plug c (N l a d r)) -> is_black (plug c (N l a d r)) = true ->
  exists T', delete_t c l d r = Some T' /\ rbt T' /\ is_black T' = true.
Proof.
  intros Hrb Hbl. unfold delete_t.
  destruct (swap_t c l d r) as [[[c1 l1] d1] r1] eqn:Hsw.
  destruct (swap_t_rbt c l a d r c1 l1 d1 r1 Hsw Hrb Hbl) as (H1 & H2 & H3).
  pose proof (swap_t_one_child _ _ _ _ _ _ _ _ Hsw) as Hone.
  set (child := match l1 with E => r1 | _ => l1 end). cbv zeta.
  set (c3 := fixc c1 (mr_of child)).
  assert (rbt child /\ bh child = 0%nat /\ bh l1 = 0%nat /\
          (dR d1 = true -> is_black child = true)) as (Hc1 & Hc2 & Hc3 & Hc4).
  { subst child. destruct H1 as (Hbh & Hcol & Hl & Hr).
    destruct Hone as [-> | ->].
    - split_and!; [exact Hr | symmetry; exact Hbh | reflexivity |].
      intros Hd. by destruct (Hcol Hd).
    - destruct l1 as [|ll la dl lr]; [by split_and!|].
      split_and!; [exact Hl | exact Hbh | exact Hbh |].
      intros Hd. by destruct (Hcol Hd). }
  destruct d1 as [v1 i1 m1 [|]]; cbn [dR bh] in *.
  - rewrite (rbt_bh0 child Hc1 Hc2 (Hc4 eq_refl)). eexists. split; [reflexivity|].
    apply rbt_plug_intro; [done| |done]. apply okc_fixc. simpl. by rewrite <- Hc3.
  - destruct (is_red child) eqn:Ered.
    + eexists. split; [reflexivity|].
      destruct child as [|chl cha [chv chi chm chr] chr']; [done|]. simpl in Ered. subst chr.
      apply rbt_plug_intro; [rb| |done].
      apply okc_fixc. cbn [paint bh dR with_dR]. simpl in Hc2. rewrite Hc2, <- Hc3. exact H2.
    + assert (child = E) as Hch.
      { apply rbt_bh0; [done|done|]. destruct child as [|? ? [] ?]; [done|]. simpl in *.
        by rewrite Ered. }
      subst c3. rewrite Hch. apply rebalanceBlack_t_rbt; [done|done|].
      apply okc_fixc. simpl. rewrite <- Hc3. exact H2.
Qed.
End DeleteInv.


Section DeleteTop.
Context `{Point P} {V : Type}.
Implicit Types (s : State P V) (iv : Interval P) (v : option V).
Implicit Types (t : tree (P:=P) (V:=V)) (c : ctx (P:=P) (V:=V)).

Lemma sorted_remove (xs ys : list (positive * Interval P * option V)) k :
  StronglySorted slt (xs ++ k :: ys) -> StronglySorted slt (xs ++ ys).
Proof.
  rewrite !StronglySorted_app, StronglySorted_cons.
  intros (Hx & Hl & _ & Hr). split_and!; [|done|done].
  intros x1 x2 H1 H2. apply Hx; [done|]. set_solver.
Qed.

Lemma DeleteNode_Inv s c (l : tree (P:=P) (V:=V)) a d (r : tree (P:=P) (V:=V)) :
  Inv s (plug c (N l a d r)) ->
  wp (DeleteNode (Some a) s)
     (fun _ s' => exists T', Inv s' T' /\ sk T' = (skb c ++ sk l) ++ (sk r ++ ska c)).
Proof.
  intros (HW & Hb & Hrb & Hbl & Hm & Hne & Hlen).
  destruct (delete_t_rbt c l a d r Hrb Hbl) as (T' & HT & Hrb' & Hbl').
  eapply wp_mono.
  { apply (DeleteNode_WFL s c l a d r (length (hdr s)) T'); [by split | exact HT]. }
  intros [] s' [HW' Hlen']. exists T'.
  pose proof (delete_t_sk c l d r T' HT) as Hsk.
  split; [|exact Hsk]. split_and!.
  - exact HW'.
  - apply bst_sk. rewrite Hsk. apply bst_sk in Hb. rewrite sk_plug_N in Hb.
    by apply sorted_remove in Hb.
  - done.
  - done.
  - by apply (delete_t_mrt c l a d r T' HT).
  - apply nek_sk. rewrite Hsk. apply nek_sk in Hne. rewrite sk_plug_N in Hne.
    rewrite Forall_app, Forall_cons in Hne. rewrite Forall_app. tauto.
  - rewrite Hlen', Hlen, !nodes_sk, Hsk, sk_plug_N, !length_app, length_cons, !length_app. lia.
Qed.

Lemma Delete_Inv s t iv :
  Inv s t -> Interval_empty iv = false ->
  wp (Delete iv s)
     (fun res s' => exists t', Inv s' t' /\
        match find iv t with
        | None => res = (None, false) /\ s' = s /\ t' = t
        | Some a =>
            exists xs d ys, sk t = xs ++ (a, dI d, dV d) :: ys /\
              sk t' = xs ++ ys /\ res = (dV d, true)
        end).
Proof.
  intros HI Hiv. pose proof HI as (HW & _).
  unfold Delete. rewrite (bind_Ok _ _ s _ s (GetNode_WF s iv t HW Hiv)).
  destruct (find iv t) as [a|] eqn:Hf; cbn [is_nil].
  - destruct (find_Some iv t a Hf) as (d & Hin & _).
    destruct (focus_exists t a d Top Hin) as (c & l & r & Et). simpl in Et. subst t.
    rewrite (bind_get Value _ a _ s (WF_lookup s c l a d r HW)). cbn [Value cell].
    apply wp_bind. eapply wp_mono; [exact (DeleteNode_Inv s c l a d r HI)|].
    intros [] s' (T' & HI' & Hsk). unfold wp, ret. exists T'. split; [done|].
    exists (skb c ++ sk l), d, (sk r ++ ska c). split_and!; [apply sk_plug_N | done | done].
  - unfold wp, ret. by exists t.
Qed.

(** *** The states of a tree in use *)

(** [a] is reached from the root over left and right links. *)
Inductive linked s : positive -> Prop :=
| linked_root a : root (hdr s) = Some a -> linked s a
| linked_left p nd a :
    linked s p -> heap s !! p = Some nd -> left nd = Some a -> linked s a
| linked_right p nd a :
    linked s p -> heap s !! p = Some nd -> right nd = Some a -> linked s a.

(** The states reached from an empty tree by ReplaceOrInsert, Delete and
    DeleteNode of a node of the tree. *)
Inductive reachable : State P V -> Prop :=
| reach_zero (h : gmap positive (Node P V)) : reachable (zero h)
| reach_ReplaceOrInsert s iv v res s' :
    reachable s -> ReplaceOrInsert iv v s = Ok (res, s') -> reachable s'
| reach_Delete s iv res s' :
    reachable s -> Delete iv s = Ok (res, s') -> reachable s'
| reach_DeleteNode s a s' :
    reachable s -> linked s a -> DeleteNode (Some a) s = Ok (tt, s') -> reachable s'.

Lemma rep_child h par t p nd :
  rep h par t -> p ∈ fp t -> h !! p = Some nd ->
  (forall a, left nd = Some a -> a ∈ fp t) /\ (forall a, right nd = Some a -> a ∈ fp t).
Proof.
  revert par. induction t as [|l IHl b d r IHr]; intros par; simpl; [set_solver|].
  intros (Hb & Hl & Hr) Hp Hnd.
  destruct (decide (p = b)) as [->|Hne].
  - rewrite Hb in Hnd. injection Hnd as <-. simpl. split; intros a Ha.
    + destruct l; [done|]. injection Ha as ->. simpl. set_solver.
    + destruct r; [done|]. injection Ha as ->. simpl. set_solver.
  - assert (p ∈ fp l \/ p ∈ fp r) as [Hp'|Hp'] by set_solver.
    + destruct (IHl _ Hl Hp' Hnd). split; intros a Ha; set_solver.
    + destruct (IHr _ Hr Hp' Hnd). split; intros a Ha; set_solver.
Qed.

Lemma linked_fp s t a : WF s t -> linked s a -> a ∈ fp t.
Proof.
  intros (Hrep & _ & Hroot). induction 1 as [a Ha|p nd a _ IH Hnd Ha|p nd a _ IH Hnd Ha].
  - rewrite Hroot in Ha. destruct t; [done|]. injection Ha as ->. simpl. set_solver.
  - by apply (proj1 (rep_child _ _ _ _ _ Hrep IH Hnd)).
  - by apply (proj2 (rep_child _ _ _ _ _ Hrep IH Hnd)).
Qed.

Lemma fp_inorder t a : a ∈ fp t -> exists d, (a, d) ∈ inorder t.
Proof.
  induction t as [|l IHl b d r IHr]; simpl; [set_solver|].
  intros Ha. destruct (decide (a = b)) as [->|Hne]; [exists d; set_solver|].
  assert (a ∈ fp l \/ a ∈ fp r) as [Ha'|Ha'] by set_solver.
  - destruct (IHl Ha') as (e & ?). exists e. set_solver.
  - destruct (IHr Ha') as (e & ?). exists e. set_solver.
Qed.

Lemma Inv_zero (h : gmap positive (Node P V)) : Inv (zero h) E.
Proof.
  split_and!; try done.
  - unfold bst. simpl. constructor.
  - intros x Hx. simpl in Hx. by apply elem_of_nil in Hx.
Qed.

(** Every state in use holds a tree that satisfies all invariants. *)
Lemma reachable_Inv s : reachable s -> exists t, Inv s t.
Proof.
  induction 1 as [h|s iv v res s' _ [t HI] E1|s iv res s' _ [t HI] E1|s a s' _ [t HI] Ha E1].
  - exists E. apply Inv_zero.
  - destruct (Interval_empty iv) eqn:Hiv.
    { unfold ReplaceOrInsert in E1. by rewrite check_interval_empty in E1. }
    pose proof (ReplaceOrInsert_Inv s t iv v HI Hiv) as Hwp.
    rewrite E1 in Hwp. destruct Hwp as (t' & HI' & _). by exists t'.
  - destruct (Interval_empty iv) eqn:Hiv.
    { unfold Delete, GetNode in E1. rewrite bind_bind in E1.
      by rewrite check_interval_empty in E1. }
    pose proof (Delete_Inv s t iv HI Hiv) as Hwp.
    rewrite E1 in Hwp. destruct Hwp as (t' & HI' & _). by exists t'.
  - pose proof HI as (HW & _).
    destruct (fp_inorder t a (linked_fp s t a HW Ha)) as (d & Hin).
    destruct (focus_exists t a d Top Hin) as (c & l & r & Et). simpl in Et. subst t.
    pose proof (DeleteNode_Inv s c l a d r HI) as Hwp.
    rewrite E1 in Hwp. destruct Hwp as (t' & HI' & _). by exists t'.
Qed.

(** The maxRight a node would recompute, read from the store. *)
Definition mr_at s (p : ptr) : option P :=
  match p with
  | Some b => match heap s !! b with Some nd => Some (maxRight nd) | None => None end
  | None => None
  end.

Definition maxRight_ok s (a : positive) : Prop :=
  exists nd, heap s !! a = Some nd /\
    equal (maxRight nd)
      (bump (bump (Right (interval nd)) (mr_at s (left nd))) (mr_at s (right nd))) = true.

Lemma mr_at_left s c (l : tree (P:=P) (V:=V)) a d (r : tree (P:=P) (V:=V)) :
  WF s (plug c (N l a d r)) -> mr_at s (ptr_of l) = mr_of l.
Proof.
  intros HW. destruct l as [|ll la dl lr]; [done|]. simpl.
  by rewrite (WF_lookup s (CL c a d r) ll la dl lr HW).
Qed.

Lemma mr_at_right s c (l : tree (P:=P) (V:=V)) a d (r : tree (P:=P) (V:=V)) :
  WF s (plug c (N l a d r)) -> mr_at s (ptr_of r) = mr_of r.
Proof.
  intros HW. destruct r as [|rl ra rd rr]; [done|]. simpl.
  by rewrite (WF_lookup s (CR l a d c) rl ra rd rr HW).
Qed.

Lemma mrt_maxRight_ok s t a :
  WF s t -> mrt t -> a ∈ fp t -> maxRight_ok s a.
Proof.
  intros HW Hm Ha. destruct (fp_inorder t a Ha) as (d & Hin).
  destruct (focus_exists t a d Top Hin) as (c & l & r & Et). simpl in Et. subst t.
  apply mrt_plug in Hm as [(Hd & _) _].
  exists (cell d (ctx_par c) (ptr_of l) (ptr_of r)). split; [by apply WF_lookup|].
  cbn [maxRight interval left right cell].
  by rewrite (mr_at_left s c l a d r HW), (mr_at_right s c l a d r HW).
Qed.

(** C1: after any sequence of ReplaceOrInsert, Delete and DeleteNode from
    an empty tree, the store holds a tree in which the maxRight of every
    node is the maximum, under the point order, of the right endpoint of its
    interval and the maxRight of its children; read from the store, every
    node reached from the root satisfies this equation. *)
Theorem reachable_maxRight s :
  reachable s ->
  exists t, WF s t /\ mrt t /\ forall a, linked s a -> maxRight_ok s a.
Proof.
  intros Hr. destruct (reachable_Inv s Hr) as (t & HW & _ & _ & _ & Hm & _).
  exists t. split_and!; [done|done|].
  intros a Ha. apply (mrt_maxRight_ok s t a HW Hm). by apply (linked_fp s t a HW).
Qed.

(** C3: after any sequence of ReplaceOrInsert, Delete and DeleteNode from
    an empty tree, the root is black, no red node has a red child, and all
    paths from the root to an absent child hold the same number of black
    nodes. *)
Theorem reachable_red_black s :
  reachable s -> exists t, WF s t /\ rbt t /\ is_black t = true.
Proof.
  intros Hr. destruct (reachable_Inv s Hr) as (t & HW & _ & Hrb & Hbl & _). by exists t.
Qed.

(** C4: after any sequence of ReplaceOrInsert, Delete and DeleteNode from
    an empty tree, the in-order traversal of the tree is strictly increasing
    in the order of intervals. *)
Theorem reachable_bst s :
  reachable s -> exists t, WF s t /\ StronglySorted klt (inorder t).
Proof.
  intros Hr. destruct (reachable_Inv s Hr) as (t & HW & Hb & _). by exists t.
Qed.
End DeleteTop.

Module Example2.
Import Scenarios.

(** The tree of three nodes, after the deletion of its root [5,6) and of the
    node 2 that holds [0,100). *)
Definition st4 : State Int Z := after (Delete (iv 5 6)) Example.st3.
Definition st5 : State Int Z := after (DeleteNode (Some 2%positive)) st4.

Lemma reachable_st3 : reachable Example.st3.
Proof.
  eapply reach_ReplaceOrInsert with (iv := iv 7 9) (v := Some 2).
  eapply reach_ReplaceOrInsert with (iv := iv 0 100) (v := Some 1).
  eapply reach_ReplaceOrInsert with (iv := iv 5 6) (v := Some 0).
  apply (reach_zero ∅).
  all: vm_compute; reflexivity.
Qed.

Lemma reachable_st5 : reachable st5.
Proof.
  eapply reach_DeleteNode with (s := st4) (a := 2%positive).
  - eapply reach_Delete with (iv := iv 5 6); [exact reachable_st3|].
    vm_compute. reflexivity.
  - apply linked_root. vm_compute. reflexivity.
  - vm_compute. reflexivity.
Qed.
End Example2.

Lemma reachable_maxRight_witness :
  exists t, WF Example2.st5 t /\ mrt t /\
    forall a, linked Example2.st5 a -> maxRight_ok Example2.st5 a.
Proof. apply reachable_maxRight. exact Example2.reachable_st5. Defined.

Lemma reachable_red_black_witness :
  exists t, WF Example2.st5 t /\ rbt t /\ is_black t = true.
Proof. apply reachable_red_black. exact Example2.reachable_st5. Defined.

Lemma reachable_bst_witness :
  exists t, WF Example2.st5 t /\ StronglySorted klt (inorder t).
Proof. apply reachable_bst. exact Example2.reachable_st5. Defined.
